(** * tasks/task_manager.hh: a shallow embedding of the task manager

    The development follows the header [src/tasks/task_manager.hh]:
    the value types ([task_state], [progress], [status]), the children
    collection with [map_each_task], the cross-shard fan-out
    [invoke_on_task], and the task factories of [module]. It goes on with
    the [trigger_snapshot] handler of [src/api/raft.cc] and with the
    simulation of [src/test/perf/tablet_load_balancing.cc]. *)

From Stdlib Require Import Floats Ascii.
From stdpp Require Import gmap strings list fin_maps.

Open Scope Z_scope.

(** ** Value types *)

(** [task_id] is declared in [tasks/types.hh] as a tagged UUID: an opaque
    128-bit value whose conversion to [bool] tells whether it is non-null.
    It is a number below [2^128] here; the null identifier is zero. *)
Abbreviation task_id := N (only parsing).

Definition task_id_null : task_id := 0%N.

(** [explicit operator bool] of the identifier. *)
Definition task_id_bool (id : task_id) : bool := negb (N.eqb id task_id_null).

(** [db_clock::time_point]: milliseconds since the epoch; a value-initialised
    time point is the epoch. *)
Abbreviation time_point := Z (only parsing).

(** [uint64_t] arithmetic wraps around. *)
Definition uint64_modulus : Z := 2 ^ 64.
Definition uint64_wrap (z : Z) : Z := z mod uint64_modulus.

(** [enum class task_state]. *)
Inductive task_state := created | running | done | failed.

Module progress.

(** [struct progress]: two [double] fields, both initialised to [0.0]. *)
Record t := mk { completed : float; total : float }.

Definition default : t := {| completed := 0%float; total := 0%float |}.

(** [progress& operator+=(const progress& rhs)]: updates the object it is
    called on and hands that object back. *)
Definition add_assign (this rhs : t) : t :=
  let completed' := (completed this + completed rhs)%float in
  let total' := (total this + total rhs)%float in
  {| completed := completed'; total := total' |}.

(** [friend progress operator+(progress lhs, const progress& rhs)]: [lhs] is
    a copy of the left operand, updated with [+=] and returned. *)
Definition add (lhs rhs : t) : t :=
  let lhs := add_assign lhs rhs in
  lhs.

End progress.

Module status.

(** [struct status], with the default member initialisers of the header. *)
Record t := mk {
  id : task_id;
  state : task_state;
  start_time : time_point;
  end_time : time_point;
  error : string;
  sequence_number : Z;
  shard : nat;
  scope : string;
  keyspace : string;
  table : string;
  entity : string;
  progress_units : string
}.

Definition default : t :=
  {| id := task_id_null;
     state := created;
     start_time := 0;
     end_time := 0;
     error := "";
     sequence_number := 0;
     shard := 0%nat;
     scope := "";
     keyspace := "";
     table := "";
     entity := "";
     progress_units := "" |}.

(** [get_status().sequence_number = n]. *)
Definition set_sequence_number (n : Z) (st : t) : t :=
  mk (id st) (state st) (start_time st) (end_time st) (error st) n
     (shard st) (scope st) (keyspace st) (table st) (entity st)
     (progress_units st).

End status.


(** ** Exceptions and futures *)

(** The exceptions the header raises itself are [task_not_found] (its message
    is [format("task with id {} not found", tid)]) and the exception of
    [on_internal_error], kept here as the format string and its argument.
    Any other exception is a [std_exception], given by its [what()], and is
    written as that text. An exception that comes out of a callback or of a
    collaborator is marked [foreign_exception], whatever it is, also when it
    is a [task_not_found] or an internal error: the embedding records where
    an exception was raised. *)
Inductive exn :=
  | task_not_found (tid : task_id)
  | internal_error (fmt : string) (tid : task_id)
  | std_exception (what : string)
  | foreign_exception (e : exn).

Coercion std_exception : string >-> exn.

(** The exception without the marks of its origin, as a handler gets it: a
    [task_not_found] that a callback threw is caught as [task_not_found]. *)
Fixpoint caught (e : exn) : exn :=
  match e with
  | foreign_exception e' => caught e'
  | _ => e
  end.

(** A resolved [future<A>]: a value or an exception. *)
Inductive outcome (A : Type) :=
  | Returned (v : A)
  | Threw (e : exn).

Arguments Returned {A} v.
Arguments Threw {A} e.

(** The future a callback returns: ready with a value, or failed with an
    exception, which can be any, [task_not_found] and the internal error
    included. *)
Inductive callback_future (A : Type) :=
  | Ready (v : A)
  | Failed (e : exn).

Arguments Ready {A} v.
Arguments Failed {A} e.

Definition is_ready {A} (f : callback_future A) : bool :=
  match f with Ready _ => true | Failed _ => false end.

(** [co_await] on a callback's future: the exception of the callback is
    rethrown as it is, [caught] gives it back; the mark says that it is the
    callback's. *)
Definition await {A} (f : callback_future A) : outcome A :=
  match f with
  | Ready v => Returned v
  | Failed e => Threw (foreign_exception e)
  end.

(** [explicit operator bool] of [std::optional<A>]. *)
Definition engaged {A} (o : option A) : bool :=
  match o with Some _ => true | None => false end.

(** [std::optional<A>::value()]: throws [std::bad_optional_access] on an
    empty optional. *)
Definition optional_value {A} (o : option A) : outcome A :=
  match o with
  | Some v => Returned v
  | None => Threw (foreign_exception "bad optional access")
  end.

(** Copying a lazily transformed range into a vector: the transformation
    runs element by element and the first exception ends the copy. *)
Fixpoint copy_range_transformed {A B} (f : A → outcome B) (l : list A)
  : outcome (list B) :=
  match l with
  | [] => Returned []
  | x :: l' =>
      match f x with
      | Threw e => Threw e
      | Returned y =>
          match copy_range_transformed f l' with
          | Threw e => Threw e
          | Returned ys => Returned (y :: ys)
          end
      end
  end.

(** ** Pointers *)

(** [task_ptr = lw_shared_ptr<task>]: the address of a task object in the
    memory of the shard that owns it. *)
Abbreviation task_ptr := nat (only parsing).

(** [foreign_task_ptr = foreign_ptr<task_ptr>]: a task pointer together with
    the shard it has to be used on. *)
Record foreign_task_ptr := make_foreign { owner_shard : nat; get : task_ptr }.

(** ** Children collection *)

(** [struct task_essentials]. *)
#[warnings="-register-all"]
Inductive task_essentials := mk_task_essentials {
  task_status : status.t;
  task_progress : progress.t;
  parent_id : task_id;
  type : string;
  abortable : bool;
  failed_children : list task_essentials
}.

Module children.

(** [class children] without its lock: the live children by identifier and
    the essentials of the finished ones. *)
Record t := mk {
  _children : gmap task_id foreign_task_ptr;
  _finished_children : list task_essentials
}.

Definition empty : t := {| _children := ∅; _finished_children := [] |}.

(** [_children | boost::adaptors::map_values]: the mapped values in the
    iteration order of the [unordered_map], which the standard leaves to the
    implementation; it is the order of [map_to_list] here. *)
Definition map_values (c : t) : list foreign_task_ptr :=
  (map_to_list (_children c)).*2.

(** [map_each_task<Res>], run under the read lock: the two transformed
    ranges are joined, the optionals that convert to [false] are filtered
    out and [value()] is taken of what is left. *)
Definition map_each_task {Res}
    (map_children : foreign_task_ptr → option Res)
    (map_finished_children : task_essentials → option Res)
    (c : t) : outcome (list Res) :=
  let joined :=
    (map_children <$> map_values c)
      ++ (map_finished_children <$> _finished_children c) in
  copy_range_transformed optional_value (filter (λ o, engaged o) joined).

(** The result as the specification words it: the non-empty mapper outputs,
    live children first, then the finished ones. *)
Definition non_empty_outputs {Res}
    (map_children : foreign_task_ptr → option Res)
    (map_finished_children : task_essentials → option Res)
    (c : t) : list Res :=
  omap map_children (map_values c)
    ++ omap map_finished_children (_finished_children c).

End children.

(** ** Tasks, modules and the per-shard task manager *)

(** [task_info] of [tasks/types.hh]: the identifier of a parent task and the
    shard it lives on; it converts to [true] when the identifier is set. *)
Record task_info := mk_task_info { ti_id : task_id; ti_shard : nat }.

Definition task_info_empty : task_info :=
  {| ti_id := task_id_null; ti_shard := 0%nat |}.

Definition task_info_bool (parent_d : task_info) : bool :=
  task_id_bool (ti_id parent_d).

(** [module_ptr]: modules are owned by the [_modules] map of their shard's
    task manager; a pointer to one is its key there. *)
Abbreviation module_ptr := string (only parsing).

(** [class task::impl], data members: the abort source is the flag that
    tells whether abort was requested. A [task] owns exactly one [impl], so
    the task object is given by it. *)
Record impl := mk_impl {
  _status : status.t;
  _parent_id : task_id;
  _task_children : children.t;
  _module : module_ptr;
  _as : bool
}.

Abbreviation task := impl (only parsing).

(** [class module], data members. *)
Record module_t := mk_module {
  _name : string;
  _tasks : gmap task_id task_ptr;
  _sequence_number : Z
}.

(** [class task_manager], data members used by the operations below. *)
Record task_manager := mk_task_manager {
  _all_tasks : gmap task_id task_ptr;
  _modules : gmap string module_t
}.

(** [task_map& get_all_tasks()]. *)
Definition get_all_tasks (tm : task_manager) : gmap task_id task_ptr :=
  _all_tasks tm.

(** ** Cross-shard dispatch: [invoke_on_task] *)

(** [sharded<task_manager>]: one instance per shard, [smp::count] of them;
    the position in the list is the shard number. *)
Abbreviation sharded_task_manager := (list task_manager) (only parsing).

(** [boost::irange(0u, smp::count)], each shard with its instance. *)
Definition all_shards (tm : sharded_task_manager) : list (nat * task_manager) :=
  imap (λ shard local_tm, (shard, local_tm)) tm.

(** Shard [shard] of [tm] has [id] in its all-tasks index, for task [t]. *)
Definition holds (tm : sharded_task_manager) (id : task_id) (shard : nat)
    (t : task_ptr) : Prop :=
  ∃ local_tm, tm !! shard = Some local_tm
              ∧ get_all_tasks local_tm !! id = Some t.

(** No shard has [id] in its index. *)
Definition absent_everywhere (tm : sharded_task_manager) (id : task_id)
  : Prop :=
  ∀ shard local_tm, tm !! shard = Some local_tm →
                    get_all_tasks local_tm !! id = None.

(** Two different shards have [id] in their index. *)
Definition on_more_than_one_shard (tm : sharded_task_manager) (id : task_id)
  : Prop :=
  ∃ s1 t1 s2 t2, s1 ≠ s2 ∧ holds tm id s1 t1 ∧ holds tm id s2 t2.

(** The uniqueness of identifiers: no two shards have [id]. *)
Definition on_at_most_one_shard (tm : sharded_task_manager) (id : task_id)
  : Prop :=
  ∀ s1 t1 s2 t2, holds tm id s1 t1 → holds tm id s2 t2 → s1 = s2.

Definition more_than_one_shard_fmt : string :=
  "task_id {} found on more than one shard".

Section invoke_on_task.

Context {T : Type}.

(** The callback runs on the shard of the task; the shard is its first
    argument here. *)
Variable func : nat → task_ptr → callback_future T.

(** The function run on [shard] by [tm.invoke_on]: looks the identifier up in
    the local index and awaits the callback on the task found. *)
Definition invoke_on_local (id : task_id) (shard : nat)
    (local_tm : task_manager) : outcome (option T) :=
  let all_tasks := get_all_tasks local_tm in
  match all_tasks !! id with
  | Some it_second =>
      match await (func shard it_second) with
      | Returned v => Returned (Some v)
      | Threw e => Threw e
      end
  | None => Returned None
  end.

(** What the iterations of [parallel_for_each] share: the captured [res],
    and the exceptions with which iterations have failed so far. *)
Record fan_out_state := mk_fan_out {
  res : option T;
  raised : list exn
}.

Definition fan_out_start : fan_out_state := {| res := None; raised := [] |}.

(** The part of one iteration that runs after [co_await tm.invoke_on]: it
    runs on the calling shard without suspension. *)
Definition fan_out_step (id : task_id) (st : fan_out_state)
    (entry : nat * task_manager) : fan_out_state :=
  match invoke_on_local id entry.1 entry.2 with
  | Threw e => {| res := res st; raised := raised st ++ [e] |}
  | Returned local_res =>
      match res st with
      | None => {| res := local_res; raised := raised st |}
      | Some _ =>
          if engaged local_res
          then {| res := res st;
                  raised := raised st
                              ++ [internal_error more_than_one_shard_fmt id] |}
          else st
      end
  end.

(** The number of engaged local results from which on the check of
    uniqueness fails: the first one only fills [res]. *)
Definition first_duplicate (r : option T) : nat :=
  match r with Some _ => 1%nat | None => 2%nat end.

(** [coroutine::parallel_for_each] over the shards: the iterations finish in
    the order [completion], which the scheduler decides. All of them run. *)
Definition fan_out (id : task_id) (completion : list (nat * task_manager))
  : fan_out_state :=
  foldl (fan_out_step id) fan_out_start completion.

(** When iterations failed, [parallel_for_each] fails with one of their
    exceptions; [pick] tells which. *)
Definition rethrown (pick : nat) (raised : list exn) : option exn :=
  raised !! (pick `mod` length raised)%nat.

(** [invoke_on_task<T>] under a schedule: a completion order of the
    iterations and the choice of the exception that is rethrown. *)
Definition invoke_on_task_scheduled (completion : list (nat * task_manager))
    (pick : nat) (id : task_id) : outcome T :=
  let st := fan_out id completion in
  match rethrown pick (raised st) with
  | Some e => Threw e
  | None =>
      match res st with
      | None => Threw (task_not_found id)
      | Some v => Returned v
      end
  end.

(** [invoke_on_task<T>] with the iterations finishing in shard order. *)
Definition invoke_on_task (tm : sharded_task_manager) (id : task_id)
  : outcome T :=
  invoke_on_task_scheduled (all_shards tm) 0 id.

(** A schedule of the fan-out over [tm]: every shard once, in any order. *)
Definition schedule_of (tm : sharded_task_manager)
    (completion : list (nat * task_manager)) : Prop :=
  completion ≡ₚ all_shards tm.

(** The entries whose index holds [id], with the task each one holds. *)
Definition holders_in (entries : list (nat * task_manager)) (id : task_id)
  : list (nat * task_ptr) :=
  omap (λ entry : nat * task_manager,
          (λ t, (entry.1, t)) <$> get_all_tasks entry.2 !! id)
       entries.

(** The shards of [tm] whose index holds [id]. *)
Definition holders (tm : sharded_task_manager) (id : task_id)
  : list (nat * task_ptr) :=
  holders_in (all_shards tm) id.

(** The holders on which the callback completes. *)
Definition completed_on (tm : sharded_task_manager) (id : task_id)
  : list (nat * task_ptr) :=
  filter (λ h, is_ready (func h.1 h.2)) (holders tm id).

(** The callback completes on two different shards that hold [id]. *)
Definition completes_on_two_shards (tm : sharded_task_manager)
    (id : task_id) : Prop :=
  ∃ s1 t1 s2 t2, s1 ≠ s2
    ∧ holds tm id s1 t1 ∧ is_ready (func s1 t1)
    ∧ holds tm id s2 t2 ∧ is_ready (func s2 t2).

(** The callback completes on every shard that holds [id]. *)
Definition completes_on_all_holders (tm : sharded_task_manager)
    (id : task_id) : Prop :=
  ∀ shard t, holds tm id shard t → is_ready (func shard t).

(** The values, and the exceptions, the callback produces on a list of
    holders. *)
Definition ready_values (hs : list (nat * task_ptr)) : list T :=
  omap (λ h, match func h.1 h.2 with Ready v => Some v | Failed _ => None end)
       hs.

Definition failures (hs : list (nat * task_ptr)) : list exn :=
  omap (λ h, match func h.1 h.2 with
             | Ready _ => None
             | Failed e => Some (foreign_exception e)
             end)
       hs.

End invoke_on_task.

(** Modelled from the spec: [lookup_task_on_all_shards], whose body is in
    [task_manager.cc]. "On each shard, probe the all-tasks index; if found,
    return a shard-tagged handle", with the fan-out of [invoke_on_task]
    ("same fan-out"): the callback wraps the task found into a foreign
    pointer and cannot fail. *)
Definition lookup_task_on_all_shards_scheduled
    (completion : list (nat * task_manager)) (pick : nat) (tid : task_id)
  : outcome foreign_task_ptr :=
  invoke_on_task_scheduled (λ shard task, Ready (make_foreign shard task))
    completion pick tid.

Definition lookup_task_on_all_shards (tm : sharded_task_manager)
    (tid : task_id) : outcome foreign_task_ptr :=
  lookup_task_on_all_shards_scheduled (all_shards tm) 0 tid.

(** ** The world of the module operations *)

(** A shard: its task manager and the task objects allocated on it. *)
Record shard_t := mk_shard {
  local_tm : task_manager;
  heap : gmap task_ptr task
}.

(** All shards, and the source of random identifiers: [random_ids] lists
    what [task_id::create_random_id] delivers, [random_pos] counts the
    identifiers drawn so far. *)
Record world := mk_world {
  shards : list shard_t;
  random_ids : nat → task_id;
  random_pos : nat
}.

(** A computation on the world: it returns or throws, and leaves the world
    as it was at that point. *)
Definition M (A : Type) : Type := world → outcome A * world.

Definition ret {A} (v : A) : M A := λ w, (Returned v, w).

Definition throw {A} (e : exn) : M A := λ w, (Threw e, w).

Definition bind {A B} (c : M A) (k : A → M B) : M B :=
  λ w, match c w with
       | (Returned v, w') => k v w'
       | (Threw e, w') => (Threw e, w')
       end.

Notation "x <- c ;; k" := (bind c (λ x, k))
  (at level 100, c at next level, right associativity).

Definition get_shard (shard : nat) : M shard_t :=
  λ w, match shards w !! shard with
       | Some s => (Returned s, w)
       | None => (Threw (foreign_exception "no such shard"), w)
       end.

(** The world with the state of [shard] replaced. *)
Definition with_shard (shard : nat) (s : shard_t) (w : world) : world :=
  {| shards := <[shard := s]> (shards w);
     random_ids := random_ids w;
     random_pos := random_pos w |}.

Definition put_shard (shard : nat) (s : shard_t) : M unit :=
  λ w, (Returned tt, with_shard shard s w).

(** [sharded<task_manager>::invoke_on(shard, f)]: [f] runs on [shard], which
    has to be one of the shards. *)
Definition invoke_on {A} (shard : nat) (f : nat → M A) : M A :=
  _ <- get_shard shard ;; f shard.

(** Reading and writing a task object through its pointer, on its shard. *)
Definition get_task (shard : nat) (task : task_ptr) : M impl :=
  s <- get_shard shard ;;
  match heap s !! task with
  | Some t => ret t
  | None => throw (foreign_exception "dangling task pointer")
  end.

Definition put_task (shard : nat) (task : task_ptr) (t : impl) : M unit :=
  s <- get_shard shard ;;
  put_shard shard {| local_tm := local_tm s; heap := <[task := t]> (heap s) |}.

(** A new task object on [shard]: [make_lw_shared<task>]. *)
Definition new_task (shard : nat) (t : impl) : M task_ptr :=
  s <- get_shard shard ;;
  let task := fresh (dom (heap s)) in
  _ <- put_task shard task t ;;
  ret task.

Definition get_module (shard : nat) (module : module_ptr) : M module_t :=
  s <- get_shard shard ;;
  match _modules (local_tm s) !! module with
  | Some m => ret m
  | None => throw (foreign_exception "module not found")
  end.

Definition put_module (shard : nat) (module : module_ptr) (m : module_t)
  : M unit :=
  s <- get_shard shard ;;
  put_shard shard
    {| local_tm := {| _all_tasks := _all_tasks (local_tm s);
                      _modules := <[module := m]> (_modules (local_tm s)) |};
       heap := heap s |}.

(** Modelled from the spec: [task_manager::find_module], whose body is in
    [task_manager.cc]. The task manager holds "modules (name→module)";
    the lookup of a name that is not registered on the shard fails. *)
Definition find_module (shard : nat) (module_name : string) : M module_ptr :=
  _ <- get_module shard module_name ;; ret module_name.

(** Modelled from the spec: [module::new_sequence_number], whose body is in
    [task_manager.cc]: "monotonically increasing per module per shard". The
    counter [_sequence_number] starts at 0; it is incremented and the new
    value returned. *)
Definition new_sequence_number (shard : nat) (module : module_ptr) : M Z :=
  m <- get_module shard module ;;
  let n := uint64_wrap (_sequence_number m + 1) in
  _ <- put_module shard module
         {| _name := _name m; _tasks := _tasks m; _sequence_number := n |} ;;
  ret n.

(** [task_id::create_random_id()]: the next identifier of the random
    source. *)
Definition create_random_id : M task_id :=
  λ w, (Returned (random_ids w (random_pos w)),
        {| shards := shards w;
           random_ids := random_ids w;
           random_pos := S (random_pos w) |}).

(** Modelled from the spec: the constructor of [task::impl], declared in the
    header as [impl(module, id, sequence_number, scope, keyspace, table,
    entity, parent_id)] with its body in [task_manager.cc]. Its parameters
    carry the names of the members of "Status: { id, state, ...,
    sequence_number, shard, scope, keyspace, table, entity, progress_units }"
    and of the task's "parent_id"; the other members keep their defaults,
    and [shard] is the shard the object is constructed on. *)
Definition impl_ctor (this_shard : nat) (module : module_ptr) (id : task_id)
    (sequence_number : Z) (scope keyspace table entity : string)
    (parent_id : task_id) : impl :=
  {| _status :=
       {| status.id := id;
          status.state := status.state status.default;
          status.start_time := status.start_time status.default;
          status.end_time := status.end_time status.default;
          status.error := status.error status.default;
          status.sequence_number := sequence_number;
          status.shard := this_shard;
          status.scope := scope;
          status.keyspace := keyspace;
          status.table := table;
          status.entity := entity;
          status.progress_units := status.progress_units status.default |};
     _parent_id := parent_id;
     _task_children := children.empty;
     _module := module;
     _as := false |}.

(** A task class [T] derived from [impl], for the [make_task] template: its
    constructor takes [(module, id, sequence_number, keyspace, table,
    entity, parent_id)] and hands them to the constructor of [impl] together
    with the scope of the class. *)
Record task_class := mk_task_class { class_scope : string }.

Definition construct (T : task_class) (this_shard : nat) (module : module_ptr)
    (id : task_id) (sequence_number : Z) (keyspace table entity : string)
    (parent_id : task_id) : impl :=
  impl_ctor this_shard module id sequence_number (class_scope T)
            keyspace table entity parent_id.

(** Modelled from the spec: [task::id()], "id()" of the task core, whose
    body is in [task_manager.cc]: the identifier in the task's status. *)
Definition task_id_of (shard : nat) (task : task_ptr) : M task_id :=
  t <- get_task shard task ;; ret (status.id (_status t)).

(** [task::get_sequence_number()]. *)
Definition get_sequence_number (shard : nat) (task : task_ptr) : M Z :=
  t <- get_task shard task ;; ret (status.sequence_number (_status t)).

(** ** Home-shard operations of a module *)

Definition set_children (c : children.t) (t : impl) : impl :=
  {| _status := _status t; _parent_id := _parent_id t; _task_children := c;
     _module := _module t; _as := _as t |}.

Definition set_status (st : status.t) (t : impl) : impl :=
  {| _status := st; _parent_id := _parent_id t;
     _task_children := _task_children t; _module := _module t;
     _as := _as t |}.

(** A task after [child] was inserted into its live children under [id]. *)
Definition with_child (id : task_id) (child : foreign_task_ptr) (p : impl)
  : impl :=
  set_children
    {| children._children :=
         <[id := child]> (children._children (_task_children p));
       children._finished_children :=
         children._finished_children (_task_children p) |}
    p.

(** Modelled from the spec: [children::add_child], whose body is in
    [task_manager.cc]: "acquires write lock, inserts into live. Fails if the
    identifier already present." The identifier is the child's, read on the
    shard the handle points to. *)
Definition add_child (parent_shard : nat) (parent : task_ptr)
    (child : foreign_task_ptr) : M unit :=
  id <- task_id_of (owner_shard child) (get child) ;;
  p <- get_task parent_shard parent ;;
  let c := _task_children p in
  match children._children c !! id with
  | Some _ => throw (foreign_exception "child already present")
  | None => put_task parent_shard parent (with_child id child p)
  end.

Definition already_registered_fmt : string := "task {} is already registered".

(** Modelled from the spec: [module::register_task], whose body is in
    [task_manager.cc]: "inserts into the module's map and into the shard's
    all-tasks index. Duplicate identifier is an internal error." The module
    is the one the task was constructed for. *)
Definition register_task (this_shard : nat) (task : task_ptr) : M unit :=
  t <- get_task this_shard task ;;
  let id := status.id (_status t) in
  m <- get_module this_shard (_module t) ;;
  s <- get_shard this_shard ;;
  match _tasks m !! id, _all_tasks (local_tm s) !! id with
  | None, None =>
      put_shard this_shard
        {| local_tm :=
             {| _all_tasks := <[id := task]> (_all_tasks (local_tm s));
                _modules :=
                  <[_module t :=
                      {| _name := _name m;
                         _tasks := <[id := task]> (_tasks m);
                         _sequence_number := _sequence_number m |}]>
                    (_modules (local_tm s)) |};
           heap := heap s |}
  | _, _ => throw (internal_error already_registered_fmt id)
  end.

(** What runs on the parent's shard when a child is made: the parent is
    looked up in the all-tasks index, gets the child, and hands out its
    sequence number. *)
Definition adopt (child : foreign_task_ptr) (parent_id : task_id)
    (parent_shard : nat) : M Z :=
  s <- get_shard parent_shard ;;
  match _all_tasks (local_tm s) !! parent_id with
  | None => throw (task_not_found parent_id)
  | Some parent =>
      _ <- add_child parent_shard parent child ;;
      get_sequence_number parent_shard parent
  end.

(** Modelled from the spec: [module::make_task(task_impl_ptr, parent_d)],
    whose body is in [task_manager.cc]. The header says of it: "Must be
    called on target shard. If task has a parent, data concerning its
    children is updated and sequence number is inherited from a parent and
    set. Otherwise, it must be set by caller." The specification:
    "home-shard constructor. If parent_info is non-empty, inherits sequence
    number from parent and adds the new task to the parent's Children
    collection (which may live on another shard) before returning. Registers
    in local maps. Does not start the task." *)
Definition module_make_task (this_shard : nat) (task_impl_ptr : impl)
    (parent_d : task_info) : M task_ptr :=
  task <- new_task this_shard task_impl_ptr ;;
  _ <- (if task_info_bool parent_d
        then
          n <- invoke_on (ti_shard parent_d)
                 (adopt (make_foreign this_shard task) (ti_id parent_d)) ;;
          t <- get_task this_shard task ;;
          put_task this_shard task
            (set_status (status.set_sequence_number n (_status t)) t)
        else ret tt) ;;
  _ <- register_task this_shard task ;;
  ret task.

(** ** The task factories of [module] *)

(** [module::make_task<T>(shard, id, keyspace, table, entity, parent_d)],
    called on the module named [module]: on [shard], the module of that name
    is looked up, the implementation is constructed, and the home-shard
    [make_task] makes the task, whose identifier is returned. The two
    constructor arguments that have effects, the random identifier and the
    new sequence number, touch different parts of the world, so the order in
    which C++ evaluates them does not matter; the identifier comes first
    here. *)
Definition make_task (T : task_class) (module : string) (shard : nat)
    (id : task_id) (keyspace table entity : string) (parent_d : task_info)
  : M task_id :=
  invoke_on shard (λ this_shard,
    module_ptr <- find_module this_shard module ;;
    id' <- (if task_id_bool id then ret id else create_random_id) ;;
    sequence_number <-
      (if task_info_bool parent_d
       then ret 0
       else new_sequence_number this_shard module_ptr) ;;
    let task_impl_ptr :=
      construct T this_shard module_ptr id' sequence_number
                keyspace table entity (ti_id parent_d) in
    task <- module_make_task this_shard task_impl_ptr parent_d ;;
    task_id_of this_shard task).

Section make_and_start_task.

(** The arguments of the constructor of [TaskImpl] after the module, and the
    constructor itself. *)
Context {Args : Type}.
Variable TaskImpl : nat → module_ptr → Args → impl.

(** The home-shard [make_task] and [task::start], both with their bodies in
    [task_manager.cc]. *)
Variable home_make_task : nat → impl → task_info → M task_ptr.
Variable start : nat → task_ptr → M unit.

(** [module::make_and_start_task<TaskImpl>(parent_info, args...)], called on
    the module [module] of shard [this_shard]. *)
Definition make_and_start_task (this_shard : nat) (module : module_ptr)
    (parent_info : task_info) (args : Args) : M task_ptr :=
  let task_impl_ptr := TaskImpl this_shard module args in
  task <- home_make_task this_shard task_impl_ptr parent_info ;;
  _ <- start this_shard task ;;
  ret task.

(** The composition the specification describes: [make_task] with the same
    arguments, then [start] on the task it returned. *)
Definition make_task_then_start (this_shard : nat) (module : module_ptr)
    (parent_info : task_info) (args : Args) (w : world)
  : outcome task_ptr * world :=
  match home_make_task this_shard (TaskImpl this_shard module args)
          parent_info w with
  | (Threw e, w1) => (Threw e, w1)
  | (Returned task, w1) =>
      match start this_shard task w1 with
      | (Threw e, w2) => (Threw e, w2)
      | (Returned _, w2) => (Returned task, w2)
      end
  end.

End make_and_start_task.

(** ** Observations on the world *)

(** The task registered under [id] in the all-tasks index of [shard]. *)
Definition task_at (w : world) (shard : nat) (id : task_id) : option impl :=
  s ← shards w !! shard;
  task ← _all_tasks (local_tm s) !! id;
  heap s !! task.

(** The module registered under [name] on [shard]. *)
Definition module_at (w : world) (shard : nat) (name : string)
  : option module_t :=
  s ← shards w !! shard;
  _modules (local_tm s) !! name.

(** [id] can be registered for [module] on [shard]: the shard and the module
    exist, and neither the module's map nor the all-tasks index of the shard
    has the identifier. *)
Definition can_register (w : world) (shard : nat) (module : string)
    (id : task_id) : Prop :=
  ∃ s m, shards w !! shard = Some s
         ∧ _modules (local_tm s) !! module = Some m
         ∧ _tasks m !! id = None
         ∧ _all_tasks (local_tm s) !! id = None.

(** The parent [parent_d] is registered on its shard, as task [p], and has no
    live child [id] yet. *)
Definition can_adopt (w : world) (parent_d : task_info) (id : task_id)
    (p : impl) : Prop :=
  task_at w (ti_shard parent_d) (ti_id parent_d) = Some p
  ∧ children._children (_task_children p) !! id = None.

(** The identifier the [make_task] template constructs the implementation
    with. *)
Definition constructed_id (w : world) (id : task_id) : task_id :=
  if task_id_bool id then id else random_ids w (random_pos w).

(** The reading "[sequence_number] is assigned at Running entry": a task
    registered on [shard] that is still in state [created] has the sequence
    number of a default-constructed status. *)
Definition sequence_number_assigned_at_running_entry (w : world)
    (shard : nat) (id : task_id) : Prop :=
  ∀ t, task_at w shard id = Some t →
       status.state (_status t) = created →
       status.sequence_number (_status t)
       = status.sequence_number status.default.

(** The pointer [task] is registered under [id] in the all-tasks index of
    [shard] and points to the task object [t]. *)
Definition registered (w : world) (shard : nat) (id : task_id)
    (task : task_ptr) (t : impl) : Prop :=
  ∃ s, shards w !! shard = Some s
       ∧ _all_tasks (local_tm s) !! id = Some task
       ∧ heap s !! task = Some t.

(** The world after the identifier was chosen. *)
Definition after_id (id : task_id) (w : world) : world :=
  if task_id_bool id then w
  else {| shards := shards w; random_ids := random_ids w;
          random_pos := S (random_pos w) |}.

(** ** Sample data *)

(** Two shards: identifier 7 is in the index of both, identifier 9 only in
    that of shard 1, identifier 5 in none. *)
Definition sample_shard0 : task_manager :=
  {| _all_tasks := {[ 7%N := 0%nat ]}; _modules := ∅ |}.

Definition sample_shard1 : task_manager :=
  {| _all_tasks := <[ 9%N := 4%nat ]> {[ 7%N := 3%nat ]}; _modules := ∅ |}.

Definition sample_tm : list task_manager := [sample_shard0; sample_shard1].

(** Shard 1 answers before shard 0. *)
Definition sample_completion : list (nat * task_manager) :=
  [(1%nat, sample_shard1); (0%nat, sample_shard0)].

(** A callback that fails on shard 0 and returns the task's address
    elsewhere. *)
Definition sample_func (shard : nat) (t : task_ptr) : callback_future nat :=
  match shard with
  | O => Failed "boom"
  | S _ => Ready t
  end.

(** A callback that finds no task of its own and fails with
    [task_not_found], whatever the task it is given. *)
Definition sample_func_not_found (shard : nat) (t : task_ptr)
  : callback_future nat :=
  Failed (task_not_found 9%N).

Definition sample_class : task_class := {| class_scope := "keyspace" |}.

(** Task 100 of module "repair" on shard 0, with sequence number 42. *)
Definition sample_parent : impl :=
  impl_ctor 0 "repair" 100%N 42 "keyspace" "ks" "" "" task_id_null.

(** Two shards, each with a module "repair": on shard 0 its counter is at 42
    and it has task 100; on shard 1 its counter is at 7 and it has no
    task. The random source delivers 1000, 1001, ... *)
Definition sample_world : world :=
  {| shards :=
       [ {| local_tm :=
              {| _all_tasks := {[ 100%N := 0%nat ]};
                 _modules :=
                   {[ "repair" := {| _name := "repair";
                                     _tasks := {[ 100%N := 0%nat ]};
                                     _sequence_number := 42 |} ]} |};
            heap := {[ 0%nat := sample_parent ]} |};
         {| local_tm :=
              {| _all_tasks := ∅;
                 _modules :=
                   {[ "repair" := {| _name := "repair";
                                     _tasks := ∅;
                                     _sequence_number := 7 |} ]} |};
            heap := ∅ |} ];
     random_ids := λ n, (1000 + N.of_nat n)%N;
     random_pos := 0 |}.

Definition sample_parent_info : task_info :=
  {| ti_id := 100%N; ti_shard := 0%nat |}.

(** An implementation its caller constructed with sequence number 99. *)
Definition sample_impl : impl :=
  impl_ctor 1 "repair" 55%N 99 "keyspace" "ks" "tb" "" task_id_null.

(** A task class for [make_and_start_task]: its constructor takes the
    identifier and the sequence number. *)
Definition sample_TaskImpl (this_shard : nat) (module : module_ptr)
    (args : task_id * Z) : impl :=
  impl_ctor this_shard module args.1 args.2 "keyspace" "ks" "tb" ""
            task_id_null.

Definition sample_children : children.t :=
  {| children._children :=
       <[ 3%N := make_foreign 1 0 ]> {[ 2%N := make_foreign 0 5 ]};
     children._finished_children :=
       [ mk_task_essentials status.default progress.default 1%N "a" true [];
         mk_task_essentials status.default progress.default 1%N "b" false [] ]
  |}.

(** * api/raft.cc: the handlers of the Raft REST API *)

(** The exceptions of the handlers: the three the code and [std::stoll]
    throw, and whatever comes out of a collaborator. *)
Inductive std_exn :=
  | invalid_argument (what : string)
  | out_of_range (what : string)
  | runtime_error (what : string)
  | other_exception (what : string).

Inductive result (A : Type) :=
  | Ok (v : A)
  | Err (e : std_exn).

Arguments Ok {A} v.
Arguments Err {A} e.

Definition succeeded {A} (r : result A) : bool :=
  match r with Ok _ => true | Err _ => false end.

(** [long long]. *)
Definition LLONG_MIN : Z := - 2 ^ 63.
Definition LLONG_MAX : Z := 2 ^ 63 - 1.

(** [isspace] in the C locale: space, and [\t \n \v \f \r]. *)
Definition isspace (c : ascii) : bool :=
  let n := N_of_ascii c in
  ((n =? 32) || ((9 <=? n) && (n <=? 13)))%N.

(** The value of a decimal digit. *)
Definition digit_value (c : ascii) : option Z :=
  let n := Z.of_N (N_of_ascii c) in
  if (48 <=? n) && (n <=? 57) then Some (n - 48) else None.

Fixpoint skip_space (s : string) : string :=
  match s with
  | String c s' => if isspace c then skip_space s' else s
  | EmptyString => s
  end.

(** The value of the longest prefix of digits, after [acc]. *)
Fixpoint scan_digits (acc : Z) (s : string) : Z :=
  match s with
  | String c s' =>
      match digit_value c with
      | Some d => scan_digits (10 * acc + d) s'
      | None => acc
      end
  | EmptyString => acc
  end.

Definition starts_with_digit (s : string) : bool :=
  match s with
  | String c _ => bool_decide (is_Some (digit_value c))
  | EmptyString => false
  end.

(** [strtoll(s, &end, 10)] without the limits of [long long]: white space is
    skipped, a sign is optional, the digits that follow are the number and
    whatever comes after them is left alone; [None] when there is no digit
    to convert. *)
Definition strtoll (s : string) : option Z :=
  let s1 := skip_space s in
  let '(negative, s2) :=
    match s1 with
    | String c r =>
        if Ascii.eqb c "-" then (true, r)
        else if Ascii.eqb c "+" then (false, r)
        else (false, s1)
    | EmptyString => (false, s1)
    end in
  if starts_with_digit s2
  then Some (if negative then - scan_digits 0 s2 else scan_digits 0 s2)
  else None.

(** [std::stoll(str)]: [std::invalid_argument] when nothing was converted,
    [std::out_of_range] when the number does not fit [long long]. *)
Definition stoll (str : string) : result Z :=
  match strtoll str with
  | None => Err (invalid_argument "stoll")
  | Some v =>
      if (LLONG_MIN <=? v) && (v <=? LLONG_MAX)
      then Ok v
      else Err (out_of_range "stoll")
  end.

Definition timeout_not_positive : string :=
  "Timeout must be a positive number.".

(** The lambda that computes [timeout_dur] in the [trigger_snapshot]
    handler, in seconds. *)
Definition timeout_dur (timeout_str : string) : result Z :=
  if bool_decide (timeout_str = "") then Ok 60
  else
    match stoll timeout_str with
    | Err e => Err e
    | Ok dur =>
        if dur <=? 0
        then Err (runtime_error timeout_not_positive)
        else Ok dur
    end.

(** The part of [http::request] the handlers read. *)
Record request := mk_request {
  path_parameters : gmap string string;
  query_parameters : gmap string string
}.

(** [request::get_query_param]: the empty string when the parameter is not
    there. *)
Definition get_query_param (req : request) (name : string) : string :=
  default "" (query_parameters req !! name).

(** The exception [parallel_for_each] and [invoke_on_all] fail with, out of
    those of the iterations that failed. *)
Definition pick_one {A} (pick : nat) (l : list A) : option A :=
  l !! (pick `mod` length l)%nat.

Section trigger_snapshot.

(** Raft group identifiers, servers and the time points of [lowres_clock],
    and what the handler takes from its collaborators: the conversion of the
    path parameter into a group id; the text of a group id; the time point
    [lowres_clock::now() + timeout_dur] as it is computed on a shard, in
    the arithmetic of the clock; and [raft::server::trigger_snapshot] under
    an abort source that expires at such a time point, which returns whether
    a snapshot was created or throws. *)
Context {group_id : Type} `{Countable group_id} {server time_point : Type}.
Variable parse_group_id : request → result group_id.
Variable format_group_id : group_id → string.
Variable expiry : nat → Z → time_point.
Variable trigger_snapshot : nat → server → time_point → result bool.

(** [raft_group_registry::find_server] on each shard. *)
Abbreviation registry := (gmap group_id server) (only parsing).

Definition server_not_found (gid : group_id) : string :=
  "Server for group ID " +:+ format_group_id gid +:+ " not found".

(** What the lambdas on the shards leave behind: [found_srv], the exceptions
    of those that failed, and the snapshots asked for, each with its shard,
    server and deadline. *)
Record snapshot_state := mk_snapshot_state {
  found_srv : bool;
  snapshot_failed : list std_exn;
  snapshot_triggered : list (nat * server * time_point)
}.

Definition snapshot_start : snapshot_state :=
  {| found_srv := false; snapshot_failed := []; snapshot_triggered := [] |}.

(** The lambda [invoke_on_all] runs on a shard. *)
Definition snapshot_on_shard (gid : group_id) (timeout_dur : Z)
    (st : snapshot_state) (entry : nat * registry) : snapshot_state :=
  match entry.2 !! gid with
  | None => st
  | Some srv =>
      let deadline := expiry entry.1 timeout_dur in
      let triggered := snapshot_triggered st ++ [(entry.1, srv, deadline)] in
      match trigger_snapshot entry.1 srv deadline with
      | Ok _ =>
          {| found_srv := true; snapshot_failed := snapshot_failed st;
             snapshot_triggered := triggered |}
      | Err e =>
          {| found_srv := true;
             snapshot_failed := snapshot_failed st ++ [e];
             snapshot_triggered := triggered |}
      end
  end.

(** The handler of [trigger_snapshot]: its result ([json_void] or an
    exception) and the snapshots it asked for. The shards run in the order
    [completion]. *)
Definition trigger_snapshot_handler (completion : list (nat * registry))
    (pick : nat) (req : request)
  : result unit * list (nat * server * time_point) :=
  match parse_group_id req with
  | Err e => (Err e, [])
  | Ok gid =>
      match timeout_dur (get_query_param req "timeout") with
      | Err e => (Err e, [])
      | Ok timeout =>
          let st := foldl (snapshot_on_shard gid timeout) snapshot_start
                          completion in
          match pick_one pick (snapshot_failed st) with
          | Some e => (Err e, snapshot_triggered st)
          | None =>
              if found_srv st
              then (Ok tt, snapshot_triggered st)
              else (Err (runtime_error (server_not_found gid)),
                    snapshot_triggered st)
          end
      end
  end.

(** [sharded<raft_group_registry>]: every shard once, in any order. *)
Definition registry_schedule (raft_gr : list registry)
    (completion : list (nat * registry)) : Prop :=
  completion ≡ₚ imap (λ shard r, (shard, r)) raft_gr.

End trigger_snapshot.

(** Decimal digits as text. *)
Definition digit_char (d : nat) : ascii := ascii_of_nat (48 + d).

Fixpoint digits_string (ds : list nat) : string :=
  match ds with
  | [] => EmptyString
  | d :: ds' => String (digit_char d) (digits_string ds')
  end.

(** The number a list of digits denotes, most significant first. *)
Definition digits_number (ds : list nat) : Z :=
  foldl (λ acc d, 10 * acc + Z.of_nat d) 0 ds.

(** A string of white space only. *)
Fixpoint all_space (s : string) : bool :=
  match s with
  | String c s' => isspace c && all_space s'
  | EmptyString => true
  end.

(** The sign in front of a number. *)
Inductive sign := no_sign | plus_sign | minus_sign.

Definition sign_string (sg : sign) : string :=
  match sg with no_sign => "" | plus_sign => "+" | minus_sign => "-" end.

Definition signed (sg : sign) (n : Z) : Z :=
  match sg with minus_sign => - n | _ => n end.

Definition is_sign (c : ascii) : bool :=
  Ascii.eqb c "-" || Ascii.eqb c "+".

(** A string that [strtoll] cannot begin a number with, after the white
    space and the sign [sg] were read. *)
Definition no_number (sg : sign) (s : string) : bool :=
  match s with
  | EmptyString => true
  | String c _ =>
      match sg with
      | no_sign =>
          negb (isspace c) && negb (is_sign c)
          && negb (bool_decide (is_Some (digit_value c)))
      | _ => negb (bool_decide (is_Some (digit_value c)))
      end
  end.

Section served.

Context {group_id : Type} `{Countable group_id} {server time_point : Type}.

(** The shards, out of [entries], that have a server for the group, each
    with its server. *)
Definition served (gid : group_id)
    (entries : list (nat * gmap group_id server)) : list (nat * server) :=
  omap (λ entry, (λ srv, (entry.1, srv)) <$> entry.2 !! gid) entries.

(** Shard [shard] of [raft_gr] has the server [srv] for the group. *)
Definition serves (raft_gr : list (gmap group_id server)) (gid : group_id)
    (shard : nat) (srv : server) : Prop :=
  ∃ reg, raft_gr !! shard = Some reg ∧ reg !! gid = Some srv.

(** The snapshot asked of a serving shard under a timeout, and the exception
    of the request when it fails. *)
Definition request_of (expiry : nat → Z → time_point) (timeout : Z)
    (s : nat * server) : nat * server * time_point :=
  (s.1, s.2, expiry s.1 timeout).

Definition failure_of (expiry : nat → Z → time_point)
    (trigger_snapshot : nat → server → time_point → result bool)
    (timeout : Z) (s : nat * server) : option std_exn :=
  match trigger_snapshot s.1 s.2 (expiry s.1 timeout) with
  | Ok _ => None
  | Err e => Some e
  end.

End served.

(** Three shards; group 1 has a server on shards 0 and 2, group 2 on shard 2
    only. *)
Definition sample_raft_gr : list (gmap nat nat) :=
  [ {[ 1%nat := 10%nat ]}; ∅; <[ 2%nat := 20%nat ]> {[ 1%nat := 12%nat ]} ].

Definition sample_raft_completion : list (nat * gmap nat nat) :=
  [ (1%nat, ∅);
    (0%nat, {[ 1%nat := 10%nat ]});
    (2%nat, <[ 2%nat := 20%nat ]> {[ 1%nat := 12%nat ]}) ].

Definition sample_request : request :=
  {| path_parameters := {[ "group_id" := "1" ]};
     query_parameters := {[ "timeout" := "30" ]} |}.

Definition sample_parse_group_id (req : request) : result nat :=
  match path_parameters req !! "group_id" with
  | Some "1" => Ok 1%nat
  | Some "2" => Ok 2%nat
  | _ => Err (other_exception "marshaling error")
  end.

(** A clock that counts seconds, without a limit, and reads 1000 and the
    shard number. *)
Definition sample_expiry (shard : nat) (timeout_dur : Z) : Z :=
  1000 + Z.of_nat shard + timeout_dur.

(** Snapshots succeed everywhere; on shard 2 there is nothing new to
    snapshot. *)
Definition sample_trigger (shard srv : nat) (deadline : Z) : result bool :=
  Ok (bool_decide (shard ≠ 2%nat)).

(** * test/perf/tablet_load_balancing.cc: the simulation of tablet
      load balancing *)

(** [size_t] arithmetic wraps around. *)
Definition size_t_modulus : N := 2 ^ 64.
Definition size_t_wrap (n : N) : N := (n mod size_t_modulus)%N.

(** ** The tablet metadata, as far as this file reads and writes it *)

(** [table_id] and [host_id] are tagged UUIDs. *)
Abbreviation table_id := N (only parsing).

(** [locator::tablet_replica]: a host and a shard of it. *)
Record tablet_replica := mk_tablet_replica {
  replica_host : N;
  replica_shard : nat
}.

(** [locator::tablet_info]: the replicas of a tablet. *)
Record tablet_info := mk_tablet_info { replicas : list tablet_replica }.

Module resize_decision.

(** The kind of a resize decision. *)
Inductive way_type := none | split | merge.

(** [locator::resize_decision]: the kind, which [apply_resize_plan] copies,
    and the sequence number, which it counts up. *)
Record t := mk { way : way_type; sequence_number : Z }.

(** The sequence number is a signed 64-bit integer. Past the largest one,
    [+ 1] is undefined in the source; the model wraps around, as the machine
    does. *)
Definition seq_number_max : Z := 2 ^ 63 - 1.
Definition seq_number_wrap (z : Z) : Z := (z + 2 ^ 63) mod 2 ^ 64 - 2 ^ 63.

End resize_decision.

(** [locator::tablet_map], as far as this file uses it: the tablets, by
    [tablet_id], and the resize decision. *)
Record tablet_map := mk_tablet_map {
  tablets : list tablet_info;
  resize_decision_of : resize_decision.t
}.

(** [tablet_map::tablet_count()]. *)
Definition tablet_count (tmap : tablet_map) : N := N.of_nat (length (tablets tmap)).

(** [tablet_map::set_resize_decision]. *)
Definition set_resize_decision (d : resize_decision.t) (tmap : tablet_map)
  : tablet_map :=
  {| tablets := tablets tmap; resize_decision_of := d |}.

(** [locator::tablet_metadata]: the tablet map of each table. *)
Abbreviation tablet_metadata := (gmap table_id tablet_map) (only parsing).

(** [tablet_metadata::get_tablet_map], of locator/tablets.hh: the map of a
    table. Asking for a table that has no map is taken to throw; the
    theorems on [apply_resize_plan] and [apply_plan] are about plans whose
    tables have maps. *)
Definition get_tablet_map (tm : tablet_metadata) (table : table_id)
  : result tablet_map :=
  match tm !! table with
  | Some tmap => Ok tmap
  | None => Err (other_exception "no such tablet map")
  end.

(** [tablet_map::get_tablet_info]: the tablet of an id. An id out of range
    is taken to throw, here and in [set_tablet]; the theorems on
    [apply_plan] are about migrations of tablets the table has. *)
Definition get_tablet_info (tmap : tablet_map) (tablet : nat)
  : result tablet_info :=
  match tablets tmap !! tablet with
  | Some tinfo => Ok tinfo
  | None => Err (other_exception "invalid tablet id")
  end.

(** [tablet_map::set_tablet]. *)
Definition set_tablet (tablet : nat) (tinfo : tablet_info) (tmap : tablet_map)
  : result tablet_map :=
  if decide (tablet < length (tablets tmap))%nat
  then Ok {| tablets := <[tablet := tinfo]> (tablets tmap);
             resize_decision_of := resize_decision_of tmap |}
  else Err (other_exception "invalid tablet id").

(** [locator::global_tablet_id] and [service::tablet_migration_info]. *)
Record global_tablet_id := mk_global_tablet_id {
  table : table_id;
  tablet : nat
}.

Record tablet_migration_info := mk_tablet_migration_info {
  migration_tablet : global_tablet_id;
  src : tablet_replica;
  dst : tablet_replica
}.

(** [service::table_resize_plan] and [service::migration_plan]: the two
    containers of the resize plan are given by what the loops of
    [apply_resize_plan] visit, in that order. *)
Record table_resize_plan := mk_table_resize_plan {
  resize : list (table_id * resize_decision.t);
  finalize_resize : list table_id
}.

Record migration_plan := mk_migration_plan {
  migrations : list tablet_migration_info;
  resize_plan : table_resize_plan
}.

(** ** [get_tablet_count] *)

(** The inner [std::accumulate] over the tablets of a table. *)
Definition accumulate_replicas (tmap : tablet_map) : N :=
  foldl (λ accumulator info,
           size_t_wrap (accumulator + N.of_nat (length (replicas info))))
        0%N (tablets tmap).

(** The loop over [tm.all_tables()], in the order [tables]. *)
Definition get_tablet_count_over (tables : list (table_id * tablet_map)) : N :=
  foldl (λ count entry, size_t_wrap (count + accumulate_replicas entry.2))
        0%N tables.

(** [get_tablet_count(tm)]; the tables come in the order of [map_to_list]. *)
Definition get_tablet_count (tm : tablet_metadata) : N :=
  get_tablet_count_over (map_to_list tm).

(** The number of replicas of all tablets of all tables. *)
Definition total_replicas (tm : tablet_metadata) : N :=
  N.of_nat
    (sum_list ((λ entry : table_id * tablet_map,
                  sum_list ((λ info, length (replicas info))
                              <$> tablets entry.2))
                 <$> map_to_list tm)).

(** ** [apply_resize_plan] and [apply_plan] *)

Section apply_plan.

(** [locator::replace_replica] and the constructor [tablet_map(count)], both
    of [locator/tablets.hh]. *)
Variable replace_replica :
  list tablet_replica → tablet_replica → tablet_replica → list tablet_replica.
Variable new_tablet_map : N → tablet_map.

(** The body of the first loop of [apply_resize_plan]. *)
Definition apply_resize (tm : tablet_metadata)
    (entry : table_id * resize_decision.t) : result tablet_metadata :=
  match get_tablet_map tm entry.1 with
  | Err e => Err e
  | Ok tmap =>
      let resize_decision :=
        {| resize_decision.way := resize_decision.way entry.2;
           resize_decision.sequence_number :=
             resize_decision.seq_number_wrap
               (resize_decision.sequence_number (resize_decision_of tmap)
                + 1) |} in
      Ok (<[entry.1 := set_resize_decision resize_decision tmap]> tm)
  end.

(** The body of the second loop. *)
Definition apply_finalize_resize (tm : tablet_metadata) (table_id : table_id)
  : result tablet_metadata :=
  match get_tablet_map tm table_id with
  | Err e => Err e
  | Ok old_tmap =>
      let tmap := new_tablet_map (size_t_wrap (tablet_count old_tmap * 2)) in
      Ok (<[table_id := tmap]> tm)
  end.

(** A loop whose body can throw. *)
Fixpoint for_each {A S} (body : S → A → result S) (s : S) (l : list A)
  : result S :=
  match l with
  | [] => Ok s
  | x :: l' =>
      match body s x with
      | Err e => Err e
      | Ok s' => for_each body s' l'
      end
  end.

(** [apply_resize_plan(tm, plan)] on [tm.tablets()]. *)
Definition apply_resize_plan (tm : tablet_metadata) (plan : migration_plan)
  : result tablet_metadata :=
  match for_each apply_resize tm (resize (resize_plan plan)) with
  | Err e => Err e
  | Ok tm' =>
      for_each apply_finalize_resize tm' (finalize_resize (resize_plan plan))
  end.

(** The body of the loop of [apply_plan]. *)
Definition apply_migration (tm : tablet_metadata) (mig : tablet_migration_info)
  : result tablet_metadata :=
  match get_tablet_map tm (table (migration_tablet mig)) with
  | Err e => Err e
  | Ok tmap =>
      match get_tablet_info tmap (tablet (migration_tablet mig)) with
      | Err e => Err e
      | Ok tinfo =>
          let tinfo :=
            {| replicas := replace_replica (replicas tinfo) (src mig)
                                           (dst mig) |} in
          match set_tablet (tablet (migration_tablet mig)) tinfo tmap with
          | Err e => Err e
          | Ok tmap' => Ok (<[table (migration_tablet mig) := tmap']> tm)
          end
      end
  end.

(** [apply_plan(tm, plan)] on [tm.tablets()]. *)
Definition apply_plan (tm : tablet_metadata) (plan : migration_plan)
  : result tablet_metadata :=
  match for_each apply_migration tm (migrations plan) with
  | Err e => Err e
  | Ok tm' => apply_resize_plan tm' plan
  end.

(** ** [rebalance_tablets] *)

(** The tablet allocator with its state, the part of the token metadata that
    is not the tablet metadata, and the load statistics and the skip list,
    which are passed on as they are. *)
Context {allocator topology load_stats skiplist : Type}.

Record token_metadata := mk_token_metadata {
  tm_tablets : tablet_metadata;
  tm_topology : topology
}.

(** [tablet_allocator::balance_tablets], with the allocator it leaves, and
    [migration_plan::empty]. *)
Variable balance_tablets :
  allocator → token_metadata → load_stats → skiplist
  → result (migration_plan * allocator).
Variable plan_empty : migration_plan → bool.

Definition convergence_not_reached : string :=
  "rebalance_tablets(): convergence not reached within limit".

(** [1 + get_tablet_count(stm.get()->tablets()) * 10], in [size_t]. *)
Definition max_iterations (tm : token_metadata) : N :=
  size_t_wrap (1 + size_t_wrap (get_tablet_count (tm_tablets tm) * 10)).

(** The lambda of [rebalance_tablets]: [apply_plan(tm, plan)] on a token
    metadata, of which it touches [tm.tablets()] only. *)
Definition apply_plan_to (plan : migration_plan) (tm : token_metadata)
  : result token_metadata :=
  match apply_plan (tm_tablets tm) plan with
  | Err e => Err e
  | Ok tablets' =>
      Ok {| tm_tablets := tablets'; tm_topology := tm_topology tm |}
  end.

(** [shared_token_metadata::mutate_token_metadata] is not in these sources:
    it is taken to run [func] on the token metadata and, when [func]
    returns, to share what [func] made of it, as it is. *)
Definition mutate_token_metadata
    (func : token_metadata → result token_metadata) (stm : token_metadata)
  : result token_metadata :=
  func stm.

(** The loop of [rebalance_tablets] with [fuel] iterations left, on the
    allocator and on the token metadata that [stm] holds: what they are when
    the function returns, or the exception. *)
Fixpoint rebalance_loop (fuel : nat) (load : load_stats) (skip : skiplist)
    (talloc : allocator) (tm : token_metadata)
  : result (allocator * token_metadata) :=
  match fuel with
  | O => Err (runtime_error convergence_not_reached)
  | S fuel' =>
      match balance_tablets talloc tm load skip with
      | Err e => Err e
      | Ok (plan, talloc') =>
          if plan_empty plan then Ok (talloc', tm)
          else
            match mutate_token_metadata (apply_plan_to plan) tm with
            | Err e => Err e
            | Ok tm' => rebalance_loop fuel' load skip talloc' tm'
            end
      end
  end.

(** [rebalance_tablets(talloc, stm, load_stats, skiplist)]. *)
Definition rebalance_tablets (talloc : allocator) (stm : token_metadata)
    (load : load_stats) (skip : skiplist)
  : result (allocator * token_metadata) :=
  rebalance_loop (N.to_nat (max_iterations stm)) load skip talloc stm.

End apply_plan.

(** The number of replicas of each tablet of a table. *)
Definition replica_counts (tmap : tablet_map) : list nat :=
  (λ info, length (replicas info)) <$> tablets tmap.

(** The shape of the bodies of both loops of [apply_resize_plan]: the map of
    the table [key x] is looked up and replaced. *)
Definition keyed_update {A} (key : A → table_id)
    (upd : A → tablet_map → tablet_map) (tm : tablet_metadata) (x : A)
  : result tablet_metadata :=
  match get_tablet_map tm (key x) with
  | Err e => Err e
  | Ok tmap => Ok (<[key x := upd x tmap]> tm)
  end.

(** The resize decision that [apply_resize_plan] sets for the decision [d]
    of a plan. *)
Definition with_decision (d : resize_decision.t) (tmap : tablet_map)
  : tablet_map :=
  set_resize_decision
    {| resize_decision.way := resize_decision.way d;
       resize_decision.sequence_number :=
         resize_decision.seq_number_wrap
           (resize_decision.sequence_number (resize_decision_of tmap) + 1) |}
    tmap.

(** The map that [apply_resize_plan] sets for a table whose resize is
    finalized. *)
Definition doubled (new_tablet_map : N → tablet_map) (tmap : tablet_map)
  : tablet_map :=
  new_tablet_map (size_t_wrap (tablet_count tmap * 2)).

(** No table comes twice in either container of the resize plan. *)
Definition resize_plan_distinct (rp : table_resize_plan) : Prop :=
  NoDup (resize rp).*1 ∧ NoDup (finalize_resize rp).

(** The tables the resize plan names all have a map. *)
Definition resize_plan_covered (tm : tablet_metadata) (rp : table_resize_plan)
  : Prop :=
  (∀ table, table ∈ (resize rp).*1 → is_Some (tm !! table))
  ∧ (∀ table, table ∈ finalize_resize rp → is_Some (tm !! table)).

(** The migration names a tablet that [tm] has. *)
Definition migration_valid (tm : tablet_metadata)
    (mig : tablet_migration_info) : Prop :=
  ∃ tmap, tm !! table (migration_tablet mig) = Some tmap
          ∧ (tablet (migration_tablet mig) < length (tablets tmap))%nat.

(** A plan that [apply_plan] carries out without adding or removing a
    tablet: it migrates tablets that exist and it decides on resizes of
    tables that exist, but finalizes none. *)
Definition plan_moves_only (tm : tablet_metadata) (plan : migration_plan)
  : Prop :=
  Forall (migration_valid tm) (migrations plan)
  ∧ (∀ table, table ∈ (resize (resize_plan plan)).*1 → is_Some (tm !! table))
  ∧ finalize_resize (resize_plan plan) = [].

(** ** A small cluster to run the simulation on *)

Definition sample_replica (host : N) (shard : nat) : tablet_replica :=
  {| replica_host := host; replica_shard := shard |}.

Definition same_replica (r1 r2 : tablet_replica) : bool :=
  (replica_host r1 =? replica_host r2)%N
  && (replica_shard r1 =? replica_shard r2)%nat.

(** Table 1 has two tablets, table 2 has one. *)
Definition sample_tablets : tablet_metadata :=
  <[ 2%N := {| tablets := [ {| replicas := [sample_replica 2 0] |} ];
               resize_decision_of := resize_decision.mk resize_decision.split 4 |} ]>
  {[ 1%N := {| tablets := [ {| replicas := [sample_replica 1 0;
                                            sample_replica 2 0] |};
                            {| replicas := [sample_replica 1 1] |} ];
               resize_decision_of := resize_decision.mk resize_decision.none 0 |} ]}.

Definition sample_replace_replica (rs : list tablet_replica)
    (old_replica new_replica : tablet_replica) : list tablet_replica :=
  (λ r, if same_replica r old_replica then new_replica else r) <$> rs.

Definition sample_new_tablet_map (count : N) : tablet_map :=
  {| tablets := replicate (N.to_nat count) {| replicas := [] |};
     resize_decision_of := resize_decision.mk resize_decision.none 0 |}.

(** The move of tablet 0 of table 1 from host 1 to host 3. *)
Definition sample_migration : tablet_migration_info :=
  {| migration_tablet := {| table := 1%N; tablet := 0%nat |};
     src := sample_replica 1 0;
     dst := sample_replica 3 0 |}.

(** A plan that moves a tablet of table 1, splits table 1 and finalizes the
    resize of table 2. *)
Definition sample_plan : migration_plan :=
  {| migrations := [sample_migration];
     resize_plan :=
       {| resize := [(1%N, resize_decision.mk resize_decision.split 9)];
          finalize_resize := [2%N] |} |}.

(** The same plan without the finalization. *)
Definition sample_moves_plan : migration_plan :=
  {| migrations := [sample_migration];
     resize_plan :=
       {| resize := [(1%N, resize_decision.mk resize_decision.split 9)];
          finalize_resize := [] |} |}.

Definition sample_stm : @token_metadata unit :=
  {| tm_tablets := sample_tablets; tm_topology := tt |}.

(** An allocator that counts its calls and moves tablet 0 of table 1 off
    host 1 as long as it is there. *)
Definition sample_balance_tablets (talloc : nat) (tm : @token_metadata unit)
    (load skip : unit) : result (migration_plan * nat) :=
  let on_host_1 :=
    match tm_tablets tm !! 1%N with
    | Some tmap =>
        match tablets tmap with
        | info :: _ => existsb (same_replica (sample_replica 1 0)) (replicas info)
        | [] => false
        end
    | None => false
    end in
  Ok ({| migrations := if on_host_1 then [sample_migration] else [];
         resize_plan := {| resize := []; finalize_resize := [] |} |},
      S talloc).

Definition sample_plan_empty (plan : migration_plan) : bool :=
  match migrations plan, resize (resize_plan plan),
        finalize_resize (resize_plan plan) with
  | [], [], [] => true
  | _, _, _ => false
  end.

(** [sample_stm] after the move. *)
Definition sample_rebalanced_stm : @token_metadata unit :=
  {| tm_tablets :=
       <[ 1%N := {| tablets := [ {| replicas := [sample_replica 3 0;
                                                 sample_replica 2 0] |};
                                 {| replicas := [sample_replica 1 1] |} ];
                    resize_decision_of :=
                      resize_decision.mk resize_decision.none 0 |} ]>
       sample_tablets;
     tm_topology := tt |}.

(** ** [run_simulations]: the parameters of a run *)

(** [int], and the conversions between [int] and [size_t]. *)
Definition int_wrap (z : Z) : Z := (z + 2 ^ 31) mod 2 ^ 32 - 2 ^ 31.
Definition size_t_of_int (z : Z) : N := Z.to_N (z mod 2 ^ 64).
Definition int_of_size_t (n : N) : Z := int_wrap (Z.of_N n).

(** [std::bit_ceil<size_t>]: the smallest power of two that is not smaller
    than [x], which must be representable. *)
Definition bit_ceil (x : N) : N := (2 ^ N.log2_up x)%N.

Module params.

(** [struct params]. *)
Record t := mk {
  iterations : Z;
  nodes : Z;
  tablets1 : option Z;
  tablets2 : option Z;
  rf1 : Z;
  rf2 : Z;
  shards : Z;
  scale1 : Z;
  scale2 : Z
}.

End params.

Section run_simulations.

(** [div_ceil] of utils/div_ceil.hh. *)
Variable div_ceil : Z → Z → Z.

(** [std::bit_ceil<size_t>(div_ceil(shards * nodes, rf) * scale)], stored
    in a [std::optional<int>]. *)
Definition tablets_of (shards nodes rf scale : Z) : Z :=
  int_of_size_t
    (bit_ceil
       (size_t_of_int
          (int_wrap (div_ceil (int_wrap (shards * nodes)) rf * scale)))).

(** The parameters of one run of [run_simulations], from the configured
    number of iterations and the six numbers drawn with
    [tests::random::get_int], in the order of the draws. *)
Definition simulation_params (iterations : Z)
    (shards_draw rf1 rf2 scale1_draw scale2_draw nodes : Z) : params.t :=
  let shards := int_wrap (Z.shiftl 1 shards_draw) in
  let scale1 := int_wrap (Z.shiftl 1 scale1_draw) in
  let scale2 := int_wrap (Z.shiftl 1 scale2_draw) in
  {| params.iterations := iterations;
     params.nodes := nodes;
     params.tablets1 := Some (tablets_of shards nodes rf1 scale1);
     params.tablets2 := Some (tablets_of shards nodes rf2 scale2);
     params.rf1 := rf1;
     params.rf2 := rf2;
     params.shards := shards;
     params.scale1 := scale1;
     params.scale2 := scale2 |}.

End run_simulations.

(** The quotient rounded up, which is what [div_ceil] is for. *)
Definition rounded_up_quotient (a b : Z) : Z := (a + b - 1) / b.

(** The draws are in the ranges that [run_simulations] asks for. *)
Definition draws_in_range (shards_draw rf1 rf2 scale1_draw scale2_draw
                           nodes : Z) : Prop :=
  0 ≤ shards_draw ≤ 6 ∧ 1 ≤ rf1 ≤ 3 ∧ 1 ≤ rf2 ≤ 3
  ∧ 0 ≤ scale1_draw ≤ 3 ∧ 0 ≤ scale2_draw ≤ 3 ∧ 3 ≤ nodes ≤ 6.

(** A tablet count that [run_simulations] may choose for a table with
    replication factor [rf] and scale [scale] on [nodes] nodes of [shards]
    shards: a power of two of at most 4096 tablets whose replicas make
    at least [scale] and less than twice [scale] per shard on average. *)
Definition tablet_count_fits (tablets rf scale nodes shards : Z) : Prop :=
  tablets = 2 ^ Z.log2 tablets
  ∧ 1 ≤ tablets ≤ 4096
  ∧ scale * (nodes * shards) ≤ tablets * rf < 2 * scale * (nodes * shards).

(** ** [test_load_balancing_with_many_tables] *)

(** [struct table_balance] and [struct cluster_balance], whose array
    [tables] has [nr_tables = 2] elements. *)
Record table_balance := mk_table_balance {
  shard_overcommit : float;
  node_overcommit : float
}.

Record cluster_balance := mk_cluster_balance {
  tables_0 : table_balance;
  tables_1 : table_balance
}.

Module results.

(** [struct results]. *)
Record t := mk {
  init : cluster_balance;
  worst : cluster_balance;
  last : cluster_balance
}.

End results.

(** [std::max] on [double]: the second argument when the first is smaller,
    else the first. *)
Definition std_max (a b : float) : float := if (a <? b)%float then b else a.

(** The loop at the end of [check_balance]: the worst balance so far. *)
Definition worse_table (w t : table_balance) : table_balance :=
  {| shard_overcommit := std_max (shard_overcommit w) (shard_overcommit t);
     node_overcommit := std_max (node_overcommit w) (node_overcommit t) |}.

Definition worse (w res : cluster_balance) : cluster_balance :=
  {| tables_0 := worse_table (tables_0 w) (tables_0 res);
     tables_1 := worse_table (tables_1 w) (tables_1 res) |}.

(** Exceptions are passed on. *)
Definition and_then {A B} (r : result A) (k : A → result B) : result B :=
  match r with
  | Ok v => k v
  | Err e => Err e
  end.

(** An index past the end of a vector, which is undefined in the source. *)
Definition past_the_end : std_exn := other_exception "index past the end".

Definition at_index {A} (l : list A) (i : nat) : result A :=
  match l !! i with
  | Some x => Ok x
  | None => Err past_the_end
  end.

(** [v.erase(v.begin() + i)]. *)
Definition erase {A} (i : nat) (l : list A) : result (list A) :=
  if decide (i < length l)%nat then Ok (delete i l) else Err past_the_end.

Section many_tables.

(** Host identifiers, addresses, and the test environment with the shared
    token metadata once it is made. *)
Context {host_id inet_address env : Type} `{EqDecision host_id}.

(** What the simulation takes from its collaborators, each of which may
    throw: the random identifiers of the hosts, in the order [add_host]
    draws them; the address
    [inet_address(format("192.168.0.{}", n))]; the [shared_token_metadata]
    made for a first address and host; [update_host_id] with
    [update_topology] for a new node; [update_topology] to the state
    [being_decommissioned]; [remove_endpoint]; [rebalance_tablets] on the
    allocator of the environment; the creation and allocation of the two
    tables; [set_use_table_aware_balancing]; the measurement that
    [check_balance] takes; and the text of a host identifier. *)
Variable make_random_uuid : nat → host_id.
Variable make_address : Z → result inet_address.
Variable make_stm : inet_address → host_id → env → result env.
Variable update_topology : host_id → inet_address → env → result env.
Variable being_decommissioned : host_id → env → result env.
Variable remove_endpoint : host_id → env → result env.
Variable rebalance : env → result env.
Variable allocate_tables : params.t → env → result env.
Variable set_use_table_aware_balancing : bool → env → result env.
Variable measure : list host_id → env → result cluster_balance.
Variable format_host : host_id → string.

(** The vectors [hosts] and [ips], the counter [host_seq], and the number of
    identifiers drawn so far. *)
Record host_lists := mk_host_lists {
  hosts : list host_id;
  ips : list inet_address;
  host_seq : Z;
  drawn : nat
}.

(** The lambda [add_host]. *)
Definition add_host (c : host_lists) : result host_lists :=
  let host := make_random_uuid (drawn c) in
  and_then (make_address (host_seq c)) (λ ip,
  Ok {| hosts := hosts c ++ [host];
        ips := ips c ++ [ip];
        host_seq := int_wrap (host_seq c + 1);
        drawn := S (drawn c) |}).

(** The lambda [add_host_to_topology]. *)
Definition add_host_to_topology (c : host_lists) (tm : env) (i : nat)
  : result env :=
  and_then (at_index (hosts c) i) (λ host,
  and_then (at_index (ips c) i) (λ ip,
  update_topology host ip tm)).

(** The lambda [bootstrap]. *)
Definition bootstrap (st : host_lists * env) : result (host_lists * env) :=
  and_then (add_host st.1) (λ c,
  and_then (add_host_to_topology c st.2 (length (hosts c) - 1)) (λ tm,
  Ok (c, tm))).

Definition no_such_host (host : host_id) : string :=
  "No such host: " +:+ format_host host.

(** [std::distance(hosts.begin(), std::find(hosts.begin(), hosts.end(),
    host))]. *)
Definition find_host (host : host_id) (l : list host_id) : nat :=
  match list_find (λ h, h = host) l with
  | Some found => found.1
  | None => length l
  end.

(** The lambda [decommission]. *)
Definition decommission (host : host_id) (st : host_lists * env)
  : result (host_lists * env) :=
  let c := st.1 in
  let i := find_host host (hosts c) in
  if decide (i = length (hosts c))
  then Err (runtime_error (no_such_host host))
  else
    and_then (at_index (hosts c) i) (λ host_i,
    and_then (being_decommissioned host_i st.2) (λ tm,
    and_then (rebalance tm) (λ tm,
    and_then (remove_endpoint host tm) (λ tm,
    and_then (erase i (hosts c)) (λ hosts',
    and_then (erase i (ips c)) (λ ips',
    Ok ({| hosts := hosts'; ips := ips'; host_seq := host_seq c;
           drawn := drawn c |}, tm))))))).

(** The lambda [check_balance]: the balance it returns, and
    [global_res]. *)
Definition check_balance (c : host_lists) (tm : env) (global_res : results.t)
  : result (cluster_balance * results.t) :=
  and_then (measure (hosts c) tm) (λ res,
  Ok (res, {| results.init := results.init global_res;
              results.worst := worse (results.worst global_res) res;
              results.last := results.last global_res |})).

(** The body of the loop over the cycles. *)
Definition cycle (st : host_lists * env * results.t) (i : nat)
  : result (host_lists * env * results.t) :=
  let '(c, tm, global_res) := st in
  and_then (bootstrap (c, tm)) (λ '(c, tm),
  and_then (rebalance tm) (λ tm,
  and_then (check_balance c tm global_res) (λ '(_, global_res),
  and_then (at_index (hosts c) 0) (λ host_0,
  and_then (decommission host_0 (c, tm)) (λ '(c, tm),
  and_then (check_balance c tm global_res) (λ '(res, global_res),
  Ok (c, tm, {| results.init := results.init global_res;
                results.worst := results.worst global_res;
                results.last := res |}))))))).

(** [test_load_balancing_with_many_tables(p, tablet_aware)] in the
    environment [e]: the results it returns, with the host lists and the
    environment it leaves. [global_res] is what the variable of that name
    holds at first; the source does not initialize it. *)
Definition test_load_balancing_with_many_tables (p : params.t)
    (tablet_aware : bool) (global_res : results.t) (e : env)
  : result (host_lists * env * results.t) :=
  let n_hosts := Z.to_nat (params.nodes p) in
  let cycles := Z.to_nat (params.iterations p) in
  and_then (for_each (λ c _, add_host c)
              {| hosts := []; ips := []; host_seq := 1; drawn := 0 |}
              (seq 0 n_hosts)) (λ c,
  and_then (at_index (ips c) 0) (λ ip_0,
  and_then (at_index (hosts c) 0) (λ host_0,
  and_then (make_stm ip_0 host_0 e) (λ tm,
  and_then (for_each (add_host_to_topology c) tm (seq 0 n_hosts)) (λ tm,
  and_then (allocate_tables p tm) (λ tm,
  and_then (set_use_table_aware_balancing tablet_aware tm) (λ tm,
  and_then (check_balance c tm global_res) (λ '(_, global_res),
  and_then (rebalance tm) (λ tm,
  and_then (check_balance c tm global_res) (λ '(res, global_res),
  for_each cycle
    (c, tm, {| results.init := res; results.worst := res;
               results.last := results.last global_res |})
    (seq 0 cycles))))))))))).

(** The hosts are those of the draws [k], ..., [k + n - 1], each with the
    address of its number, counted from 1. *)
Definition hosts_window (k n : nat) (c : host_lists) : Prop :=
  hosts c = make_random_uuid <$> seq k n
  ∧ Forall2 (λ ip j, make_address (Z.of_nat j + 1) = Ok ip) (ips c) (seq k n).

(** The invariant of the host lists: a window of the draws, with the
    counters that go with it. *)
Definition window (k n : nat) (c : host_lists) : Prop :=
  hosts_window k n c
  ∧ drawn c = (k + n)%nat
  ∧ host_seq c = Z.of_nat (k + n) + 1.

(** The exception [ex] is one that a collaborator throws: the construction
    of one of the first [addresses] addresses, the making of the token
    metadata in the environment [e], the allocation of the tables for [p],
    the setting of [tablet_aware], or one of the other calls on some
    argument. *)
Definition thrown_by_collaborator (addresses : Z) (p : params.t)
    (tablet_aware : bool) (e : env) (ex : std_exn) : Prop :=
  (∃ n, 1 ≤ n ≤ addresses ∧ make_address n = Err ex)
  ∨ (∃ ip host, make_stm ip host e = Err ex)
  ∨ (∃ host ip tm, update_topology host ip tm = Err ex)
  ∨ (∃ host tm, being_decommissioned host tm = Err ex)
  ∨ (∃ host tm, remove_endpoint host tm = Err ex)
  ∨ (∃ tm, rebalance tm = Err ex)
  ∨ (∃ tm, allocate_tables p tm = Err ex)
  ∨ (∃ tm, set_use_table_aware_balancing tablet_aware tm = Err ex)
  ∨ (∃ l tm, measure l tm = Err ex).

End many_tables.

(** ** A run of the simulation with collaborators that only count *)

(** The environment is the number of changes of the topology. *)
Definition sample_balance (x : float) : cluster_balance :=
  {| tables_0 := {| shard_overcommit := x; node_overcommit := x |};
     tables_1 := {| shard_overcommit := x; node_overcommit := x |} |}.

Definition sample_measure (hosts : list nat) (tm : nat)
  : result cluster_balance :=
  Ok (sample_balance (if decide (length hosts = 3%nat) then 1 else 1.5)).

Definition sample_global_res : results.t :=
  {| results.init := sample_balance 99;
     results.worst := sample_balance 99;
     results.last := sample_balance 99 |}.

Definition sample_params : params.t :=
  {| params.iterations := 2; params.nodes := 3;
     params.tablets1 := Some 4; params.tablets2 := Some 4;
     params.rf1 := 1; params.rf2 := 1; params.shards := 1;
     params.scale1 := 1; params.scale2 := 1 |}.

Definition sample_simulation (p : params.t) (global_res : results.t)
  : result (@host_lists nat Z * nat * results.t) :=
  test_load_balancing_with_many_tables
    (λ k, 100 + k)%nat (λ n, Ok n) (λ _ _ e, Ok e) (λ _ _ tm, Ok (S tm))
    (λ _ tm, Ok (S tm)) (λ _ tm, Ok (S tm)) (λ tm, Ok tm) (λ _ tm, Ok tm)
    (λ _ tm, Ok tm) sample_measure (λ _, "host") p true global_res 0%nat.

(** The same run when only the addresses 1 to 4 can be made. *)
Definition sample_address (n : Z) : result Z :=
  if decide (n ≤ 4) then Ok n else Err (invalid_argument "inet_address").

Definition sample_short_simulation
  : result (@host_lists nat Z * nat * results.t) :=
  test_load_balancing_with_many_tables
    (λ k, 100 + k)%nat sample_address (λ _ _ e, Ok e) (λ _ _ tm, Ok (S tm))
    (λ _ tm, Ok (S tm)) (λ _ tm, Ok (S tm)) (λ tm, Ok tm) (λ _ tm, Ok tm)
    (λ _ tm, Ok tm) sample_measure (λ _, "host") sample_params true
    sample_global_res 0%nat.

(** * Theorems *)

(** ** Value types *)

(** C8: [p + q] is the elementwise sum of [p] and [q] (in [double]
    arithmetic), and [p += q] leaves in [p] the value of [p + q]. *)
Theorem progress_add_elementwise (p q : progress.t) :
  progress.completed (progress.add p q)
    = (progress.completed p + progress.completed q)%float
  ∧ progress.total (progress.add p q)
    = (progress.total p + progress.total q)%float
  ∧ progress.add_assign p q = progress.add p q.
Proof. repeat split. Qed.

Example progress_add_sample :
  progress.add (progress.mk 1.5 4) (progress.mk 0.25 4) = progress.mk 1.75 8.
Proof. reflexivity. Qed.

(** C10: a default-constructed status is in state [created] with sequence
    number 0, shard 0 and empty strings; a default-constructed progress is
    0 of 0. *)
Theorem default_status_and_progress :
  status.state status.default = created
  ∧ status.sequence_number status.default = 0
  ∧ status.shard status.default = 0%nat
  ∧ status.error status.default = ""
  ∧ status.scope status.default = ""
  ∧ status.keyspace status.default = ""
  ∧ status.table status.default = ""
  ∧ status.entity status.default = ""
  ∧ status.progress_units status.default = ""
  ∧ progress.completed progress.default = 0%float
  ∧ progress.total progress.default = 0%float.
Proof. repeat split. Qed.

(** ** The children collection *)

Lemma copy_engaged_values {R} (l : list (option R)) :
  copy_range_transformed optional_value (filter (λ o, engaged o) l)
  = Returned (omap (λ o, o) l).
Proof.
  induction l as [|[r|] l IH]; [done| |].
  - rewrite filter_cons_True by done. cbn. by rewrite IH.
  - rewrite filter_cons_False by (cbn; auto). done.
Qed.

Lemma omap_fmap_id {A R} (f : A → option R) (l : list A) :
  omap (λ o, o) (f <$> l) = omap f l.
Proof. induction l as [|x l IH]; [done|]. cbn. by rewrite IH. Qed.

Lemma omap_length_engaged {A R} (f : A → option R) (l : list A) :
  length (omap f l) = length (filter (λ x, engaged (f x)) l).
Proof.
  induction l as [|x l IH]; [done|].
  rewrite filter_cons. cbn [omap list_omap].
  destruct (f x); cbn [engaged].
  - rewrite decide_True by done. cbn. by rewrite IH.
  - rewrite decide_False by auto. done.
Qed.

Lemma elem_of_map_values (c : children.t) child :
  child ∈ children.map_values c
  ↔ ∃ id, children._children c !! id = Some child.
Proof.
  unfold children.map_values. rewrite list_elem_of_fmap. split.
  - intros ([id child'] & -> & Hin%elem_of_map_to_list). by exists id.
  - intros (id & Hin). exists (id, child). by rewrite elem_of_map_to_list.
Qed.

(** C7: [map_each_task] does not throw and returns the values of the
    engaged outputs of [map_children] on the live children followed by those
    of [map_finished_children] on the finished children; the empty outputs
    are dropped. A value is in the result exactly when a mapper produces it
    on a child, and the result has as many elements as there are engaged
    outputs. *)
Theorem map_each_task_non_empty_outputs {Res}
    (map_children : foreign_task_ptr → option Res)
    (map_finished_children : task_essentials → option Res)
    (c : children.t) :
  children.map_each_task map_children map_finished_children c
  = Returned
      (children.non_empty_outputs map_children map_finished_children c)
  ∧ (∀ r, r ∈ children.non_empty_outputs map_children
                map_finished_children c
          ↔ (∃ id child, children._children c !! id = Some child
                         ∧ map_children child = Some r)
            ∨ (∃ e, e ∈ children._finished_children c
                    ∧ map_finished_children e = Some r))
  ∧ length (children.non_empty_outputs map_children map_finished_children c)
    = (length (filter (λ child, engaged (map_children child))
                 (children.map_values c))
       + length (filter (λ e, engaged (map_finished_children e))
                   (children._finished_children c)))%nat.
Proof.
  split_and!.
  - unfold children.map_each_task, children.non_empty_outputs.
    rewrite copy_engaged_values, omap_app. by rewrite !omap_fmap_id.
  - intros r. unfold children.non_empty_outputs.
    rewrite elem_of_app, !list_elem_of_omap. split.
    + intros [(child & Hin & Hr)|(e & Hin & Hr)].
      * apply elem_of_map_values in Hin as [id Hid]. left. by exists id, child.
      * right. by exists e.
    + intros [(id & child & Hid & Hr)|(e & Hin & Hr)].
      * left. exists child. split; [|done]. apply elem_of_map_values. eauto.
      * right. by exists e.
  - unfold children.non_empty_outputs.
    by rewrite length_app, !omap_length_engaged.
Qed.

Example map_each_task_sample :
  children.map_each_task
    (λ child, if decide (owner_shard child = 0%nat)
              then Some (get child) else None)
    (λ e, if abortable e then None else Some 9%nat)
    sample_children
  = Returned [5%nat; 9%nat].
Proof. reflexivity. Qed.

(** ** The fan-out of [invoke_on_task] *)

Section fan_out_facts.

Context {T : Type}.
Variable func : nat → task_ptr → callback_future T.
Variable id : task_id.

Local Abbreviation dup := (internal_error more_than_one_shard_fmt id).

Lemma holders_in_cons entry entries :
  holders_in (entry :: entries) id
  = match get_all_tasks entry.2 !! id with
    | Some t => (entry.1, t) :: holders_in entries id
    | None => holders_in entries id
    end.
Proof.
  unfold holders_in. cbn [omap list_omap].
  by destruct (get_all_tasks entry.2 !! id).
Qed.

Lemma fan_out_step_absent st entry :
  get_all_tasks entry.2 !! id = None →
  fan_out_step func id st entry = st.
Proof.
  intros Hnone. unfold fan_out_step, invoke_on_local. rewrite Hnone.
  by destruct st as [[r|] ex].
Qed.

Lemma fan_out_step_failed st entry t what :
  get_all_tasks entry.2 !! id = Some t →
  func entry.1 t = Failed what →
  fan_out_step func id st entry
  = mk_fan_out (res st) (raised st ++ [foreign_exception what]).
Proof.
  intros Hsome Hf. unfold fan_out_step, invoke_on_local.
  by rewrite Hsome, Hf.
Qed.

Lemma fan_out_step_ready st entry t v :
  get_all_tasks entry.2 !! id = Some t →
  func entry.1 t = Ready v →
  fan_out_step func id st entry
  = match res st with
    | None => mk_fan_out (Some v) (raised st)
    | Some _ => mk_fan_out (res st) (raised st ++ [dup])
    end.
Proof.
  intros Hsome Hf. unfold fan_out_step, invoke_on_local.
  rewrite Hsome, Hf. cbn. by destruct (res st).
Qed.

Lemma ready_values_cons h hs :
  ready_values func (h :: hs)
  = match func h.1 h.2 with
    | Ready v => v :: ready_values func hs
    | Failed _ => ready_values func hs
    end.
Proof. unfold ready_values. cbn. by destruct (func h.1 h.2). Qed.

Lemma failures_cons h hs :
  failures func (h :: hs)
  = match func h.1 h.2 with
    | Ready _ => failures func hs
    | Failed what => foreign_exception what :: failures func hs
    end.
Proof. unfold failures. cbn. by destruct (func h.1 h.2). Qed.

(** The state after a run of iterations, from any state. *)
Lemma foldl_fan_out_step entries : ∀ st,
  let hs := holders_in entries id in
  let st' := foldl (fan_out_step func id) st entries in
  res st' = match res st with
            | Some v => Some v
            | None => head (ready_values func hs)
            end
  ∧ ∀ e, e ∈ raised st'
         ↔ e ∈ raised st ∨ e ∈ failures func hs
           ∨ (e = dup
              ∧ (first_duplicate (res st) ≤ length (ready_values func hs))%nat).
Proof.
  induction entries as [|entry entries IH]; intros st; cbn zeta.
  - cbn. split; [by destruct (res st)|].
    intros e. split; [by left|].
    intros [H|[H|[_ H]]]; [done|by apply elem_of_nil in H|].
    unfold first_duplicate in H. destruct (res st); cbn in H; lia.
  - cbn [foldl]. rewrite holders_in_cons.
    destruct (get_all_tasks entry.2 !! id) as [t|] eqn:Hlook.
    + rewrite ready_values_cons, failures_cons. cbn [fst snd].
      destruct (func entry.1 t) as [v|what] eqn:Hf.
      * rewrite (fan_out_step_ready _ _ t v) by done.
        destruct (res st) as [r|] eqn:Hres.
        -- destruct (IH (mk_fan_out (Some r) (raised st ++ [dup])))
             as [-> IHraised].
           split; [done|]. intros e. rewrite IHraised. cbn.
           rewrite elem_of_app, list_elem_of_singleton. split.
           ++ intros [[H| ->]|[H|[-> H]]]; [by left|right; right|
                                            by right; left|right; right];
                (split; [done|lia]).
           ++ intros [H|[H|[-> H]]]; [by left; left|by right; left|].
              left. by right.
        -- destruct (IH (mk_fan_out (Some v) (raised st)))
             as [-> IHraised].
           split; [done|]. intros e. rewrite IHraised. cbn. split.
           ++ intros [H|[H|[-> H]]]; [by left|by right; left|].
              right; right. split; [done|lia].
           ++ intros [H|[H|[-> H]]]; [by left|by right; left|].
              right; right. split; [done|lia].
      * rewrite (fan_out_step_failed _ _ t what) by done.
        destruct (IH (mk_fan_out (res st) (raised st ++ [foreign_exception what])))
          as [-> IHraised].
        split; [done|]. intros e. rewrite IHraised. cbn.
        rewrite elem_of_app, list_elem_of_singleton, elem_of_cons. split.
        -- intros [[H| ->]|[H|H]]; [by left|by right; left; left|
                                    by right; left; right|by right; right].
        -- intros [H|[[->|H]|H]]; [by left; left|by left; right|
                                   by right; left|by right; right].
    + rewrite fan_out_step_absent by done. apply IH.
Qed.

End fan_out_facts.

Section invoke_on_task_facts.

Context {T : Type}.
Variable func : nat → task_ptr → callback_future T.
Variable id : task_id.

Local Abbreviation dup := (internal_error more_than_one_shard_fmt id).

Lemma fan_out_res completion :
  res (fan_out func id completion)
  = head (ready_values func (holders_in completion id)).
Proof. apply (foldl_fan_out_step func id completion fan_out_start). Qed.

Lemma fan_out_raised completion e :
  e ∈ raised (fan_out func id completion)
  ↔ e ∈ failures func (holders_in completion id)
    ∨ (e = dup
       ∧ (2 ≤ length (ready_values func (holders_in completion id)))%nat).
Proof.
  destruct (foldl_fan_out_step func id completion fan_out_start) as [_ H].
  unfold fan_out. rewrite H. cbn. split; [|by right].
  intros [Hnil|Hrest]; [by apply elem_of_nil in Hnil|done].
Qed.

Lemma rethrown_None pick (l : list exn) : rethrown pick l = None ↔ l = [].
Proof.
  unfold rethrown. destruct l as [|e l]; [done|].
  split; [|done]. intros Hnone%lookup_ge_None.
  pose proof (Nat.mod_upper_bound pick (length (e :: l))) as Hlt.
  cbn in *. lia.
Qed.

Lemma rethrown_Some pick (l : list exn) e : rethrown pick l = Some e → e ∈ l.
Proof. unfold rethrown. apply list_elem_of_lookup_2. Qed.

Lemma holders_in_schedule tm completion :
  schedule_of tm completion → holders_in completion id ≡ₚ holders tm id.
Proof. intros Hs. unfold holders, holders_in. by rewrite Hs. Qed.

Lemma elem_of_holders tm shard t :
  (shard, t) ∈ holders tm id ↔ holds tm id shard t.
Proof.
  unfold holders, holders_in, holds, all_shards.
  rewrite list_elem_of_omap. split.
  - intros ([s local_tm] & Hin & Heq).
    apply elem_of_lookup_imap in Hin as (i & y & [= -> ->] & Hi).
    cbn in Heq. destruct (get_all_tasks y !! id) eqn:E; simplify_eq/=. eauto.
  - intros (local_tm & Hi & Hl). exists (shard, local_tm). split.
    + by apply (elem_of_lookup_imap_2 (λ shard local_tm, (shard, local_tm))).
    + cbn. by rewrite Hl.
Qed.

Lemma holders_in_fst_sublist entries :
  (holders_in entries id).*1 `sublist_of` entries.*1.
Proof.
  induction entries as [|entry entries IH]; [done|].
  rewrite holders_in_cons. cbn.
  destruct (get_all_tasks entry.2 !! id); cbn.
  - by apply sublist_skip.
  - by apply sublist_cons.
Qed.

Lemma all_shards_fst (tm : list task_manager) :
  (all_shards tm).*1 = seq 0 (length tm).
Proof.
  unfold all_shards. rewrite fmap_imap.
  etrans; [apply (imap_seq_0 tm (λ j, j))|]. apply list_fmap_id.
Qed.

Lemma holders_NoDup tm : NoDup (holders tm id).*1.
Proof.
  eapply sublist_NoDup; [|apply holders_in_fst_sublist].
  rewrite all_shards_fst. apply NoDup_seq.
Qed.

Lemma ready_values_length hs :
  length (ready_values func hs)
  = length (filter (λ h, is_ready (func h.1 h.2)) hs).
Proof.
  induction hs as [|h hs IH]; [done|].
  rewrite ready_values_cons, filter_cons.
  destruct (func h.1 h.2); cbn; [|done].
  rewrite decide_True by done. cbn. by rewrite IH.
Qed.

Lemma ready_failures_length hs :
  (length (ready_values func hs) + length (failures func hs))%nat = length hs.
Proof.
  induction hs as [|h hs IH]; [done|].
  rewrite ready_values_cons, failures_cons.
  destruct (func h.1 h.2); cbn; lia.
Qed.

Lemma failures_foreign hs e :
  e ∈ failures func hs → ∃ what, e = foreign_exception what.
Proof.
  unfold failures. rewrite list_elem_of_omap. intros (h & _ & Heq).
  destruct (func h.1 h.2); simplify_eq. eauto.
Qed.

Lemma elem_of_failures hs e :
  e ∈ failures func hs
  → ∃ h e', h ∈ hs ∧ func h.1 h.2 = Failed e' ∧ e = foreign_exception e'.
Proof.
  unfold failures. rewrite list_elem_of_omap. intros (h & Hin & Heq).
  destruct (func h.1 h.2) as [v|e'] eqn:Hf; simplify_eq. by exists h, e'.
Qed.

Lemma failures_nil hs :
  failures func hs = [] ↔ ∀ h, h ∈ hs → is_ready (func h.1 h.2).
Proof.
  induction hs as [|h hs IH].
  - split; [|done]. intros _ h Hin. by apply elem_of_nil in Hin.
  - rewrite failures_cons. destruct (func h.1 h.2) eqn:Hf.
    + rewrite IH. split.
      * intros Hall h' [->|Hin]%elem_of_cons; [by rewrite Hf|by apply Hall].
      * intros Hall h' Hin. apply Hall. by right.
    + split; [done|]. intros Hall. specialize (Hall h).
      rewrite Hf in Hall. exfalso. apply Hall. by left.
Qed.

End invoke_on_task_facts.

Section holders_facts.

Variable id : task_id.

Lemma two_elements {A} (l : list A) x y :
  x ∈ l → y ∈ l → x ≠ y → (2 ≤ length l)%nat.
Proof.
  intros Hx Hy Hne. destruct l as [|a [|b l]]; cbn; [| |lia].
  - by apply elem_of_nil in Hx.
  - apply list_elem_of_singleton in Hx. apply list_elem_of_singleton in Hy.
    destruct Hne. by subst.
Qed.

Lemma two_shards (l : list (nat * task_ptr)) :
  NoDup l.*1 → (2 ≤ length l)%nat →
  ∃ s1 t1 s2 t2, s1 ≠ s2 ∧ (s1, t1) ∈ l ∧ (s2, t2) ∈ l.
Proof.
  intros Hnd Hlen. destruct l as [|[s1 t1] [|[s2 t2] l]]; cbn in *; try lia.
  exists s1, t1, s2, t2. split_and!; [|by left|by right; left].
  apply NoDup_cons in Hnd as [Hnotin _]. intros ->. apply Hnotin. by left.
Qed.

Lemma holders_two tm s1 t1 s2 t2 :
  s1 ≠ s2 → holds tm id s1 t1 → holds tm id s2 t2 →
  (2 ≤ length (holders tm id))%nat.
Proof.
  intros Hne H1%elem_of_holders H2%elem_of_holders.
  apply (two_elements _ (s1, t1) (s2, t2)); [done..|]. by intros [=].
Qed.

Lemma holders_at_most_one tm :
  (∀ s1 t1 s2 t2, holds tm id s1 t1 → holds tm id s2 t2 → s1 = s2) →
  (length (holders tm id) ≤ 1)%nat.
Proof.
  intros Huniq. destruct (decide (2 ≤ length (holders tm id))%nat) as [Hlen|]; [|lia].
  destruct (two_shards _ (holders_NoDup id tm) Hlen)
    as (s1 & t1 & s2 & t2 & Hne & H1%elem_of_holders & H2%elem_of_holders).
  destruct Hne. eauto.
Qed.

Lemma holders_nil tm :
  holders tm id = [] ↔ absent_everywhere tm id.
Proof.
  unfold absent_everywhere. split.
  - intros Hnil shard local_tm Hs.
    destruct (get_all_tasks local_tm !! id) as [t|] eqn:Hl; [|done].
    assert ((shard, t) ∈ holders tm id) as Hin
      by (apply elem_of_holders; by exists local_tm).
    rewrite Hnil in Hin. by apply elem_of_nil in Hin.
  - intros Habs. destruct (holders tm id) as [|[s t] l] eqn:E; [done|].
    assert ((s, t) ∈ holders tm id) as (local_tm & Hs & Hl)%elem_of_holders
      by (rewrite E; left).
    rewrite (Habs _ _ Hs) in Hl. done.
Qed.

Lemma holders_singleton tm shard t :
  holds tm id shard t →
  (∀ shard' t', holds tm id shard' t' → shard' = shard) →
  holders tm id = [(shard, t)].
Proof.
  intros Hholds Huniq.
  assert (length (holders tm id) ≤ 1)%nat as Hlen.
  { apply holders_at_most_one. intros s1 t1 s2 t2 H1 H2.
    by rewrite (Huniq _ _ H1), (Huniq _ _ H2). }
  apply elem_of_holders in Hholds.
  destruct (holders tm id) as [|h [|h' l]]; cbn in Hlen; [| |lia].
  - by apply elem_of_nil in Hholds.
  - apply list_elem_of_singleton in Hholds. by subst.
Qed.

End holders_facts.

Section uniqueness_facts.

Context {T : Type}.
Variable func : nat → task_ptr → callback_future T.
Variable id : task_id.

Lemma completed_on_length tm :
  length (completed_on func tm id)
  = length (ready_values func (holders tm id)).
Proof. unfold completed_on. by rewrite ready_values_length. Qed.

Lemma completed_on_two tm :
  (2 ≤ length (completed_on func tm id))%nat
  ↔ ∃ s1 t1 s2 t2, s1 ≠ s2
      ∧ holds tm id s1 t1 ∧ is_ready (func s1 t1)
      ∧ holds tm id s2 t2 ∧ is_ready (func s2 t2).
Proof.
  split.
  - intros Hlen.
    assert (NoDup (completed_on func tm id).*1) as Hnd.
    { eapply sublist_NoDup; [apply holders_NoDup|].
      apply fmap_sublist, sublist_filter. }
    destruct (two_shards _ Hnd Hlen) as (s1 & t1 & s2 & t2 & Hne & H1 & H2).
    unfold completed_on in H1, H2.
    apply list_elem_of_filter in H1 as [Hr1 H1%elem_of_holders].
    apply list_elem_of_filter in H2 as [Hr2 H2%elem_of_holders].
    exists s1, t1, s2, t2. done.
  - intros (s1 & t1 & s2 & t2 & Hne & H1 & Hr1 & H2 & Hr2).
    eapply (two_elements _ (s1, t1) (s2, t2)); [..|by intros [=]];
      unfold completed_on; apply list_elem_of_filter;
      by rewrite elem_of_holders.
Qed.

Lemma ready_values_schedule tm completion :
  schedule_of tm completion →
  length (ready_values func (holders_in completion id))
  = length (completed_on func tm id).
Proof.
  intros Hs. rewrite completed_on_length. unfold ready_values.
  by rewrite (holders_in_schedule id tm completion Hs).
Qed.

Lemma failures_schedule tm completion e :
  schedule_of tm completion →
  e ∈ failures func (holders_in completion id)
  ↔ e ∈ failures func (holders tm id).
Proof.
  intros Hs. unfold failures.
  by rewrite (holders_in_schedule id tm completion Hs).
Qed.

(** The result of the call, by cases on what was raised. *)
Lemma invoke_on_task_scheduled_cases completion pick :
  (∃ e, e ∈ raised (fan_out func id completion)
        ∧ invoke_on_task_scheduled func completion pick id = Threw e)
  ∨ (raised (fan_out func id completion) = []
     ∧ invoke_on_task_scheduled func completion pick id
       = match res (fan_out func id completion) with
         | None => Threw (task_not_found id)
         | Some v => Returned v
         end).
Proof.
  unfold invoke_on_task_scheduled.
  destruct (rethrown pick (raised (fan_out func id completion))) as [e|] eqn:E.
  - left. exists e. split; [by eapply rethrown_Some|done].
  - right. by apply rethrown_None in E.
Qed.

End uniqueness_facts.

Section invoke_on_task_results.

Context {T : Type}.
Variable func : nat → task_ptr → callback_future T.
Variable id : task_id.
Variable tm : sharded_task_manager.
Variable completion : list (nat * task_manager).
Variable pick : nat.
Hypothesis Hschedule : schedule_of tm completion.

Local Abbreviation dup := (internal_error more_than_one_shard_fmt id).
Local Abbreviation call := (invoke_on_task_scheduled func completion pick id).
Local Abbreviation hs := (holders_in completion id).

Lemma holders_in_length : length hs = length (holders tm id).
Proof. by rewrite (holders_in_schedule id tm completion Hschedule). Qed.

Lemma call_absent : absent_everywhere tm id → call = Threw (task_not_found id).
Proof.
  intros Habs%holders_nil.
  assert (hs = []) as Hnil.
  { apply length_zero_iff_nil. by rewrite holders_in_length, Habs. }
  destruct (invoke_on_task_scheduled_cases func id completion pick)
    as [(e & He & _)|[_ ->]].
  - apply fan_out_raised in He. rewrite Hnil in He. cbn in He.
    destruct He as [He|[_ He]]; [by apply elem_of_nil in He|lia].
  - by rewrite fan_out_res, Hnil.
Qed.

Lemma call_not_found tid :
  call = Threw (task_not_found tid) → absent_everywhere tm id.
Proof.
  intros Hcall. apply holders_nil, length_zero_iff_nil.
  rewrite <-holders_in_length, <-(ready_failures_length func).
  destruct (invoke_on_task_scheduled_cases func id completion pick)
    as [(e & He & Hthrew)|[Hnil Hres]].
  - rewrite Hthrew in Hcall. simplify_eq.
    apply fan_out_raised in He as [(? & ?)%failures_foreign|[? _]]; done.
  - rewrite Hres in Hcall. rewrite fan_out_res in Hcall.
    destruct (ready_values func hs) as [|v vs] eqn:Hvs; [|done].
    destruct (failures func hs) as [|e es] eqn:Hfs; [done|].
    assert (e ∈ raised (fan_out func id completion)) as Hin.
    { apply fan_out_raised. left. rewrite Hfs. left. }
    rewrite Hnil in Hin. by apply elem_of_nil in Hin.
Qed.

Lemma call_caught_not_found e tid :
  call = Threw e → caught e = task_not_found tid →
  absent_everywhere tm id
  ∨ ∃ shard t e', holds tm id shard t ∧ func shard t = Failed e'
                  ∧ e = foreign_exception e'.
Proof.
  intros Hcall Hcaught.
  destruct (invoke_on_task_scheduled_cases func id completion pick)
    as [(e0 & He & Hthrew)|[Hnil Hres]].
  - rewrite Hthrew in Hcall. injection Hcall as ->.
    apply fan_out_raised in He as [He|[-> _]]; [|done].
    apply elem_of_failures in He as ([shard t] & e' & Hin & Hf & ->).
    right. exists shard, t, e'. split; [|done].
    apply elem_of_holders.
    by rewrite <-(holders_in_schedule id tm completion Hschedule).
  - left. apply (call_not_found id). rewrite Hcall. f_equal.
    rewrite Hres in Hcall.
    destruct (res (fan_out func id completion)); [done|].
    by injection Hcall as <-.
Qed.

Lemma call_unique shard t :
  holds tm id shard t →
  (∀ shard' t', holds tm id shard' t' → shard' = shard) →
  call = await (func shard t).
Proof.
  intros Hholds Huniq.
  assert (hs = [(shard, t)]) as Hhs.
  { apply Permutation_singleton_r.
    rewrite (holders_in_schedule id tm completion Hschedule).
    by rewrite (holders_singleton id tm shard t). }
  destruct (invoke_on_task_scheduled_cases func id completion pick)
    as [(e & He & ->)|[Hnil ->]].
  - apply fan_out_raised in He. rewrite Hhs in He.
    rewrite ready_values_cons, failures_cons in He. cbn in He.
    destruct (func shard t); cbn in He.
    + destruct He as [He|[_ He]]; [by apply elem_of_nil in He|lia].
    + destruct He as [He|[_ He]]; [|lia].
      apply list_elem_of_singleton in He. by subst.
  - rewrite fan_out_res, Hhs, ready_values_cons. cbn.
    destruct (func shard t) as [v|what] eqn:Hf; [done|].
    assert (foreign_exception what ∈ raised (fan_out func id completion)) as Hin.
    { apply fan_out_raised. left. rewrite Hhs, failures_cons. cbn.
      rewrite Hf. left. }
    rewrite Hnil in Hin. by apply elem_of_nil in Hin.
Qed.

Lemma duplicate_raises :
  on_more_than_one_shard tm id → raised (fan_out func id completion) ≠ [].
Proof.
  intros (s1 & t1 & s2 & t2 & Hne & H1 & H2) Hnil.
  pose proof (holders_two id tm s1 t1 s2 t2 Hne H1 H2) as Hlen.
  rewrite <-holders_in_length, <-(ready_failures_length func) in Hlen.
  destruct (failures func hs) as [|e es] eqn:Hfs.
  - assert (dup ∈ raised (fan_out func id completion)) as Hin.
    { apply fan_out_raised. right. split; [done|]. cbn in Hlen. lia. }
    rewrite Hnil in Hin. by apply elem_of_nil in Hin.
  - assert (e ∈ raised (fan_out func id completion)) as Hin.
    { apply fan_out_raised. left. rewrite Hfs. left. }
    rewrite Hnil in Hin. by apply elem_of_nil in Hin.
Qed.

Lemma call_duplicate_fails : on_more_than_one_shard tm id → ∃ e, call = Threw e.
Proof.
  intros Hmore%duplicate_raises.
  destruct (invoke_on_task_scheduled_cases func id completion pick)
    as [(e & _ & ->)|[Hnil _]]; [by eexists|done].
Qed.

Lemma internal_error_raised_iff :
  (∃ fmt tid, internal_error fmt tid ∈ raised (fan_out func id completion))
  ↔ completes_on_two_shards func tm id.
Proof.
  unfold completes_on_two_shards. rewrite <-completed_on_two.
  rewrite <-(ready_values_schedule func id tm completion Hschedule).
  split.
  - intros (fmt & tid & [(? & ?)%failures_foreign|[_ ?]]%fan_out_raised); done.
  - intros Hlen. exists more_than_one_shard_fmt, id.
    apply fan_out_raised. by right.
Qed.

Lemma call_duplicate_internal_error :
  on_more_than_one_shard tm id → completes_on_all_holders func tm id →
  call = Threw dup.
Proof.
  intros Hmore%duplicate_raises Hall.
  destruct (invoke_on_task_scheduled_cases func id completion pick)
    as [(e & Hin & ->)|[Hnil _]]; [|done].
  apply fan_out_raised in Hin as [Hin|[-> _]]; [|done].
  exfalso. assert (failures func hs = []) as Hnil.
  { apply failures_nil. intros [s t] Hh. apply Hall, elem_of_holders.
    by rewrite <-(holders_in_schedule id tm completion Hschedule). }
  rewrite Hnil in Hin. by apply elem_of_nil in Hin.
Qed.

Lemma call_unique_no_internal_error fmt tid :
  on_at_most_one_shard tm id →
  (internal_error fmt tid ∉ raised (fan_out func id completion))
  ∧ call ≠ Threw (internal_error fmt tid).
Proof.
  intros Huniq%holders_at_most_one.
  assert (internal_error fmt tid ∉ raised (fan_out func id completion)) as Hnot.
  { intros [(? & ?)%failures_foreign|[_ Hlen]]%fan_out_raised; [done|].
    pose proof (ready_failures_length func hs) as Hsum.
    rewrite holders_in_length in Hsum. lia. }
  split; [done|]. intros Hcall.
  destruct (invoke_on_task_scheduled_cases func id completion pick)
    as [(e & He & Hthrew)|[_ Hres]].
  - rewrite Hthrew in Hcall. by simplify_eq.
  - rewrite Hres in Hcall. by destruct (res (fan_out func id completion)).
Qed.

End invoke_on_task_results.

(** ** The results of [invoke_on_task] *)

(** The iterations finishing in shard order is one of the schedules. *)
Lemma invoke_on_task_in_order {T} (func : nat → task_ptr → callback_future T)
    (tm : sharded_task_manager) (id : task_id) :
  schedule_of tm (all_shards tm)
  ∧ invoke_on_task func tm id
    = invoke_on_task_scheduled func (all_shards tm) 0 id.
Proof. split; [unfold schedule_of|]; reflexivity. Qed.

Lemma sample_schedule : schedule_of sample_tm sample_completion.
Proof. apply perm_swap. Defined.

Lemma sample_absent : absent_everywhere sample_tm 5%N.
Proof. intros [|[|shard]] local_tm [= <-]; reflexivity. Defined.

Lemma sample_holds_9 : holds sample_tm 9%N 1 4.
Proof. exists sample_shard1. split; reflexivity. Defined.

Lemma sample_unique_9 shard t : holds sample_tm 9%N shard t → shard = 1%nat.
Proof.
  intros (local_tm & Hs & Hl). destruct shard as [|[|shard]]; [|done|done].
  injection Hs as <-. discriminate Hl.
Defined.

Lemma sample_duplicate_7 : on_more_than_one_shard sample_tm 7%N.
Proof.
  exists 0%nat, 0%nat, 1%nat, 3%nat. split; [discriminate|].
  split; [exists sample_shard0|exists sample_shard1]; split; reflexivity.
Defined.




(** C3: when exactly one shard has the id in its index, for task [t],
    [invoke_on_task] runs the callback on that shard with [t] and its result
    is the callback's: the value it returns, or the exception it fails
    with. *)
Theorem invoke_on_task_runs_func {T}
    (func : nat → task_ptr → callback_future T)
    (tm : sharded_task_manager) (completion : list (nat * task_manager))
    (pick : nat) (id : task_id) (shard : nat) (t : task_ptr) :
  schedule_of tm completion →
  holds tm id shard t →
  (∀ shard' t', holds tm id shard' t' → shard' = shard) →
  invoke_on_task_scheduled func completion pick id = await (func shard t).
Proof. intros Hs Hholds Huniq. by apply (call_unique _ id tm). Qed.

Lemma invoke_on_task_runs_func_witness :
  schedule_of sample_tm sample_completion
  ∧ holds sample_tm 9%N 1 4
  ∧ (∀ shard' t', holds sample_tm 9%N shard' t' → shard' = 1%nat)
  ∧ invoke_on_task_scheduled sample_func sample_completion 2 9%N
    = Returned 4%nat.
Proof.
  split; [exact sample_schedule|]. split; [exact sample_holds_9|].
  split; [exact sample_unique_9|].
  exact (invoke_on_task_runs_func sample_func sample_tm sample_completion 2
           9%N 1 4 sample_schedule sample_holds_9 sample_unique_9).
Defined.

(** C1, as the code has it: when the id is in the index of more than one
    shard the call never returns a value; [on_internal_error] is raised
    exactly when the callback completes on two of those shards, the call
    fails with it when the callback completes on all of them, and
    [lookup_task_on_all_shards] always does. When at most one shard has the
    id, the internal error is neither raised nor the result. *)
Theorem invoke_on_task_duplicate {T}
    (func : nat → task_ptr → callback_future T)
    (tm : sharded_task_manager) (completion : list (nat * task_manager))
    (pick : nat) (id : task_id) :
  schedule_of tm completion →
  (on_more_than_one_shard tm id →
     (∃ e, invoke_on_task_scheduled func completion pick id = Threw e)
     ∧ (completes_on_all_holders func tm id →
          invoke_on_task_scheduled func completion pick id
          = Threw (internal_error more_than_one_shard_fmt id))
     ∧ lookup_task_on_all_shards_scheduled completion pick id
       = Threw (internal_error more_than_one_shard_fmt id))
  ∧ ((∃ fmt tid,
        internal_error fmt tid ∈ raised (fan_out func id completion))
     ↔ completes_on_two_shards func tm id)
  ∧ (on_at_most_one_shard tm id →
     ∀ fmt tid,
       (internal_error fmt tid ∉ raised (fan_out func id completion))
       ∧ invoke_on_task_scheduled func completion pick id
         ≠ Threw (internal_error fmt tid)
       ∧ lookup_task_on_all_shards_scheduled completion pick id
         ≠ Threw (internal_error fmt tid)).
Proof.
  intros Hs. split_and!.
  - intros Hmore. split_and!.
    + by apply (call_duplicate_fails _ id tm).
    + by apply (call_duplicate_internal_error _ id tm).
    + by apply (call_duplicate_internal_error _ id tm).
  - by apply internal_error_raised_iff.
  - intros Huniq fmt tid. split_and!.
    + by apply (call_unique_no_internal_error _ id tm).
    + by apply (call_unique_no_internal_error _ id tm).
    + by apply (call_unique_no_internal_error _ id tm).
Qed.

Lemma invoke_on_task_duplicate_witness :
  schedule_of sample_tm sample_completion
  ∧ on_more_than_one_shard sample_tm 7%N
  ∧ lookup_task_on_all_shards_scheduled sample_completion 2 7%N
    = Threw (internal_error more_than_one_shard_fmt 7%N).
Proof.
  split; [exact sample_schedule|]. split; [exact sample_duplicate_7|].
  exact (proj2 (proj2 (proj1 (invoke_on_task_duplicate sample_func sample_tm
                                sample_completion 2 7%N sample_schedule)
                         sample_duplicate_7))).
Defined.

(** C1, as stated, fails: identifier 7 is in the index of both shards, the
    callback fails on shard 0 and completes on shard 1, and the call fails
    with the callback's exception; no internal error is raised. *)
Lemma invoke_on_task_duplicate_masked :
  on_more_than_one_shard sample_tm 7%N
  ∧ invoke_on_task sample_func sample_tm 7%N
    = Threw (foreign_exception "boom")
  ∧ invoke_on_task_scheduled sample_func sample_completion 0 7%N
    = Threw (foreign_exception "boom")
  ∧ raised (fan_out sample_func 7%N (all_shards sample_tm))
    = [foreign_exception "boom"]
  ∧ ¬ (∃ fmt tid, invoke_on_task sample_func sample_tm 7%N
                  = Threw (internal_error fmt tid)).
Proof.
  split; [exact sample_duplicate_7|].
  split; [reflexivity|]. split; [reflexivity|]. split; [reflexivity|].
  intros (fmt & tid & H). discriminate H.
Qed.

(** ** Running the operations of the world *)

Lemma bind_returned {A B} (c : M A) (k : A → M B) w v w' :
  c w = (Returned v, w') → bind c k w = k v w'.
Proof. intros H. unfold bind. by rewrite H. Qed.

Lemma bind_threw {A B} (c : M A) (k : A → M B) w e w' :
  c w = (Threw e, w') → bind c k w = (Threw e, w').
Proof. intros H. unfold bind. by rewrite H. Qed.

Lemma get_shard_returned w shard s :
  shards w !! shard = Some s → get_shard shard w = (Returned s, w).
Proof. intros H. unfold get_shard. by rewrite H. Qed.

Lemma shards_with_shard_eq w shard s s' :
  shards w !! shard = Some s →
  shards (with_shard shard s' w) !! shard = Some s'.
Proof.
  intros H. cbn. apply list_lookup_insert_eq. by eapply lookup_lt_Some.
Qed.

Lemma shards_with_shard_ne w shard shard' s' :
  shard ≠ shard' →
  shards (with_shard shard s' w) !! shard' = shards w !! shard'.
Proof. intros H. cbn. by apply list_lookup_insert_ne. Qed.

Lemma invoke_on_run {A} (f : nat → M A) w shard s :
  shards w !! shard = Some s → invoke_on shard f w = f shard w.
Proof.
  intros H. unfold invoke_on.
  by rewrite (bind_returned _ _ _ _ _ (get_shard_returned _ _ _ H)).
Qed.

Lemma get_task_returned w shard s task t :
  shards w !! shard = Some s → heap s !! task = Some t →
  get_task shard task w = (Returned t, w).
Proof.
  intros Hs Ht. unfold get_task.
  rewrite (bind_returned _ _ _ _ _ (get_shard_returned _ _ _ Hs)).
  by rewrite Ht.
Qed.

Lemma put_task_returned w shard s task t :
  shards w !! shard = Some s →
  put_task shard task t w
  = (Returned tt,
     with_shard shard
       {| local_tm := local_tm s; heap := <[task := t]> (heap s) |} w).
Proof.
  intros Hs. unfold put_task.
  by rewrite (bind_returned _ _ _ _ _ (get_shard_returned _ _ _ Hs)).
Qed.

Lemma get_module_returned w shard s module m :
  shards w !! shard = Some s → _modules (local_tm s) !! module = Some m →
  get_module shard module w = (Returned m, w).
Proof.
  intros Hs Hm. unfold get_module.
  rewrite (bind_returned _ _ _ _ _ (get_shard_returned _ _ _ Hs)).
  by rewrite Hm.
Qed.

Lemma find_module_returned w shard s module m :
  shards w !! shard = Some s → _modules (local_tm s) !! module = Some m →
  find_module shard module w = (Returned module, w).
Proof.
  intros Hs Hm. unfold find_module.
  by rewrite (bind_returned _ _ _ _ _ (get_module_returned _ _ _ _ _ Hs Hm)).
Qed.

Lemma put_module_returned w shard s module m :
  shards w !! shard = Some s →
  put_module shard module m w
  = (Returned tt,
     with_shard shard
       {| local_tm := {| _all_tasks := _all_tasks (local_tm s);
                         _modules := <[module := m]> (_modules (local_tm s)) |};
          heap := heap s |} w).
Proof.
  intros Hs. unfold put_module.
  by rewrite (bind_returned _ _ _ _ _ (get_shard_returned _ _ _ Hs)).
Qed.

Lemma new_sequence_number_returned w shard s module m :
  shards w !! shard = Some s → _modules (local_tm s) !! module = Some m →
  new_sequence_number shard module w
  = (Returned (uint64_wrap (_sequence_number m + 1)),
     with_shard shard
       {| local_tm :=
            {| _all_tasks := _all_tasks (local_tm s);
               _modules :=
                 <[module := {| _name := _name m; _tasks := _tasks m;
                                _sequence_number :=
                                  uint64_wrap (_sequence_number m + 1) |}]>
                   (_modules (local_tm s)) |};
          heap := heap s |} w).
Proof.
  intros Hs Hm. unfold new_sequence_number.
  rewrite (bind_returned _ _ _ _ _ (get_module_returned _ _ _ _ _ Hs Hm)).
  by rewrite (bind_returned _ _ _ _ _ (put_module_returned _ _ _ _ _ Hs)).
Qed.

Lemma new_task_returned w shard s t :
  shards w !! shard = Some s →
  new_task shard t w
  = (Returned (fresh (dom (heap s))),
     with_shard shard
       {| local_tm := local_tm s;
          heap := <[fresh (dom (heap s)) := t]> (heap s) |} w).
Proof.
  intros Hs. unfold new_task.
  rewrite (bind_returned _ _ _ _ _ (get_shard_returned _ _ _ Hs)).
  by rewrite (bind_returned _ _ _ _ _ (put_task_returned _ _ _ _ _ Hs)).
Qed.

Lemma task_id_of_returned w shard s task t :
  shards w !! shard = Some s → heap s !! task = Some t →
  task_id_of shard task w = (Returned (status.id (_status t)), w).
Proof.
  intros Hs Ht. unfold task_id_of.
  by rewrite (bind_returned _ _ _ _ _ (get_task_returned _ _ _ _ _ Hs Ht)).
Qed.

Lemma get_sequence_number_returned w shard s task t :
  shards w !! shard = Some s → heap s !! task = Some t →
  get_sequence_number shard task w
  = (Returned (status.sequence_number (_status t)), w).
Proof.
  intros Hs Ht. unfold get_sequence_number.
  by rewrite (bind_returned _ _ _ _ _ (get_task_returned _ _ _ _ _ Hs Ht)).
Qed.

Lemma register_task_returned w shard s task t m :
  shards w !! shard = Some s → heap s !! task = Some t →
  _modules (local_tm s) !! _module t = Some m →
  _tasks m !! status.id (_status t) = None →
  _all_tasks (local_tm s) !! status.id (_status t) = None →
  register_task shard task w
  = (Returned tt,
     with_shard shard
       {| local_tm :=
            {| _all_tasks :=
                 <[status.id (_status t) := task]> (_all_tasks (local_tm s));
               _modules :=
                 <[_module t :=
                     {| _name := _name m;
                        _tasks := <[status.id (_status t) := task]> (_tasks m);
                        _sequence_number := _sequence_number m |}]>
                   (_modules (local_tm s)) |};
          heap := heap s |} w).
Proof.
  intros Hs Ht Hm Hnew1 Hnew2. unfold register_task.
  rewrite (bind_returned _ _ _ _ _ (get_task_returned _ _ _ _ _ Hs Ht)).
  rewrite (bind_returned _ _ _ _ _ (get_module_returned _ _ _ _ _ Hs Hm)).
  rewrite (bind_returned _ _ _ _ _ (get_shard_returned _ _ _ Hs)).
  by rewrite Hnew1, Hnew2.
Qed.

Lemma fresh_heap_None (h : gmap task_ptr impl) : h !! fresh (dom h) = None.
Proof. apply not_elem_of_dom, is_fresh. Qed.

Lemma task_at_Some w shard id t :
  task_at w shard id = Some t
  ↔ ∃ s task, shards w !! shard = Some s
              ∧ _all_tasks (local_tm s) !! id = Some task
              ∧ heap s !! task = Some t.
Proof.
  unfold task_at. split.
  - intros H. destruct (shards w !! shard) as [s|]; [|done]. cbn in H.
    destruct (_all_tasks (local_tm s) !! id) as [task|] eqn:E; [|done].
    cbn in H. by exists s, task.
  - intros (s & task & -> & Hi & Hh). cbn. rewrite Hi. done.
Qed.

Lemma module_at_Some w shard name m :
  module_at w shard name = Some m
  ↔ ∃ s, shards w !! shard = Some s ∧ _modules (local_tm s) !! name = Some m.
Proof.
  unfold module_at. split.
  - intros H. destruct (shards w !! shard) as [s|]; [|done]. by exists s.
  - by intros (s & -> & Hm).
Qed.

Lemma registered_task_at w shard id task t :
  registered w shard id task t → task_at w shard id = Some t.
Proof. intros (s & ? & ? & ?). apply task_at_Some. by exists s, task. Qed.

Ltac step H := rewrite (bind_returned _ _ _ _ _ H).

(** The home-shard [make_task] for a task without parent. *)
Lemma module_make_task_root w shard t parent_d :
  task_info_bool parent_d = false →
  can_register w shard (_module t) (status.id (_status t)) →
  ∃ task w' m,
    module_make_task shard t parent_d w = (Returned task, w')
    ∧ registered w' shard (status.id (_status t)) task t
    ∧ module_at w shard (_module t) = Some m
    ∧ module_at w' shard (_module t)
      = Some {| _name := _name m;
                _tasks := <[status.id (_status t) := task]> (_tasks m);
                _sequence_number := _sequence_number m |}
    ∧ random_pos w' = random_pos w.
Proof.
  intros Hroot (s & m & Hs & Hm & Hnew1 & Hnew2).
  set (task := fresh (dom (heap s))).
  set (s1 := {| local_tm := local_tm s; heap := <[task := t]> (heap s) |}).
  set (w1 := with_shard shard s1 w).
  assert (shards w1 !! shard = Some s1) as Hs1
    by by eapply shards_with_shard_eq.
  assert (heap s1 !! task = Some t) as Ht1 by apply lookup_insert_eq.
  eexists task, _, m. split_and!.
  - unfold module_make_task. rewrite Hroot.
    step (new_task_returned _ _ _ t Hs). fold task s1 w1.
    step (eq_refl : ret tt w1 = (Returned tt, w1)).
    step (register_task_returned _ _ _ _ _ _ Hs1 Ht1 Hm Hnew1 Hnew2).
    reflexivity.
  - eexists. split_and!.
    + by eapply shards_with_shard_eq.
    + apply lookup_insert_eq.
    + done.
  - apply module_at_Some. by exists s.
  - apply module_at_Some. eexists. split.
    + by eapply shards_with_shard_eq.
    + apply lookup_insert_eq.
  - done.
Qed.

Lemma add_child_returned w parent_shard ps parent p child cs c :
  shards w !! parent_shard = Some ps → heap ps !! parent = Some p →
  shards w !! owner_shard child = Some cs → heap cs !! get child = Some c →
  children._children (_task_children p) !! status.id (_status c) = None →
  add_child parent_shard parent child w
  = (Returned tt,
     with_shard parent_shard
       {| local_tm := local_tm ps;
          heap := <[parent := with_child (status.id (_status c)) child p]>
                    (heap ps) |} w).
Proof.
  intros Hps Hp Hcs Hc Hnone. unfold add_child.
  step (task_id_of_returned _ _ _ _ _ Hcs Hc).
  step (get_task_returned _ _ _ _ _ Hps Hp).
  rewrite Hnone. by rewrite (put_task_returned _ _ _ _ _ Hps).
Qed.

(** The home-shard [make_task] for a task with a parent. *)
Lemma module_make_task_child w shard t parent_d p :
  task_info_bool parent_d = true →
  can_register w shard (_module t) (status.id (_status t)) →
  can_adopt w parent_d (status.id (_status t)) p →
  ∃ task w' m,
    module_make_task shard t parent_d w = (Returned task, w')
    ∧ registered w' shard (status.id (_status t)) task
        (set_status
           (status.set_sequence_number
              (status.sequence_number (_status p)) (_status t)) t)
    ∧ task_at w' (ti_shard parent_d) (ti_id parent_d)
      = Some (with_child (status.id (_status t)) (make_foreign shard task) p)
    ∧ module_at w shard (_module t) = Some m
    ∧ module_at w' shard (_module t)
      = Some {| _name := _name m;
                _tasks := <[status.id (_status t) := task]> (_tasks m);
                _sequence_number := _sequence_number m |}
    ∧ random_pos w' = random_pos w.
Proof.
  intros Hchild (s & m & Hs & Hm & Hnew1 & Hnew2) [Hp Hnone].
  apply task_at_Some in Hp as (ps & parent & Hps & Hpi & Hph).
  set (id := status.id (_status t)) in *.
  set (pshard := ti_shard parent_d) in *.
  set (task := fresh (dom (heap s))).
  set (t' := set_status
               (status.set_sequence_number
                  (status.sequence_number (_status p)) (_status t)) t).
  set (p' := with_child id (make_foreign shard task) p).
  set (s1 := {| local_tm := local_tm s; heap := <[task := t]> (heap s) |}).
  set (w1 := with_shard shard s1 w).
  assert (shards w1 !! shard = Some s1) as Hs1
    by by eapply shards_with_shard_eq.
  assert (heap s1 !! task = Some t) as Ht1 by apply lookup_insert_eq.
  (* the parent's shard after the task object was made *)
  assert (∃ ps1, shards w1 !! pshard = Some ps1
                 ∧ local_tm ps1 = local_tm ps
                 ∧ heap ps1 !! parent = Some p
                 ∧ (pshard = shard → ps1 = s1 ∧ parent ≠ task)
                 ∧ (pshard ≠ shard → ps1 = ps))
    as (ps1 & Hps1 & Hltm1 & Hph1 & Hsame1 & Hdiff1).
  { destruct (decide (pshard = shard)) as [Heq|Hne].
    - exists s1. rewrite Heq in *. simplify_eq.
      assert (parent ≠ task) as Hne.
      { intros ->. unfold task in Hph. by rewrite fresh_heap_None in Hph. }
      split_and!; [done..| |done|done].
      cbn. by rewrite lookup_insert_ne.
    - exists ps. split_and!; [|done..].
      unfold w1. by rewrite shards_with_shard_ne. }
  set (ps2 := {| local_tm := local_tm ps1;
                 heap := <[parent := p']> (heap ps1) |}).
  set (w2 := with_shard pshard ps2 w1).
  assert (shards w2 !! pshard = Some ps2) as Hps2
    by by eapply shards_with_shard_eq.
  (* the new task's shard after the parent got its child *)
  assert (∃ s2, shards w2 !! shard = Some s2
                ∧ local_tm s2 = local_tm s
                ∧ heap s2 !! task = Some t
                ∧ (pshard = shard → heap s2 !! parent = Some p')
                ∧ (pshard ≠ shard → shards w2 !! pshard = Some ps2))
    as (s2 & Hs2 & Hltm2 & Hth2 & Hsame2 & Hdiff2).
  { destruct (decide (pshard = shard)) as [Heq|Hne].
    - destruct (Hsame1 Heq) as [-> Hne]. exists ps2. rewrite <-Heq.
      split_and!; [done|done| |by intros; apply lookup_insert_eq|done].
      cbn. by rewrite lookup_insert_ne.
    - exists s1. split_and!; [|done..].
      unfold w2. by rewrite shards_with_shard_ne. }
  set (s3 := {| local_tm := local_tm s2; heap := <[task := t']> (heap s2) |}).
  set (w3 := with_shard shard s3 w2).
  assert (shards w3 !! shard = Some s3) as Hs3
    by by eapply shards_with_shard_eq.
  assert (heap s3 !! task = Some t') as Ht3 by apply lookup_insert_eq.
  eexists task, _, m. split_and!.
  - unfold module_make_task. rewrite Hchild.
    step (new_task_returned _ _ _ t Hs). fold task s1 w1.
    assert (adopt (make_foreign shard task) (ti_id parent_d) pshard w1
            = (Returned (status.sequence_number (_status p)), w2)) as Hadopt.
    { unfold adopt. step (get_shard_returned _ _ _ Hps1).
      rewrite Hltm1, Hpi.
      step (add_child_returned _ _ _ _ _ (make_foreign shard task) _ _
              Hps1 Hph1 Hs1 Ht1 Hnone).
      fold id p' ps2 w2.
      by rewrite (get_sequence_number_returned _ _ _ _ p' Hps2
                    (lookup_insert_eq _ _ _)). }
    assert (invoke_on pshard
              (adopt (make_foreign shard task) (ti_id parent_d)) w1
            = (Returned (status.sequence_number (_status p)), w2)) as Hinv.
    { by rewrite (invoke_on_run _ _ _ _ Hps1). }
    assert ((n <- invoke_on pshard
                    (adopt (make_foreign shard task) (ti_id parent_d)) ;;
             t0 <- get_task shard task ;;
             put_task shard task
               (set_status (status.set_sequence_number n (_status t0)) t0)) w1
            = (Returned tt, w3)) as Hparent.
    { step Hinv. step (get_task_returned _ _ _ _ _ Hs2 Hth2).
      by rewrite (put_task_returned _ _ _ _ _ Hs2). }
    step Hparent.
    assert (_modules (local_tm s3) !! _module t' = Some m) as Hm3
      by (cbn; by rewrite Hltm2).
    assert (_tasks m !! status.id (_status t') = None) as Hnew13 by done.
    assert (_all_tasks (local_tm s3) !! status.id (_status t') = None)
      as Hnew23 by (cbn; by rewrite Hltm2).
    step (register_task_returned _ _ _ _ _ _ Hs3 Ht3 Hm3 Hnew13 Hnew23).
    reflexivity.
  - eexists. split_and!.
    + by eapply shards_with_shard_eq.
    + apply lookup_insert_eq.
    + done.
  - apply task_at_Some.
    destruct (decide (pshard = shard)) as [Heq|Hne].
    + rewrite Heq. eexists _, parent. split_and!.
      * by eapply shards_with_shard_eq.
      * cbn. rewrite Hltm2. rewrite Heq in Hps.
        assert (ps = s) as -> by congruence.
        rewrite lookup_insert_ne; [done|].
        intros Hid. unfold id in Hnew2. rewrite Hid in Hnew2. congruence.
      * cbn. destruct (Hsame1 Heq) as [_ Hne].
        rewrite lookup_insert_ne by done. by apply Hsame2.
    + exists ps2, parent. split_and!.
      * rewrite shards_with_shard_ne by done.
        unfold w3. rewrite shards_with_shard_ne by done. by apply Hdiff2.
      * cbn. by rewrite Hltm1.
      * apply lookup_insert_eq.
  - apply module_at_Some. by exists s.
  - apply module_at_Some. eexists. split.
    + by eapply shards_with_shard_eq.
    + cbn. rewrite Hltm2. apply lookup_insert_eq.
  - done.
Qed.

(** ** The [make_task] template *)

Lemma choose_id_returned id w :
  (if task_id_bool id then ret id else create_random_id) w
  = (Returned (constructed_id w id), after_id id w).
Proof. unfold constructed_id, after_id. by destruct (task_id_bool id). Qed.

Lemma shards_after_id id w : shards (after_id id w) = shards w.
Proof. unfold after_id. by destruct (task_id_bool id). Qed.

Lemma random_pos_after_id id w :
  random_pos (after_id id w)
  = if task_id_bool id then random_pos w else S (random_pos w).
Proof. unfold after_id. by destruct (task_id_bool id). Qed.

Lemma make_task_root T module shard id keyspace table entity parent_d w :
  task_info_bool parent_d = false →
  can_register w shard module (constructed_id w id) →
  ∃ task w' m,
    make_task T module shard id keyspace table entity parent_d w
    = (Returned (constructed_id w id), w')
    ∧ module_at w shard module = Some m
    ∧ registered w' shard (constructed_id w id) task
        (construct T shard module (constructed_id w id)
           (uint64_wrap (_sequence_number m + 1))
           keyspace table entity (ti_id parent_d))
    ∧ module_at w' shard module
      = Some {| _name := _name m;
                _tasks := <[constructed_id w id := task]> (_tasks m);
                _sequence_number := uint64_wrap (_sequence_number m + 1) |}
    ∧ random_pos w'
      = if task_id_bool id then random_pos w else S (random_pos w).
Proof.
  intros Hroot (s & m & Hs & Hm & Hnew1 & Hnew2).
  set (id' := constructed_id w id) in *.
  set (wa := after_id id w).
  assert (shards wa !! shard = Some s) as Hsa
    by (unfold wa; by rewrite shards_after_id).
  set (n := uint64_wrap (_sequence_number m + 1)).
  set (mb := {| _name := _name m; _tasks := _tasks m;
                _sequence_number := n |}).
  set (sb := {| local_tm :=
                  {| _all_tasks := _all_tasks (local_tm s);
                     _modules := <[module := mb]> (_modules (local_tm s)) |};
                heap := heap s |}).
  set (wb := with_shard shard sb wa).
  set (t := construct T shard module id' n keyspace table entity
              (ti_id parent_d)).
  assert (can_register wb shard (_module t) (status.id (_status t))) as Hreg.
  { exists sb, mb. split_and!; [|by apply lookup_insert_eq|done..].
    by eapply shards_with_shard_eq. }
  destruct (module_make_task_root wb shard t parent_d Hroot Hreg)
    as (task & w' & m' & Hrun & Hregd & Hmb & Hm' & Hpos).
  assert (m' = mb) as ->.
  { apply module_at_Some in Hmb as (sb' & Hsb' & Hmb).
    unfold wb in Hsb'. rewrite (shards_with_shard_eq _ _ _ _ Hsa) in Hsb'.
    injection Hsb' as <-. cbn in Hmb. rewrite lookup_insert_eq in Hmb.
    congruence. }
  exists task, w', m. split_and!.
  - unfold make_task. rewrite (invoke_on_run _ _ _ _ Hs).
    step (find_module_returned _ _ _ _ _ Hs Hm).
    step (choose_id_returned id w). fold id' wa. rewrite Hroot.
    step (new_sequence_number_returned _ _ _ _ _ Hsa Hm).
    fold n mb sb wb t. step Hrun.
    destruct Hregd as (s' & Hs' & _ & Hheap).
    by rewrite (task_id_of_returned _ _ _ _ _ Hs' Hheap).
  - apply module_at_Some. by exists s.
  - done.
  - done.
  - rewrite Hpos. apply random_pos_after_id.
Qed.

Lemma make_task_child T module shard id keyspace table entity parent_d w p :
  task_info_bool parent_d = true →
  can_register w shard module (constructed_id w id) →
  can_adopt w parent_d (constructed_id w id) p →
  ∃ task w' m,
    make_task T module shard id keyspace table entity parent_d w
    = (Returned (constructed_id w id), w')
    ∧ module_at w shard module = Some m
    ∧ registered w' shard (constructed_id w id) task
        (construct T shard module (constructed_id w id)
           (status.sequence_number (_status p))
           keyspace table entity (ti_id parent_d))
    ∧ task_at w' (ti_shard parent_d) (ti_id parent_d)
      = Some (with_child (constructed_id w id) (make_foreign shard task) p)
    ∧ module_at w' shard module
      = Some {| _name := _name m;
                _tasks := <[constructed_id w id := task]> (_tasks m);
                _sequence_number := _sequence_number m |}
    ∧ random_pos w'
      = if task_id_bool id then random_pos w else S (random_pos w).
Proof.
  intros Hchild (s & m & Hs & Hm & Hnew1 & Hnew2) [Hp Hnone].
  set (id' := constructed_id w id) in *.
  set (wa := after_id id w).
  assert (shards wa = shards w) as Hshards by apply shards_after_id.
  assert (shards wa !! shard = Some s) as Hsa by by rewrite Hshards.
  set (t := construct T shard module id' 0 keyspace table entity
              (ti_id parent_d)).
  assert (can_register wa shard (_module t) (status.id (_status t))) as Hreg
    by by exists s, m.
  assert (can_adopt wa parent_d (status.id (_status t)) p) as Hadopt.
  { split; [|done]. unfold task_at. by rewrite Hshards. }
  destruct (module_make_task_child wa shard t parent_d p Hchild Hreg Hadopt)
    as (task & w' & m' & Hrun & Hregd & Hparent & Hma & Hm' & Hpos).
  assert (m' = m) as ->.
  { apply module_at_Some in Hma as (s' & Hs' & Hma). cbn in Hma. congruence. }
  exists task, w', m. split_and!.
  - unfold make_task. rewrite (invoke_on_run _ _ _ _ Hs).
    step (find_module_returned _ _ _ _ _ Hs Hm).
    step (choose_id_returned id w). fold id' wa. rewrite Hchild.
    step (eq_refl : ret 0 wa = (Returned 0, wa)).
    fold t. step Hrun.
    destruct Hregd as (s' & Hs' & _ & Hheap).
    by rewrite (task_id_of_returned _ _ _ _ _ Hs' Hheap).
  - apply module_at_Some. by exists s.
  - done.
  - done.
  - done.
  - rewrite Hpos. apply random_pos_after_id.
Qed.

(** ** The sequence number and the identifier of a new task *)

Lemma sample_can_register (id : task_id) :
  can_register sample_world 1 "repair" id.
Proof. eexists _, _. split_and!; reflexivity. Defined.

Lemma sample_can_adopt (id : task_id) :
  can_adopt sample_world sample_parent_info id sample_parent.
Proof. split; reflexivity. Defined.

(** C9: the [make_task] template constructs the implementation with the
    next identifier of the random source when the caller's identifier is
    null, and with the caller's identifier otherwise; when the task can be
    registered (and adopted by its parent, if it has one) the call returns
    that identifier, which is the [id()] of the task it registered. *)
Theorem make_task_constructed_id (T : task_class) (module : string)
    (shard : nat) (id : task_id) (keyspace table entity : string)
    (parent_d : task_info) (w : world) :
  can_register w shard module (constructed_id w id) →
  (task_info_bool parent_d = true →
     ∃ p, can_adopt w parent_d (constructed_id w id) p) →
  (id = task_id_null → constructed_id w id = random_ids w (random_pos w))
  ∧ (id ≠ task_id_null → constructed_id w id = id)
  ∧ ∃ task w' n t,
      make_task T module shard id keyspace table entity parent_d w
      = (Returned (constructed_id w id), w')
      ∧ registered w' shard (constructed_id w id) task t
      ∧ t = construct T shard module (constructed_id w id) n
              keyspace table entity (ti_id parent_d)
      ∧ status.id (_status t) = constructed_id w id
      ∧ random_pos w'
        = if task_id_bool id then random_pos w else S (random_pos w).
Proof.
  intros Hreg Hparent. split_and!.
  - intros ->. reflexivity.
  - intros Hne. unfold constructed_id, task_id_bool.
    by rewrite (proj2 (N.eqb_neq _ _) Hne).
  - destruct (task_info_bool parent_d) eqn:Hpd.
    + destruct (Hparent eq_refl) as [p Hp].
      destruct (make_task_child T module shard id keyspace table entity
                  parent_d w p Hpd Hreg Hp)
        as (task & w' & m & Hrun & _ & Hregd & _ & _ & Hpos).
      by eexists task, w', _, _.
    + destruct (make_task_root T module shard id keyspace table entity
                  parent_d w Hpd Hreg)
        as (task & w' & m & Hrun & _ & Hregd & _ & Hpos).
      by eexists task, w', _, _.
Qed.

Lemma make_task_constructed_id_witness :
  can_register sample_world 1 "repair"
    (constructed_id sample_world task_id_null)
  ∧ constructed_id sample_world task_id_null = 1000%N
  ∧ ∃ task w' n t,
      make_task sample_class "repair" 1 task_id_null "ks" "tb" ""
        sample_parent_info sample_world
      = (Returned (constructed_id sample_world task_id_null), w')
      ∧ registered w' 1 (constructed_id sample_world task_id_null) task t
      ∧ t = construct sample_class 1 "repair"
              (constructed_id sample_world task_id_null) n "ks" "tb" ""
              (ti_id sample_parent_info)
      ∧ status.id (_status t) = constructed_id sample_world task_id_null
      ∧ random_pos w' = 1%nat.
Proof.
  split; [exact (sample_can_register 1000%N)|].
  split; [reflexivity|].
  exact (proj2 (proj2
    (make_task_constructed_id sample_class "repair" 1 task_id_null
       "ks" "tb" "" sample_parent_info sample_world
       (sample_can_register 1000%N)
       (λ _, ex_intro _ sample_parent (sample_can_adopt 1000%N))))).
Defined.




(** C6: [make_and_start_task] is [make_task] on the implementation
    constructed from the module and the arguments, then [start] on the task
    [make_task] returned, and that task is what it returns; when [make_task]
    fails [start] does not run, and a failure of either is the failure of
    the call. *)
Theorem make_and_start_task_is_make_then_start {Args : Type}
    (TaskImpl : nat → module_ptr → Args → impl)
    (home_make_task : nat → impl → task_info → M task_ptr)
    (start : nat → task_ptr → M unit)
    (this_shard : nat) (module : module_ptr) (parent_info : task_info)
    (args : Args) (w : world) :
  make_and_start_task TaskImpl home_make_task start this_shard module
    parent_info args w
  = make_task_then_start TaskImpl home_make_task start this_shard module
      parent_info args w.
Proof.
  unfold make_and_start_task, make_task_then_start, bind.
  destruct (home_make_task this_shard (TaskImpl this_shard module args)
              parent_info w) as [[task|e] w1]; [|done].
  by destruct (start this_shard task w1) as [[[]|e] w2].
Qed.

Example make_and_start_task_start_fails :
  let r := make_and_start_task sample_TaskImpl module_make_task
             (λ _ _, throw (foreign_exception "start failed"))
             1 "repair" task_info_empty (55%N, 99) sample_world in
  r.1 = Threw (foreign_exception "start failed")
  ∧ task_at r.2 1 55%N = Some sample_impl.
Proof. by vm_compute. Qed.

Example make_and_start_task_returns_task :
  let r := make_and_start_task sample_TaskImpl module_make_task
             (λ _ _, ret tt)
             1 "repair" task_info_empty (55%N, 99) sample_world in
  r.1 = Returned 0%nat
  ∧ r.2 = (module_make_task 1 sample_impl task_info_empty sample_world).2.
Proof. by vm_compute. Qed.

(** ** More on [invoke_on_task] *)

Section invoke_on_task_more.

Context {T : Type}.
Variable id : task_id.

Lemma fan_out_step_agree (func func' : nat → task_ptr → callback_future T)
    (tm : sharded_task_manager) st entry :
  (∀ shard t, holds tm id shard t → func shard t = func' shard t) →
  entry ∈ all_shards tm →
  fan_out_step func id st entry = fan_out_step func' id st entry.
Proof.
  intros Hagree Hin. unfold fan_out_step, invoke_on_local.
  destruct (get_all_tasks entry.2 !! id) as [t|] eqn:Hlook; [|done].
  rewrite (Hagree entry.1 t); [done|].
  apply elem_of_lookup_imap in Hin as (shard & local_tm & -> & Hshard).
  by exists local_tm.
Qed.

Lemma fan_out_agree (func func' : nat → task_ptr → callback_future T)
    (tm : sharded_task_manager) completion :
  (∀ shard t, holds tm id shard t → func shard t = func' shard t) →
  (∀ entry, entry ∈ completion → entry ∈ all_shards tm) →
  fan_out func id completion = fan_out func' id completion.
Proof.
  intros Hagree. unfold fan_out. generalize (@fan_out_start T).
  induction completion as [|entry completion IH]; intros st Hsub; [done|].
  cbn [foldl].
  rewrite (fan_out_step_agree func func' tm) by (auto; apply Hsub; left).
  apply IH. intros e He. apply Hsub. by right.
Qed.

Lemma holders_singleton_unique (tm : sharded_task_manager) shard t :
  holders tm id = [(shard, t)] →
  holds tm id shard t
  ∧ ∀ shard' t', holds tm id shard' t' → shard' = shard ∧ t' = t.
Proof.
  intros Hh. split.
  - apply elem_of_holders. rewrite Hh. left.
  - intros shard' t' Hin%elem_of_holders. rewrite Hh in Hin.
    apply list_elem_of_singleton in Hin. by simplify_eq.
Qed.

End invoke_on_task_more.

(** X1: [invoke_on_task] returns a value exactly when one shard, and no
    other, has the id in its index and the callback completes there; the
    value is the callback's. *)
Theorem invoke_on_task_returns_iff {T}
    (func : nat → task_ptr → callback_future T)
    (tm : sharded_task_manager) (completion : list (nat * task_manager))
    (pick : nat) (id : task_id) (v : T) :
  schedule_of tm completion →
  (invoke_on_task_scheduled func completion pick id = Returned v
   ↔ ∃ shard t, holds tm id shard t
                ∧ (∀ shard' t', holds tm id shard' t' → shard' = shard)
                ∧ func shard t = Ready v).
Proof.
  intros Hs. split.
  - intros Hcall.
    destruct (invoke_on_task_scheduled_cases func id completion pick)
      as [(e & _ & Hthrew)|[Hnil Hres]]; [congruence|].
    rewrite Hcall, fan_out_res in Hres.
    pose proof (holders_in_length id tm completion Hs) as Hlen.
    pose proof (ready_failures_length func (holders_in completion id)) as Hsum.
    assert (failures func (holders_in completion id) = []) as Hfail.
    { destruct (failures func (holders_in completion id)) as [|e es] eqn:E;
        [done|].
      assert (e ∈ raised (fan_out func id completion)) as Hin
        by (apply fan_out_raised; left; rewrite E; left).
      rewrite Hnil in Hin. by apply elem_of_nil in Hin. }
    assert (length (ready_values func (holders_in completion id)) < 2)%nat
      as Hlt.
    { destruct (decide (2 ≤ length (ready_values func
                                      (holders_in completion id)))%nat)
        as [Hge|]; [|lia].
      assert (internal_error more_than_one_shard_fmt id
                ∈ raised (fan_out func id completion)) as Hin
        by (apply fan_out_raised; by right).
      rewrite Hnil in Hin. by apply elem_of_nil in Hin. }
    rewrite Hfail in Hsum. cbn in Hsum.
    destruct (ready_values func (holders_in completion id)) as [|v' vs] eqn:Hrv;
      [done|].
    cbn in Hres. injection Hres as <-.
    destruct vs; [|cbn in Hlt; lia]. cbn in Hsum.
    destruct (holders tm id) as [|[shard t] [|h l]] eqn:Hh;
      cbn in Hlen; try lia.
    destruct (holders_singleton_unique id tm shard t Hh) as [Hholds Huniq].
    exists shard, t. split_and!; [done|by intros s' t' [-> _]%Huniq|].
    assert (holders_in completion id = [(shard, t)]) as Hhs.
    { apply Permutation_singleton_r.
      by rewrite (holders_in_schedule id tm completion Hs), Hh. }
    rewrite Hhs, ready_values_cons in Hrv. cbn in Hrv.
    destruct (func shard t); by simplify_eq.
  - intros (shard & t & Hholds & Huniq & Hf).
    rewrite (call_unique func id tm completion pick Hs shard t Hholds Huniq).
    by rewrite Hf.
Qed.

(** X2: the callback matters only where the task is: two callbacks that
    agree on the shards that have the id in their index give the same
    result. *)
Theorem invoke_on_task_func_on_holders {T}
    (func func' : nat → task_ptr → callback_future T)
    (tm : sharded_task_manager) (completion : list (nat * task_manager))
    (pick : nat) (id : task_id) :
  schedule_of tm completion →
  (∀ shard t, holds tm id shard t → func shard t = func' shard t) →
  invoke_on_task_scheduled func completion pick id
  = invoke_on_task_scheduled func' completion pick id.
Proof.
  intros Hs Hagree. unfold invoke_on_task_scheduled.
  rewrite (fan_out_agree id func func' tm completion Hagree); [done|].
  intros entry Hin. by rewrite <-Hs.
Qed.

(** X3: when at most one shard has the id, the result does not depend on
    the order in which the shards answer, nor on the choice of the rethrown
    exception. *)
Theorem invoke_on_task_schedule_independent {T}
    (func : nat → task_ptr → callback_future T)
    (tm : sharded_task_manager) (completion completion' : list (nat * task_manager))
    (pick pick' : nat) (id : task_id) :
  on_at_most_one_shard tm id →
  schedule_of tm completion → schedule_of tm completion' →
  invoke_on_task_scheduled func completion pick id
  = invoke_on_task_scheduled func completion' pick' id.
Proof.
  intros Huniq Hs Hs'.
  pose proof (holders_at_most_one id tm Huniq) as Hlen.
  destruct (holders tm id) as [|[shard t] [|h l]] eqn:Hh;
    cbn in Hlen; [| |lia].
  - apply holders_nil in Hh.
    by rewrite (call_absent func id tm completion pick Hs Hh),
               (call_absent func id tm completion' pick' Hs' Hh).
  - destruct (holders_singleton_unique id tm shard t Hh) as [Hholds Hone].
    assert (∀ s' t', holds tm id s' t' → s' = shard) as Hone'
      by (by intros s' t' [-> _]%Hone).
    by rewrite (call_unique func id tm completion pick Hs shard t Hholds Hone'),
         (call_unique func id tm completion' pick' Hs' shard t Hholds Hone').
Qed.

Lemma invoke_on_task_returns_iff_witness :
  schedule_of sample_tm sample_completion
  ∧ (invoke_on_task_scheduled sample_func sample_completion 2 9%N
     = Returned 4%nat
     ↔ ∃ shard t, holds sample_tm 9%N shard t
                  ∧ (∀ shard' t', holds sample_tm 9%N shard' t' → shard' = shard)
                  ∧ sample_func shard t = Ready 4%nat).
Proof.
  split; [exact sample_schedule|].
  exact (invoke_on_task_returns_iff sample_func sample_tm sample_completion
           2 9%N 4%nat sample_schedule).
Defined.

Lemma sample_func_agree shard t :
  holds sample_tm 9%N shard t →
  sample_func shard t = (λ _ t', Ready t') shard t.
Proof. intros ->%sample_unique_9. reflexivity. Defined.

Lemma invoke_on_task_func_on_holders_witness :
  schedule_of sample_tm sample_completion
  ∧ (∀ shard t, holds sample_tm 9%N shard t →
                sample_func shard t = (λ _ t', Ready t') shard t)
  ∧ invoke_on_task_scheduled sample_func sample_completion 1 9%N
    = invoke_on_task_scheduled (λ _ t', Ready t') sample_completion 1 9%N.
Proof.
  split; [exact sample_schedule|]. split; [exact sample_func_agree|].
  exact (invoke_on_task_func_on_holders sample_func (λ _ t', Ready t')
           sample_tm sample_completion 1 9%N sample_schedule
           sample_func_agree).
Defined.

Lemma sample_at_most_one_9 : on_at_most_one_shard sample_tm 9%N.
Proof.
  intros s1 t1 s2 t2 H1%sample_unique_9 H2%sample_unique_9. congruence.
Defined.

Lemma sample_schedule_in_order : schedule_of sample_tm (all_shards sample_tm).
Proof. unfold schedule_of. reflexivity. Defined.

Lemma invoke_on_task_schedule_independent_witness :
  on_at_most_one_shard sample_tm 9%N
  ∧ schedule_of sample_tm sample_completion
  ∧ schedule_of sample_tm (all_shards sample_tm)
  ∧ invoke_on_task_scheduled sample_func sample_completion 3 9%N
    = invoke_on_task_scheduled sample_func (all_shards sample_tm) 0 9%N.
Proof.
  split; [exact sample_at_most_one_9|]. split; [exact sample_schedule|].
  split; [exact sample_schedule_in_order|].
  exact (invoke_on_task_schedule_independent sample_func sample_tm
           sample_completion (all_shards sample_tm) 3 0 9%N
           sample_at_most_one_9 sample_schedule sample_schedule_in_order).
Defined.

(** ** More on [map_each_task] *)

Lemma map_values_length (c : children.t) :
  length (children.map_values c) = size (children._children c).
Proof.
  unfold children.map_values. by rewrite length_fmap, length_map_to_list.
Qed.

Lemma omap_length_le {A R} (f : A → option R) (l : list A) :
  (length (omap f l) ≤ length l)%nat.
Proof. rewrite omap_length_engaged. apply length_filter. Qed.

Lemma omap_length_total {A R} (f : A → option R) (l : list A) :
  (∀ x, is_Some (f x)) → length (omap f l) = length l.
Proof.
  intros Htotal. induction l as [|x l IH]; [done|].
  cbn. destruct (Htotal x) as [y ->]. cbn. by rewrite IH.
Qed.

Lemma omap_none {A R} (f : A → option R) (l : list A) :
  (∀ x, f x = None) → omap f l = [].
Proof.
  intros Hnone. induction l as [|x l IH]; [done|]. cbn. by rewrite Hnone.
Qed.

(** X4: [map_each_task] returns at most one element per child, live or
    finished; exactly one per child when the mappers never return an empty
    optional, and none when they always do. *)
Theorem map_each_task_size {Res}
    (map_children : foreign_task_ptr → option Res)
    (map_finished_children : task_essentials → option Res)
    (c : children.t) :
  ∃ rs,
    children.map_each_task map_children map_finished_children c = Returned rs
    ∧ (length rs ≤ size (children._children c)
                   + length (children._finished_children c))%nat
    ∧ ((∀ child, is_Some (map_children child)) →
       (∀ e, is_Some (map_finished_children e)) →
       length rs = (size (children._children c)
                    + length (children._finished_children c))%nat)
    ∧ ((∀ child, map_children child = None) →
       (∀ e, map_finished_children e = None) → rs = []).
Proof.
  exists (children.non_empty_outputs map_children map_finished_children c).
  split_and!.
  - unfold children.map_each_task, children.non_empty_outputs.
    rewrite copy_engaged_values, omap_app. by rewrite !omap_fmap_id.
  - unfold children.non_empty_outputs. rewrite length_app, <-map_values_length.
    pose proof (omap_length_le map_children (children.map_values c)).
    pose proof (omap_length_le map_finished_children
                  (children._finished_children c)).
    lia.
  - intros H1 H2. unfold children.non_empty_outputs.
    by rewrite length_app, !omap_length_total, map_values_length.
  - intros H1 H2. unfold children.non_empty_outputs.
    by rewrite !omap_none.
Qed.

(** ** api/raft.cc: the timeout of [trigger_snapshot] *)

Lemma app_String c s t : String c s +:+ t = String c (s +:+ t).
Proof. reflexivity. Qed.

Lemma app_empty t : "" +:+ t = t.
Proof. reflexivity. Qed.

Lemma digit_char_facts d :
  (d < 10)%nat →
  digit_value (digit_char d) = Some (Z.of_nat d)
  ∧ isspace (digit_char d) = false
  ∧ is_sign (digit_char d) = false.
Proof.
  intros Hd. do 10 (destruct d as [|d]; [by vm_compute|]). lia.
Qed.

Lemma skip_space_all_space ws s :
  all_space ws → skip_space (ws +:+ s) = skip_space s.
Proof.
  induction ws as [|c ws IH]; [done|]. cbn [all_space].
  intros [Hc%Is_true_true Hws]%andb_prop_elim.
  rewrite app_String. cbn [skip_space]. rewrite Hc. by apply IH.
Qed.

Lemma scan_digits_digits acc ds rest :
  Forall (λ d, d < 10)%nat ds → starts_with_digit rest = false →
  scan_digits acc (digits_string ds +:+ rest)
  = foldl (λ acc d, 10 * acc + Z.of_nat d) acc ds.
Proof.
  intros Hds Hrest. revert acc.
  induction Hds as [|d ds Hd _ IH]; intros acc.
  - cbn [digits_string foldl]. rewrite app_empty.
    destruct rest as [|c rest]; [done|]. cbn in *.
    destruct (digit_value c); [|done].
    apply bool_decide_eq_false in Hrest. by destruct Hrest.
  - cbn [digits_string foldl]. rewrite app_String. cbn [scan_digits].
    destruct (digit_char_facts d Hd) as [-> _]. apply IH.
Qed.

Lemma strtoll_digits ds rest :
  ds ≠ [] → Forall (λ d, d < 10)%nat ds → starts_with_digit rest = false →
  starts_with_digit (digits_string ds +:+ rest) = true
  ∧ scan_digits 0 (digits_string ds +:+ rest) = digits_number ds.
Proof.
  intros Hne Hds Hrest. split; [|by apply scan_digits_digits].
  destruct Hds as [|d ds Hd _]; [done|].
  cbn [digits_string]. rewrite app_String. cbn [starts_with_digit].
  destruct (digit_char_facts d Hd) as [-> _]. by apply bool_decide_eq_true.
Qed.

Lemma strtoll_decimal ws sg ds rest :
  all_space ws → ds ≠ [] → Forall (λ d, d < 10)%nat ds →
  starts_with_digit rest = false →
  strtoll (ws +:+ sign_string sg +:+ digits_string ds +:+ rest)
  = Some (signed sg (digits_number ds)).
Proof.
  intros Hws Hne Hds Hrest.
  destruct (strtoll_digits ds rest Hne Hds Hrest) as [Hstart Hscan].
  unfold strtoll. rewrite (skip_space_all_space _ _ Hws).
  destruct sg; cbn [sign_string signed].
  - rewrite app_empty. destruct Hds as [|d ds Hd Hds]; [done|].
    destruct (digit_char_facts d Hd) as (Hv & Hsp & Hsg).
    cbn [digits_string] in *. rewrite app_String in *.
    cbn [skip_space]. rewrite Hsp.
    apply orb_false_elim in Hsg as [-> ->]. by rewrite Hstart, Hscan.
  - rewrite app_String, app_empty. cbn [skip_space].
    change (isspace "+") with false. cbn. by rewrite Hstart, Hscan.
  - rewrite app_String, app_empty. cbn [skip_space].
    change (isspace "-") with false. cbn. by rewrite Hstart, Hscan.
Qed.

Lemma strtoll_no_number ws sg rest :
  all_space ws → no_number sg rest →
  strtoll (ws +:+ sign_string sg +:+ rest) = None.
Proof.
  intros Hws Hno. unfold strtoll. rewrite (skip_space_all_space _ _ Hws).
  destruct sg; cbn [sign_string].
  - rewrite app_empty. destruct rest as [|c rest]; [done|]. cbn in Hno.
    apply andb_prop_elim in Hno as [[Hsp Hsg]%andb_prop_elim Hd].
    apply negb_prop_elim, Is_true_false in Hsp, Hsg, Hd.
    cbn [skip_space]. rewrite Hsp.
    apply orb_false_elim in Hsg as [-> ->]. cbn. by rewrite Hd.
  - rewrite app_String, app_empty. cbn [skip_space].
    change (isspace "+") with false. cbn.
    destruct rest as [|c rest]; [done|]. cbn in *.
    by apply negb_prop_elim, Is_true_false in Hno as ->.
  - rewrite app_String, app_empty. cbn [skip_space].
    change (isspace "-") with false. cbn.
    destruct rest as [|c rest]; [done|]. cbn in *.
    by apply negb_prop_elim, Is_true_false in Hno as ->.
Qed.

Lemma strtoll_Some_nonempty s v : strtoll s = Some v → s ≠ "".
Proof. by intros Hs ->. Qed.

(** X5: the timeout of [trigger_snapshot] is 60 seconds when the request has
    no [timeout] parameter or an empty one; whatever the parameter is, a
    timeout that is accepted is a positive number of seconds that fits
    [long long]. *)
Theorem timeout_dur_positive (req : request) (dur : Z) :
  timeout_dur (get_query_param req "timeout") = Ok dur →
  0 < dur ≤ LLONG_MAX
  ∧ (query_parameters req !! "timeout" = None → dur = 60)
  ∧ (query_parameters req !! "timeout" = Some "" → dur = 60).
Proof.
  intros Hdur. split; [|split].
  - unfold timeout_dur in Hdur. case_bool_decide.
    { injection Hdur as <-. unfold LLONG_MAX. lia. }
    unfold stoll in Hdur.
    destruct (strtoll (get_query_param req "timeout")) as [v|]; [|done].
    destruct ((LLONG_MIN <=? v) && (v <=? LLONG_MAX)) eqn:Hrange; [|done].
    destruct (v <=? 0) eqn:Hpos; [done|]. injection Hdur as <-.
    apply andb_prop in Hrange as [_ Hmax]. lia.
  - intros Hnone. unfold get_query_param in Hdur. rewrite Hnone in Hdur.
    change (Ok 60 = Ok dur) in Hdur. congruence.
  - intros Hempty. unfold get_query_param in Hdur. rewrite Hempty in Hdur.
    change (Ok 60 = Ok dur) in Hdur. congruence.
Qed.

(** X6: a timeout written as a decimal number, after any white space and an
    optional sign and before anything that is not a digit, is accepted
    exactly when the number is positive and fits [long long]; a number that
    does not fit is [std::out_of_range], zero and the negative numbers are
    the error "Timeout must be a positive number.". *)
Theorem timeout_dur_decimal (ws : string) (sg : sign) (ds : list nat)
    (rest : string) :
  all_space ws → ds ≠ [] → Forall (λ d, d < 10)%nat ds →
  starts_with_digit rest = false →
  timeout_dur (ws +:+ sign_string sg +:+ digits_string ds +:+ rest)
  = let n := signed sg (digits_number ds) in
    if (n <? LLONG_MIN) || (LLONG_MAX <? n) then Err (out_of_range "stoll")
    else if n <=? 0 then Err (runtime_error timeout_not_positive)
    else Ok n.
Proof.
  intros Hws Hne Hds Hrest.
  pose proof (strtoll_decimal ws sg ds rest Hws Hne Hds Hrest) as Hparse.
  unfold timeout_dur.
  rewrite bool_decide_eq_false_2 by (by eapply strtoll_Some_nonempty).
  unfold stoll. rewrite Hparse. cbn zeta.
  destruct (signed sg (digits_number ds) <? LLONG_MIN) eqn:Hmin;
    destruct (LLONG_MAX <? signed sg (digits_number ds)) eqn:Hmax;
    destruct (LLONG_MIN <=? signed sg (digits_number ds)) eqn:Hmin';
    destruct (signed sg (digits_number ds) <=? LLONG_MAX) eqn:Hmax';
    cbn; try done; lia.
Qed.

(** X7: a timeout that is not empty and has no digit where the number
    should begin, after the white space and the sign, is
    [std::invalid_argument], not the error about positive numbers. *)
Theorem timeout_dur_not_a_number (ws : string) (sg : sign) (rest : string) :
  all_space ws → no_number sg rest →
  ws +:+ sign_string sg +:+ rest ≠ "" →
  timeout_dur (ws +:+ sign_string sg +:+ rest)
  = Err (invalid_argument "stoll").
Proof.
  intros Hws Hno Hne. unfold timeout_dur.
  rewrite bool_decide_eq_false_2 by done.
  unfold stoll. by rewrite (strtoll_no_number ws sg rest Hws Hno).
Qed.

Lemma timeout_dur_positive_witness :
  timeout_dur (get_query_param (mk_request ∅ {[ "timeout" := " 15s" ]})
                 "timeout") = Ok 15
  ∧ 0 < 15 ≤ LLONG_MAX.
Proof.
  split; [reflexivity|].
  exact (proj1 (timeout_dur_positive
                  (mk_request ∅ {[ "timeout" := " 15s" ]}) 15 eq_refl)).
Defined.

Lemma sample_digits_lt : Forall (λ d, d < 10)%nat [1; 5]%nat.
Proof. repeat constructor. Defined.

Lemma timeout_dur_decimal_witness :
  all_space " " ∧ [1; 5]%nat ≠ [] ∧ Forall (λ d, d < 10)%nat [1; 5]%nat
  ∧ starts_with_digit "s" = false
  ∧ timeout_dur (" " +:+ sign_string minus_sign +:+ digits_string [1; 5]%nat
                   +:+ "s")
    = Err (runtime_error timeout_not_positive).
Proof.
  assert ([1; 5]%nat ≠ []) as Hne by discriminate.
  split; [exact I|]. split; [exact Hne|]. split; [exact sample_digits_lt|].
  split; [reflexivity|].
  exact (timeout_dur_decimal " " minus_sign [1; 5]%nat "s" I Hne
           sample_digits_lt eq_refl).
Defined.

Lemma timeout_dur_not_a_number_witness :
  all_space " " ∧ no_number plus_sign "x"
  ∧ " " +:+ sign_string plus_sign +:+ "x" ≠ ""
  ∧ timeout_dur (" " +:+ sign_string plus_sign +:+ "x")
    = Err (invalid_argument "stoll").
Proof.
  assert (" " +:+ sign_string plus_sign +:+ "x" ≠ "") as Hne by discriminate.
  split; [exact I|]. split; [exact I|]. split; [exact Hne|].
  exact (timeout_dur_not_a_number " " plus_sign "x" I I Hne).
Defined.

(** ** api/raft.cc: the handler of [trigger_snapshot] *)

Lemma pick_one_None {A} pick (l : list A) : pick_one pick l = None ↔ l = [].
Proof.
  unfold pick_one. destruct l as [|x l]; [done|].
  split; [|done]. intros Hnone%lookup_ge_None.
  pose proof (Nat.mod_upper_bound pick (length (x :: l))) as Hlt.
  cbn in *. lia.
Qed.

Lemma pick_one_Some {A} pick (l : list A) x : pick_one pick l = Some x → x ∈ l.
Proof. unfold pick_one. apply list_elem_of_lookup_2. Qed.

Section trigger_snapshot_facts.

Context {group_id : Type} `{Countable group_id} {server time_point : Type}.
Variable parse_group_id : request → result group_id.
Variable format_group_id : group_id → string.
Variable expiry : nat → Z → time_point.
Variable trigger_snapshot : nat → server → time_point → result bool.
Variable gid : group_id.
Variable timeout : Z.

Lemma served_cons (entry : nat * gmap group_id server) entries :
  served gid (entry :: entries)
  = match entry.2 !! gid with
    | Some srv => (entry.1, srv) :: served gid entries
    | None => served gid entries
    end.
Proof. unfold served. cbn. by destruct (entry.2 !! gid). Qed.

Lemma foldl_snapshot_on_shard entries : ∀ st,
  let st' := foldl (snapshot_on_shard expiry trigger_snapshot gid timeout) st
                   entries in
  found_srv st' = match served gid entries with
                  | [] => found_srv st
                  | _ => true
                  end
  ∧ snapshot_failed st'
    = snapshot_failed st
      ++ omap (failure_of expiry trigger_snapshot timeout)
              (served gid entries)
  ∧ snapshot_triggered st'
    = snapshot_triggered st
      ++ (request_of expiry timeout <$> served gid entries).
Proof.
  induction entries as [|entry entries IH]; intros st; cbn zeta.
  - cbn. by rewrite !app_nil_r.
  - cbn [foldl]. rewrite served_cons. unfold snapshot_on_shard at 2 4 6.
    destruct (entry.2 !! gid) as [srv|] eqn:Hlook; [|apply IH].
    unfold failure_of, request_of. cbn [omap list_omap fmap list_fmap fst snd].
    destruct (trigger_snapshot entry.1 srv (expiry entry.1 timeout)) eqn:Htr;
      (destruct (IH (mk_snapshot_state true
                       (match trigger_snapshot entry.1 srv
                                (expiry entry.1 timeout) with
                        | Ok _ => snapshot_failed st
                        | Err e => snapshot_failed st ++ [e]
                        end)
                       (snapshot_triggered st
                          ++ [(entry.1, srv, expiry entry.1 timeout)])))
         as (IH1 & IH2 & IH3));
      rewrite Htr in IH1, IH2, IH3; rewrite IH1, IH2, IH3; cbn;
      rewrite <-?app_assoc; split_and!; try done;
      by destruct (served gid entries).
Qed.

Lemma elem_of_served (raft_gr : list (gmap group_id server)) shard srv :
  (shard, srv) ∈ served gid (imap (λ shard r, (shard, r)) raft_gr)
  ↔ serves raft_gr gid shard srv.
Proof.
  unfold served, serves. rewrite list_elem_of_omap. split.
  - intros ([s reg] & Hin & Heq).
    apply elem_of_lookup_imap in Hin as (i & y & [= -> ->] & Hi).
    cbn in Heq. destruct (y !! gid) eqn:E; simplify_eq/=. eauto.
  - intros (reg & Hi & Hl). exists (shard, reg). split.
    + by apply (elem_of_lookup_imap_2 (λ shard r, (shard, r))).
    + cbn. by rewrite Hl.
Qed.

Lemma served_fst_sublist (entries : list (nat * gmap group_id server)) :
  (served gid entries).*1 `sublist_of` entries.*1.
Proof.
  induction entries as [|entry entries IH]; [done|].
  rewrite served_cons. cbn.
  destruct (entry.2 !! gid); cbn.
  - by apply sublist_skip.
  - by apply sublist_cons.
Qed.

Lemma served_NoDup (raft_gr : list (gmap group_id server)) :
  NoDup (served gid (imap (λ shard r, (shard, r)) raft_gr)).*1.
Proof.
  eapply sublist_NoDup; [|apply served_fst_sublist].
  rewrite fmap_imap.
  replace (imap (λ n, fst ∘ (λ r : gmap group_id server, (n, r))) raft_gr)
    with (seq 0 (length raft_gr)); [apply NoDup_seq|].
  symmetry. etrans; [apply (imap_seq_0 raft_gr (λ j, j))|]. apply list_fmap_id.
Qed.

End trigger_snapshot_facts.

Section trigger_snapshot_results.

Context {group_id : Type} `{Countable group_id} {server time_point : Type}.
Variable parse_group_id : request → result group_id.
Variable format_group_id : group_id → string.
Variable expiry : nat → Z → time_point.
Variable trigger_snapshot : nat → server → time_point → result bool.
Variable raft_gr : list (gmap group_id server).
Variable completion : list (nat * gmap group_id server).
Variable pick : nat.
Variable req : request.
Variable gid : group_id.
Variable timeout : Z.
Hypothesis Hschedule : registry_schedule raft_gr completion.
Hypothesis Hgid : parse_group_id req = Ok gid.
Hypothesis Htimeout : timeout_dur (get_query_param req "timeout") = Ok timeout.

Local Abbreviation handler :=
  (trigger_snapshot_handler parse_group_id format_group_id expiry
     trigger_snapshot completion pick req).
Local Abbreviation final :=
  (foldl (snapshot_on_shard expiry trigger_snapshot gid timeout) snapshot_start
     completion).

Lemma served_schedule :
  served gid completion ≡ₚ served gid (imap (λ shard r, (shard, r)) raft_gr).
Proof. unfold served. by rewrite Hschedule. Qed.

Lemma elem_of_served_completion shard srv :
  (shard, srv) ∈ served gid completion ↔ serves raft_gr gid shard srv.
Proof. by rewrite served_schedule, elem_of_served. Qed.

Lemma final_state :
  found_srv final = match served gid completion with [] => false | _ => true end
  ∧ snapshot_failed final
    = omap (failure_of expiry trigger_snapshot timeout) (served gid completion)
  ∧ snapshot_triggered final
    = request_of expiry timeout <$> served gid completion.
Proof.
  apply (foldl_snapshot_on_shard expiry trigger_snapshot gid timeout completion
           snapshot_start).
Qed.

Lemma handler_cases :
  handler
  = match pick_one pick (snapshot_failed final) with
    | Some e => (Err e, snapshot_triggered final)
    | None =>
        if found_srv final
        then (Ok tt, snapshot_triggered final)
        else (Err (runtime_error (server_not_found format_group_id gid)),
              snapshot_triggered final)
    end.
Proof. unfold trigger_snapshot_handler. by rewrite Hgid, Htimeout. Qed.

Lemma failure_of_None_iff :
  omap (failure_of expiry trigger_snapshot timeout) (served gid completion)
  = []
  ↔ ∀ shard srv, serves raft_gr gid shard srv →
                 succeeded (trigger_snapshot shard srv (expiry shard timeout)).
Proof.
  split.
  - intros Hnil shard srv Hin%elem_of_served_completion.
    destruct (trigger_snapshot shard srv (expiry shard timeout)) as [b|e]
      eqn:Htr; [done|].
    assert (e ∈ omap (failure_of expiry trigger_snapshot timeout)
                     (served gid completion)) as Hin'.
    { apply list_elem_of_omap. exists (shard, srv). split; [done|].
      unfold failure_of. cbn. by rewrite Htr. }
    rewrite Hnil in Hin'. by apply elem_of_nil in Hin'.
  - intros Hall.
    destruct (omap _ (served gid completion)) as [|e es] eqn:E; [done|].
    assert (e ∈ omap (failure_of expiry trigger_snapshot timeout)
                     (served gid completion)) as Hin by (rewrite E; left).
    apply list_elem_of_omap in Hin as ([shard srv] & Hin & Hf).
    apply elem_of_served_completion, Hall in Hin.
    unfold failure_of in Hf. cbn in Hf.
    by destruct (trigger_snapshot shard srv (expiry shard timeout)).
Qed.

Lemma handler_ok :
  handler.1 = Ok tt
  ↔ (∃ shard srv, serves raft_gr gid shard srv)
    ∧ ∀ shard srv, serves raft_gr gid shard srv →
                   succeeded (trigger_snapshot shard srv (expiry shard timeout)).
Proof.
  rewrite handler_cases. destruct final_state as (Hfound & Hfailed & _).
  rewrite <-failure_of_None_iff, <-Hfailed.
  destruct (pick_one pick (snapshot_failed final)) as [e|] eqn:Hpick.
  - split; [done|]. intros [_ Hnil]. rewrite Hnil in Hpick. done.
  - apply pick_one_None in Hpick. rewrite Hfound.
    destruct (served gid completion) as [|[shard srv] l] eqn:Hserved; cbn.
    + split; [done|]. intros [(shard & srv & Hin%elem_of_served_completion) _].
      rewrite Hserved in Hin. by apply elem_of_nil in Hin.
    + split; [|done]. intros _. split; [|done].
      exists shard, srv. apply elem_of_served_completion. rewrite Hserved. left.
Qed.

Lemma handler_not_found :
  (∀ shard srv, ¬ serves raft_gr gid shard srv) →
  handler.1 = Err (runtime_error (server_not_found format_group_id gid)).
Proof.
  intros Hnone. rewrite handler_cases.
  destruct final_state as (Hfound & Hfailed & _).
  assert (served gid completion = []) as Hnil.
  { destruct (served gid completion) as [|[shard srv] l] eqn:E; [done|].
    destruct (Hnone shard srv). apply elem_of_served_completion.
    rewrite E. left. }
  rewrite Hfailed, Hfound, Hnil. done.
Qed.

Lemma handler_failed e :
  handler.1 = Err e →
  (∃ shard srv, serves raft_gr gid shard srv
                ∧ trigger_snapshot shard srv (expiry shard timeout) = Err e)
  ∨ (e = runtime_error (server_not_found format_group_id gid)
     ∧ ∀ shard srv, ¬ serves raft_gr gid shard srv).
Proof.
  rewrite handler_cases. destruct final_state as (Hfound & Hfailed & _).
  destruct (pick_one pick (snapshot_failed final)) as [e'|] eqn:Hpick.
  - cbn. intros [= ->]. left. apply pick_one_Some in Hpick.
    rewrite Hfailed in Hpick.
    apply list_elem_of_omap in Hpick as ([shard srv] & Hin & Hf).
    exists shard, srv. split; [by apply elem_of_served_completion|].
    unfold failure_of in Hf. cbn in Hf.
    destruct (trigger_snapshot shard srv (expiry shard timeout));
      by simplify_eq.
  - rewrite Hfound.
    destruct (served gid completion) as [|s l] eqn:Hserved; [|done].
    cbn. intros [= <-]. right. split; [done|].
    intros shard srv Hin%elem_of_served_completion.
    rewrite Hserved in Hin. by apply elem_of_nil in Hin.
Qed.

Lemma handler_requests :
  (∀ shard srv deadline,
     (shard, srv, deadline) ∈ handler.2
     ↔ serves raft_gr gid shard srv ∧ deadline = expiry shard timeout)
  ∧ NoDup (handler.2).*1.*1.
Proof.
  assert (handler.2 = request_of expiry timeout <$> served gid completion) as ->.
  { rewrite handler_cases. destruct final_state as (_ & _ & <-).
    destruct (pick_one pick (snapshot_failed final)); [done|].
    by destruct (found_srv final). }
  split.
  - intros shard srv deadline. rewrite list_elem_of_fmap. split.
    + intros ([s v] & [= -> -> ->] & Hin%elem_of_served_completion). done.
    + intros [Hin%elem_of_served_completion ->]. by exists (shard, srv).
  - assert ((request_of expiry timeout <$> served gid completion).*1.*1
            = (served gid completion).*1) as ->.
    { induction (served gid completion) as [|[s v] l IH]; [done|].
      cbn. by f_equal. }
    rewrite served_schedule. apply served_NoDup.
Qed.

End trigger_snapshot_results.

(** X8: with a valid group id and timeout, the [trigger_snapshot] handler
    answers [json_void] exactly when some shard has a server for the group
    and the snapshot request throws on none of the shards that have one,
    whatever the requests return; it fails with "Server for group ID ... not
    found" when no shard has a server; and every exception of the handler
    is that one, with no shard that has a server, or the exception of a
    snapshot request on a shard that has one. *)
Theorem trigger_snapshot_result {group_id : Type} `{Countable group_id}
    {server time_point : Type}
    (parse_group_id : request → result group_id)
    (format_group_id : group_id → string)
    (expiry : nat → Z → time_point)
    (trigger_snapshot : nat → server → time_point → result bool)
    (raft_gr : list (gmap group_id server))
    (completion : list (nat * gmap group_id server)) (pick : nat)
    (req : request) (gid : group_id) (timeout : Z) :
  registry_schedule raft_gr completion →
  parse_group_id req = Ok gid →
  timeout_dur (get_query_param req "timeout") = Ok timeout →
  let answer :=
    (trigger_snapshot_handler parse_group_id format_group_id expiry
       trigger_snapshot completion pick req).1 in
  (answer = Ok tt
   ↔ (∃ shard srv, serves raft_gr gid shard srv)
     ∧ ∀ shard srv, serves raft_gr gid shard srv →
         succeeded (trigger_snapshot shard srv (expiry shard timeout)))
  ∧ ((∀ shard srv, ¬ serves raft_gr gid shard srv) →
     answer = Err (runtime_error (server_not_found format_group_id gid)))
  ∧ (∀ e, answer = Err e →
       (∃ shard srv, serves raft_gr gid shard srv
          ∧ trigger_snapshot shard srv (expiry shard timeout) = Err e)
       ∨ (e = runtime_error (server_not_found format_group_id gid)
          ∧ ∀ shard srv, ¬ serves raft_gr gid shard srv)).
Proof.
  intros Hs Hgid Ht. split_and!.
  - by apply handler_ok.
  - by eapply handler_not_found.
  - by apply handler_failed.
Qed.

(** X9: with a valid group id, the [trigger_snapshot] handler asks for a
    snapshot on exactly the shards that have a server for the group, once
    on each, with the time point that [lowres_clock::now() + timeout_dur]
    gives on that shard as the deadline; when the timeout is rejected it
    fails with that error and asks no shard for a snapshot. *)
Theorem trigger_snapshot_requests {group_id : Type} `{Countable group_id}
    {server time_point : Type}
    (parse_group_id : request → result group_id)
    (format_group_id : group_id → string)
    (expiry : nat → Z → time_point)
    (trigger_snapshot : nat → server → time_point → result bool)
    (raft_gr : list (gmap group_id server))
    (completion : list (nat * gmap group_id server)) (pick : nat)
    (req : request) (gid : group_id) :
  registry_schedule raft_gr completion →
  parse_group_id req = Ok gid →
  let run :=
    trigger_snapshot_handler parse_group_id format_group_id expiry
      trigger_snapshot completion pick req in
  match timeout_dur (get_query_param req "timeout") with
  | Ok timeout =>
      (∀ shard srv deadline,
         (shard, srv, deadline) ∈ run.2
         ↔ serves raft_gr gid shard srv ∧ deadline = expiry shard timeout)
      ∧ NoDup (run.2).*1.*1
  | Err e => run = (Err e, [])
  end.
Proof.
  intros Hs Hgid. cbn zeta.
  destruct (timeout_dur (get_query_param req "timeout")) as [timeout|e]
    eqn:Ht.
  - by apply handler_requests.
  - unfold trigger_snapshot_handler. by rewrite Hgid, Ht.
Qed.

Lemma sample_raft_schedule :
  registry_schedule sample_raft_gr sample_raft_completion.
Proof. apply perm_swap. Defined.

Lemma trigger_snapshot_result_witness :
  registry_schedule sample_raft_gr sample_raft_completion
  ∧ sample_parse_group_id sample_request = Ok 1%nat
  ∧ timeout_dur (get_query_param sample_request "timeout") = Ok 30
  ∧ (trigger_snapshot_handler sample_parse_group_id (λ _, "g") sample_expiry
       sample_trigger sample_raft_completion 0 sample_request).1 = Ok tt.
Proof.
  split; [exact sample_raft_schedule|]. split; [reflexivity|].
  split; [reflexivity|].
  apply (proj1 (trigger_snapshot_result sample_parse_group_id (λ _, "g")
                  sample_expiry sample_trigger sample_raft_gr
                  sample_raft_completion 0 sample_request 1%nat 30
                  sample_raft_schedule eq_refl eq_refl)).
  split.
  - exists 0%nat, 10%nat. by exists {[ 1%nat := 10%nat ]}.
  - intros shard srv _. exact I.
Defined.

Lemma trigger_snapshot_requests_witness :
  registry_schedule sample_raft_gr sample_raft_completion
  ∧ sample_parse_group_id sample_request = Ok 1%nat
  ∧ (∀ shard srv deadline,
       (shard, srv, deadline)
         ∈ (trigger_snapshot_handler sample_parse_group_id (λ _, "g")
              sample_expiry sample_trigger sample_raft_completion 0
              sample_request).2
       ↔ serves sample_raft_gr 1%nat shard srv
         ∧ deadline = sample_expiry shard 30).
Proof.
  split; [exact sample_raft_schedule|]. split; [reflexivity|].
  exact (proj1 (trigger_snapshot_requests sample_parse_group_id (λ _, "g")
                  sample_expiry sample_trigger sample_raft_gr
                  sample_raft_completion 0 sample_request 1%nat
                  sample_raft_schedule eq_refl)).
Defined.

Example trigger_snapshot_sample :
  trigger_snapshot_handler sample_parse_group_id (λ _, "g") sample_expiry
    sample_trigger sample_raft_completion 0 sample_request
  = (Ok tt, [(0%nat, 10%nat, 1030); (2%nat, 12%nat, 1032)]).
Proof. reflexivity. Qed.

(** ** test/perf/tablet_load_balancing.cc: [get_tablet_count] *)

Lemma sum_list_Permutation (l1 l2 : list nat) :
  l1 ≡ₚ l2 → sum_list l1 = sum_list l2.
Proof. induction 1; cbn; lia. Qed.

Lemma size_t_wrap_add_r (a b : N) :
  size_t_wrap (a + size_t_wrap b) = size_t_wrap (a + b).
Proof. unfold size_t_wrap. apply N.Div0.add_mod_idemp_r. Qed.

Lemma size_t_wrap_add_l (a b : N) :
  size_t_wrap (size_t_wrap a + b) = size_t_wrap (a + b).
Proof. unfold size_t_wrap. apply N.Div0.add_mod_idemp_l. Qed.

Lemma size_t_wrap_small (a : N) : (a < size_t_modulus)%N → size_t_wrap a = a.
Proof. apply N.mod_small. Qed.

(** A sum accumulated in [size_t] is the sum, wrapped once. *)
Lemma foldl_size_t_sum {A} (f : A → N) (g : A → nat) (l : list A) (a : N) :
  (∀ x, size_t_wrap (f x) = size_t_wrap (N.of_nat (g x))) →
  size_t_wrap (foldl (λ acc x, size_t_wrap (acc + f x)) a l)
  = size_t_wrap (a + N.of_nat (sum_list (g <$> l))).
Proof.
  intros Hfg. revert a. induction l as [|x l IH]; intros a.
  - cbn. by rewrite N.add_0_r.
  - cbn [foldl fmap list_fmap sum_list sum_list_with]. rewrite IH.
    rewrite size_t_wrap_add_l, <-N.add_assoc.
    rewrite <-(size_t_wrap_add_r a (f x + _)), <-(size_t_wrap_add_l (f x)).
    rewrite Hfg, size_t_wrap_add_l, size_t_wrap_add_r.
    by rewrite Nat2N.inj_add.
Qed.

Lemma foldl_size_t_wrapped {A} (f : A → N) (l : list A) (a : N) :
  size_t_wrap a = a →
  size_t_wrap (foldl (λ acc x, size_t_wrap (acc + f x)) a l)
  = foldl (λ acc x, size_t_wrap (acc + f x)) a l.
Proof.
  revert a. induction l as [|x l IH]; intros a Ha; [done|].
  cbn. apply IH. unfold size_t_wrap. by rewrite N.Div0.mod_mod.
Qed.

Lemma accumulate_replicas_sum (tmap : tablet_map) :
  accumulate_replicas tmap
  = size_t_wrap
      (N.of_nat (sum_list ((λ info, length (replicas info)) <$> tablets tmap))).
Proof.
  unfold accumulate_replicas.
  rewrite <-foldl_size_t_wrapped by done.
  by rewrite (foldl_size_t_sum _ (λ info, length (replicas info))).
Qed.

Lemma get_tablet_count_over_sum (tables : list (table_id * tablet_map)) :
  get_tablet_count_over tables
  = size_t_wrap
      (N.of_nat
         (sum_list ((λ entry : table_id * tablet_map,
                       sum_list ((λ info, length (replicas info))
                                   <$> tablets entry.2))
                      <$> tables))).
Proof.
  unfold get_tablet_count_over.
  rewrite <-foldl_size_t_wrapped by done.
  rewrite (foldl_size_t_sum _
             (λ entry : table_id * tablet_map,
                sum_list ((λ info, length (replicas info))
                            <$> tablets entry.2))); [done|].
  intros entry. rewrite accumulate_replicas_sum.
  unfold size_t_wrap. by rewrite N.Div0.mod_mod.
Qed.

(** X10: [get_tablet_count] is the number of replicas of all tablets of all
    tables, modulo [2^64], hence that number when it fits [size_t]; the
    order in which the tables are visited does not matter. *)
Theorem get_tablet_count_total (tm : tablet_metadata) :
  get_tablet_count tm = size_t_wrap (total_replicas tm)
  ∧ ((total_replicas tm < size_t_modulus)%N →
     get_tablet_count tm = total_replicas tm)
  ∧ (∀ tables, tables ≡ₚ map_to_list tm →
               get_tablet_count_over tables = get_tablet_count tm).
Proof.
  assert (get_tablet_count tm = size_t_wrap (total_replicas tm)) as Htotal
    by apply get_tablet_count_over_sum.
  split_and!; [done| |].
  - intros Hsmall. by rewrite Htotal, size_t_wrap_small.
  - intros tables Hperm. unfold get_tablet_count.
    rewrite !get_tablet_count_over_sum. do 2 f_equal.
    apply sum_list_Permutation. by rewrite Hperm.
Qed.

(** ** [apply_resize_plan] *)

Section keyed_updates.

Context {A : Type} (key : A → table_id) (upd : A → tablet_map → tablet_map).

Lemma for_each_keyed_update (l : list A) : ∀ tm : tablet_metadata,
  NoDup (key <$> l) →
  Forall (λ x, is_Some (tm !! key x)) l →
  ∃ tm', for_each (keyed_update key upd) tm l = Ok tm'
         ∧ (∀ x, x ∈ l → tm' !! key x = upd x <$> tm !! key x)
         ∧ (∀ k, k ∉ key <$> l → tm' !! k = tm !! k).
Proof.
  induction l as [|x l IH]; intros tm Hnd Hall.
  - exists tm. split_and!; [done| |done]. intros x Hx. by apply elem_of_nil in Hx.
  - apply NoDup_cons in Hnd as [Hx Hnd].
    apply Forall_cons in Hall as [[v Hv] Hall].
    cbn [for_each]. unfold keyed_update at 1, get_tablet_map. rewrite Hv.
    destruct (IH (<[key x := upd x v]> tm) Hnd) as (tm' & Hrun & Hin & Hout).
    { eapply Forall_impl; [exact Hall|]. intros y Hy. cbn in Hy.
      rewrite lookup_insert_is_Some'. by right. }
    exists tm'. split_and!; [done| |].
    + intros y [->|Hy]%elem_of_cons.
      * rewrite (Hout (key x) Hx), lookup_insert_eq, Hv. done.
      * rewrite (Hin y Hy). rewrite lookup_insert_ne; [done|].
        intros Heq. apply Hx. rewrite Heq. by apply list_elem_of_fmap_2.
    + intros k Hk. apply not_elem_of_cons in Hk as [Hne Hk].
      rewrite (Hout k Hk). by rewrite lookup_insert_ne.
Qed.

(** Updates that keep the replicas of every tablet keep them in the whole
    metadata, also when a table is updated more than once. *)
Lemma for_each_keyed_update_counts (l : list A) : ∀ tm : tablet_metadata,
  (∀ x tmap, replica_counts (upd x tmap) = replica_counts tmap) →
  Forall (λ x, is_Some (tm !! key x)) l →
  ∃ tm', for_each (keyed_update key upd) tm l = Ok tm'
         ∧ replica_counts <$> tm' = replica_counts <$> tm.
Proof.
  induction l as [|x l IH]; intros tm Hupd Hall; [by exists tm|].
  apply Forall_cons in Hall as [[v Hv] Hall].
  cbn [for_each]. unfold keyed_update at 1, get_tablet_map. rewrite Hv.
  destruct (IH (<[key x := upd x v]> tm) Hupd) as (tm' & Hrun & Hcounts).
  { eapply Forall_impl; [exact Hall|]. intros y Hy. cbn in Hy.
    rewrite lookup_insert_is_Some'. by right. }
  exists tm'. split; [done|]. rewrite Hcounts, fmap_insert.
  apply insert_id. by rewrite lookup_fmap, Hv, Hupd.
Qed.

End keyed_updates.

Lemma apply_resize_keyed :
  apply_resize = keyed_update fst (λ entry, with_decision entry.2).
Proof. reflexivity. Qed.

Lemma apply_finalize_resize_keyed (new_tablet_map : N → tablet_map) :
  apply_finalize_resize new_tablet_map
  = keyed_update id (λ _, doubled new_tablet_map).
Proof. reflexivity. Qed.

Lemma elem_of_fst {A B} (x : A) (y : B) (l : list (A * B)) :
  (x, y) ∈ l → x ∈ l.*1.
Proof. intros Hin. by apply (list_elem_of_fmap_2 fst) in Hin. Qed.

Lemma seq_number_wrap_small (z : Z) :
  - 2 ^ 63 ≤ z ≤ resize_decision.seq_number_max →
  resize_decision.seq_number_wrap z = z.
Proof.
  unfold resize_decision.seq_number_wrap, resize_decision.seq_number_max.
  intros Hz. rewrite Z.mod_small; lia.
Qed.

Lemma apply_resize_plan_tables (new_tablet_map : N → tablet_map)
    (tm : tablet_metadata) (plan : migration_plan) :
  resize_plan_distinct (resize_plan plan) →
  resize_plan_covered tm (resize_plan plan) →
  ∃ tm',
    apply_resize_plan new_tablet_map tm plan = Ok tm'
    ∧ (∀ table, table ∈ finalize_resize (resize_plan plan) →
                tm' !! table = doubled new_tablet_map <$> tm !! table)
    ∧ (∀ table d, (table, d) ∈ resize (resize_plan plan) →
                  table ∉ finalize_resize (resize_plan plan) →
                  tm' !! table = with_decision d <$> tm !! table)
    ∧ (∀ table, table ∉ (resize (resize_plan plan)).*1 →
                table ∉ finalize_resize (resize_plan plan) →
                tm' !! table = tm !! table).
Proof.
  intros [Hnd1 Hnd2] [Hresize Hfinal]. unfold apply_resize_plan.
  rewrite apply_resize_keyed, apply_finalize_resize_keyed.
  destruct (for_each_keyed_update fst (λ entry, with_decision entry.2)
              (resize (resize_plan plan)) tm Hnd1)
    as (tm1 & -> & Hin1 & Hout1).
  { apply Forall_forall. intros [table d] Hin. cbn.
    by eapply Hresize, elem_of_fst. }
  assert (∀ table, is_Some (tm1 !! table) ↔ is_Some (tm !! table)) as Hdom.
  { intros table.
    destruct (decide (table ∈ (resize (resize_plan plan)).*1)) as [Hin|Hin].
    - apply list_elem_of_fmap in Hin as ([t d] & -> & Hin).
      rewrite (Hin1 _ Hin). cbn. apply fmap_is_Some.
    - by rewrite (Hout1 _ Hin). }
  destruct (for_each_keyed_update id (λ _, doubled new_tablet_map)
              (finalize_resize (resize_plan plan)) tm1)
    as (tm2 & -> & Hin2 & Hout2).
  { by rewrite list_fmap_id. }
  { apply Forall_forall. intros table Hin. cbn. by apply Hdom, Hfinal. }
  exists tm2. split_and!; [done| | |].
  - intros table Hin. pose proof (Hin2 table Hin) as H2. cbn in H2.
    rewrite H2.
    destruct (decide (table ∈ (resize (resize_plan plan)).*1)) as [Hr|Hr].
    + apply list_elem_of_fmap in Hr as ([t d] & -> & Hr).
      rewrite (Hin1 _ Hr). cbn. by destruct (tm !! t).
    + by rewrite (Hout1 _ Hr).
  - intros table d Hin Hnot.
    rewrite Hout2 by (by rewrite list_fmap_id). apply (Hin1 (table, d) Hin).
  - intros table Hnot1 Hnot2.
    rewrite Hout2 by (by rewrite list_fmap_id). by apply Hout1.
Qed.

(** X11: when no table comes twice in either container of the resize plan
    and all its tables have a map, [apply_resize_plan] returns; a table of
    [finalize_resize] then has a new map of twice its tablet count, also
    when the plan has a resize decision for it; any other table of [resize]
    keeps its tablets and has the kind of decision of the plan, with the
    sequence number of its previous decision plus one when that one is
    below the largest sequence number; the remaining tables are as
    before. *)
Theorem apply_resize_plan_spec (new_tablet_map : N → tablet_map)
    (tm : tablet_metadata) (plan : migration_plan) :
  resize_plan_distinct (resize_plan plan) →
  resize_plan_covered tm (resize_plan plan) →
  ∃ tm',
    apply_resize_plan new_tablet_map tm plan = Ok tm'
    ∧ (∀ table, table ∈ finalize_resize (resize_plan plan) →
                tm' !! table = doubled new_tablet_map <$> tm !! table)
    ∧ (∀ table d tmap,
         (table, d) ∈ resize (resize_plan plan) →
         table ∉ finalize_resize (resize_plan plan) →
         tm !! table = Some tmap →
         ∃ tmap',
           tm' !! table = Some tmap'
           ∧ tablets tmap' = tablets tmap
           ∧ resize_decision.way (resize_decision_of tmap')
             = resize_decision.way d
           ∧ (- 2 ^ 63
              ≤ resize_decision.sequence_number (resize_decision_of tmap)
              < resize_decision.seq_number_max →
              resize_decision.sequence_number (resize_decision_of tmap')
              = resize_decision.sequence_number (resize_decision_of tmap)
                + 1))
    ∧ (∀ table, table ∉ (resize (resize_plan plan)).*1 →
                table ∉ finalize_resize (resize_plan plan) →
                tm' !! table = tm !! table).
Proof.
  intros Hdistinct Hcovered.
  destruct (apply_resize_plan_tables new_tablet_map tm plan Hdistinct
              Hcovered) as (tm' & Hrun & Hfinal & Hresize & Hrest).
  exists tm'. split_and!; [done..| |done].
  intros table d tmap Hin Hnot Htmap.
  exists (with_decision d tmap). rewrite (Hresize table d Hin Hnot), Htmap.
  split_and!; [done..|]. intros Hseq. cbn.
  apply seq_number_wrap_small. unfold resize_decision.seq_number_max in *.
  lia.
Qed.

(** ** [apply_plan] *)

Lemma replica_counts_length (tmap : tablet_map) :
  length (replica_counts tmap) = length (tablets tmap).
Proof. unfold replica_counts. apply length_fmap. Qed.

Lemma migration_valid_counts (tm tm' : tablet_metadata) mig :
  replica_counts <$> tm' = replica_counts <$> tm →
  migration_valid tm mig → migration_valid tm' mig.
Proof.
  intros Heq (tmap & Htmap & Hlt).
  assert ((replica_counts <$> tm') !! table (migration_tablet mig)
          = Some (replica_counts tmap)) as Hl
    by (by rewrite Heq, lookup_fmap, Htmap).
  rewrite lookup_fmap in Hl.
  destruct (tm' !! table (migration_tablet mig)) as [tmap'|] eqn:Htmap';
    [|done].
  exists tmap'. split; [done|]. injection Hl as Hl.
  by rewrite <-replica_counts_length, Hl, replica_counts_length.
Qed.

Lemma is_Some_counts (tm tm' : tablet_metadata) (table : table_id) :
  replica_counts <$> tm' = replica_counts <$> tm →
  is_Some (tm !! table) → is_Some (tm' !! table).
Proof.
  intros Heq Hsome. rewrite <-(fmap_is_Some replica_counts), <-lookup_fmap.
  by rewrite Heq, lookup_fmap, fmap_is_Some.
Qed.

Lemma total_replicas_counts (tm tm' : tablet_metadata) :
  replica_counts <$> tm' = replica_counts <$> tm →
  total_replicas tm' = total_replicas tm.
Proof.
  intros Heq. unfold total_replicas. f_equal.
  assert (∀ m : tablet_metadata,
            (λ entry : table_id * tablet_map,
               sum_list ((λ info, length (replicas info)) <$> tablets entry.2))
              <$> map_to_list m
            = (λ entry : table_id * list nat, sum_list entry.2)
                <$> map_to_list (replica_counts <$> m)) as Hvia.
  { intros m. rewrite map_to_list_fmap, <-list_fmap_compose.
    apply list_fmap_ext. by intros i [table tmap] _. }
  by rewrite !Hvia, Heq.
Qed.

Section apply_plan_facts.

Variable replace_replica :
  list tablet_replica → tablet_replica → tablet_replica → list tablet_replica.
Variable new_tablet_map : N → tablet_map.
Hypothesis replace_replica_length :
  ∀ rs old_replica new_replica,
    length (replace_replica rs old_replica new_replica) = length rs.

Lemma apply_migration_Ok tm mig :
  migration_valid tm mig →
  ∃ tm', apply_migration replace_replica tm mig = Ok tm'
         ∧ replica_counts <$> tm' = replica_counts <$> tm.
Proof.
  intros (tmap & Htmap & Hlt). unfold apply_migration, get_tablet_map.
  rewrite Htmap. unfold get_tablet_info.
  destruct (lookup_lt_is_Some_2 _ _ Hlt) as [tinfo Htinfo].
  rewrite Htinfo. unfold set_tablet. rewrite decide_True by done.
  eexists. split; [done|].
  rewrite fmap_insert. apply insert_id. rewrite lookup_fmap, Htmap. cbn.
  f_equal. unfold replica_counts. cbn.
  rewrite list_fmap_insert. cbn. rewrite replace_replica_length.
  symmetry. apply list_insert_id. by rewrite list_lookup_fmap, Htinfo.
Qed.

Lemma for_each_apply_migration migs : ∀ tm,
  Forall (migration_valid tm) migs →
  ∃ tm', for_each (apply_migration replace_replica) tm migs = Ok tm'
         ∧ replica_counts <$> tm' = replica_counts <$> tm.
Proof.
  induction migs as [|mig migs IH]; intros tm Hall; [by exists tm|].
  apply Forall_cons in Hall as [Hmig Hall]. cbn [for_each].
  destruct (apply_migration_Ok tm mig Hmig) as (tm1 & -> & H1).
  destruct (IH tm1) as (tm' & Hrun & H').
  { eapply Forall_impl; [exact Hall|]. intros m.
    by apply migration_valid_counts. }
  exists tm'. split; [done|]. by rewrite H'.
Qed.

Lemma apply_plan_counts tm plan :
  plan_moves_only tm plan →
  ∃ tm', apply_plan replace_replica new_tablet_map tm plan = Ok tm'
         ∧ replica_counts <$> tm' = replica_counts <$> tm.
Proof.
  intros (Hmigs & Hresize & Hfinal). unfold apply_plan.
  destruct (for_each_apply_migration (migrations plan) tm Hmigs)
    as (tm1 & -> & H1).
  unfold apply_resize_plan. rewrite apply_resize_keyed, Hfinal.
  destruct (for_each_keyed_update_counts fst (λ entry, with_decision entry.2)
              (resize (resize_plan plan)) tm1) as (tm2 & -> & H2).
  { done. }
  { apply Forall_forall. intros [table d] Hin. cbn.
    by eapply (is_Some_counts tm), Hresize, elem_of_fst. }
  exists tm2. split; [done|]. by rewrite H2.
Qed.

End apply_plan_facts.

(** X12: a plan that migrates tablets the metadata has, decides on resizes
    of tables it has and finalizes none is carried out by [apply_plan], with
    any [replace_replica] that keeps the number of replicas, without adding
    or removing a replica: every tablet of every table has as many replicas
    as before, and [get_tablet_count] is the same. *)
Theorem apply_plan_keeps_replica_counts
    (replace_replica : list tablet_replica → tablet_replica → tablet_replica
                       → list tablet_replica)
    (new_tablet_map : N → tablet_map) (tm : tablet_metadata)
    (plan : migration_plan) :
  (∀ rs old_replica new_replica,
     length (replace_replica rs old_replica new_replica) = length rs) →
  plan_moves_only tm plan →
  ∃ tm', apply_plan replace_replica new_tablet_map tm plan = Ok tm'
         ∧ (∀ table, replica_counts <$> tm' !! table
                     = replica_counts <$> tm !! table)
         ∧ get_tablet_count tm' = get_tablet_count tm.
Proof.
  intros Hlen Hplan.
  destruct (apply_plan_counts replace_replica new_tablet_map Hlen tm plan Hplan)
    as (tm' & Hrun & Hcounts).
  exists tm'. split_and!; [done| |].
  - intros table. by rewrite <-!lookup_fmap, Hcounts.
  - unfold get_tablet_count. rewrite !get_tablet_count_over_sum.
    f_equal. by apply total_replicas_counts.
Qed.

(** ** [rebalance_tablets] *)

(** The limit of [rebalance_tablets] is odd, also when it wraps around: the
    loop runs at least once. *)
Lemma max_iterations_odd {topology} (tm : @token_metadata topology) :
  (max_iterations tm mod 2 = 1)%N.
Proof.
  unfold max_iterations, size_t_wrap, size_t_modulus.
  set (count := get_tablet_count (tm_tablets tm)).
  assert (∀ n, (n mod 2 ^ 64) mod 2 = n mod 2)%N as Hmod.
  { intros n. change (2 ^ 64)%N with (2 * 2 ^ 63)%N.
    rewrite N.Div0.mod_mul_r. rewrite N.mul_comm, N.Div0.mod_add.
    by rewrite N.Div0.mod_mod. }
  rewrite Hmod, <-N.Div0.add_mod_idemp_r, Hmod.
  rewrite N.Div0.add_mod_idemp_r.
  replace (1 + count * 10)%N with (1 + (count * 5) * 2)%N by lia.
  by rewrite N.Div0.mod_add.
Qed.

Lemma max_iterations_S {topology} (tm : @token_metadata topology) :
  ∃ fuel, N.to_nat (max_iterations tm) = S fuel.
Proof.
  pose proof (max_iterations_odd tm) as Hodd.
  destruct (N.to_nat (max_iterations tm)) as [|fuel] eqn:Hfuel; [|by eexists].
  assert (max_iterations tm = 0%N) as Hzero by lia.
  by rewrite Hzero in Hodd.
Qed.

Section rebalance_tablets_facts.

Context {allocator topology load_stats skiplist : Type}.
Variable replace_replica :
  list tablet_replica → tablet_replica → tablet_replica → list tablet_replica.
Variable new_tablet_map : N → tablet_map.
Variable balance_tablets :
  allocator → @token_metadata topology → load_stats → skiplist
  → result (migration_plan * allocator).
Variable plan_empty : migration_plan → bool.
Variable load : load_stats.
Variable skip : skiplist.

Hypothesis replace_replica_length :
  ∀ rs old_replica new_replica,
    length (replace_replica rs old_replica new_replica) = length rs.
Hypothesis plans_move_only :
  ∀ talloc tm plan talloc',
    balance_tablets talloc tm load skip = Ok (plan, talloc') →
    plan_empty plan = false →
    plan_moves_only (tm_tablets tm) plan.

Lemma rebalance_loop_counts fuel : ∀ talloc tm,
  match
    rebalance_loop replace_replica new_tablet_map balance_tablets plan_empty
      fuel load skip talloc tm
  with
  | Ok (talloc', tm') =>
      replica_counts <$> tm_tablets tm' = replica_counts <$> tm_tablets tm
  | Err e =>
      e = runtime_error convergence_not_reached
      ∨ ∃ talloc0 tm0, balance_tablets talloc0 tm0 load skip = Err e
  end.
Proof.
  induction fuel as [|fuel IH]; intros talloc tm; [by left|].
  cbn [rebalance_loop].
  destruct (balance_tablets talloc tm load skip) as [[plan talloc1]|e]
    eqn:Hplan; [|right; by exists talloc, tm].
  destruct (plan_empty plan) eqn:Hempty; [done|].
  unfold mutate_token_metadata, apply_plan_to.
  destruct (apply_plan_counts replace_replica new_tablet_map
              replace_replica_length (tm_tablets tm) plan)
    as (tablets' & -> & Hcounts).
  { by eapply plans_move_only. }
  specialize (IH talloc1
                {| tm_tablets := tablets'; tm_topology := tm_topology tm |}).
  destruct (rebalance_loop _ _ _ _ fuel load skip talloc1 _) as [[? tm']|e];
    [|done].
  cbn in IH. by rewrite IH.
Qed.

End rebalance_tablets_facts.

(** X13: when the allocator has nothing to move at the first call,
    [rebalance_tablets] returns with the token metadata as it was, whatever
    the number of tablets: the limit of iterations is never 0, wrapped
    around or not. *)
Theorem rebalance_tablets_balanced
    {allocator topology load_stats skiplist : Type}
    (replace_replica : list tablet_replica → tablet_replica → tablet_replica
                       → list tablet_replica)
    (new_tablet_map : N → tablet_map)
    (balance_tablets : allocator → @token_metadata topology → load_stats
                       → skiplist → result (migration_plan * allocator))
    (plan_empty : migration_plan → bool)
    (talloc talloc' : allocator) (stm : token_metadata) (load : load_stats)
    (skip : skiplist) (plan : migration_plan) :
  balance_tablets talloc stm load skip = Ok (plan, talloc') →
  plan_empty plan = true →
  rebalance_tablets replace_replica new_tablet_map balance_tablets plan_empty
    talloc stm load skip
  = Ok (talloc', stm).
Proof.
  intros Hplan Hempty. unfold rebalance_tablets.
  destruct (max_iterations_S stm) as [fuel ->].
  cbn [rebalance_loop]. by rewrite Hplan, Hempty.
Qed.

(** X15: when [replace_replica] keeps the number of replicas and every plan
    of the allocator that is not empty migrates tablets that exist, decides
    on resizes of tables that exist and finalizes none, [rebalance_tablets]
    neither adds nor removes a replica: when it returns, every tablet has
    as many replicas as before and [get_tablet_count] is the same; and it
    throws nothing but the allocator's exceptions and, past the limit,
    "convergence not reached". *)
Theorem rebalance_tablets_keeps_replica_counts
    {allocator topology load_stats skiplist : Type}
    (replace_replica : list tablet_replica → tablet_replica → tablet_replica
                       → list tablet_replica)
    (new_tablet_map : N → tablet_map)
    (balance_tablets : allocator → @token_metadata topology → load_stats
                       → skiplist → result (migration_plan * allocator))
    (plan_empty : migration_plan → bool)
    (talloc : allocator) (stm : token_metadata) (load : load_stats)
    (skip : skiplist) :
  (∀ rs old_replica new_replica,
     length (replace_replica rs old_replica new_replica) = length rs) →
  (∀ talloc0 tm plan talloc1,
     balance_tablets talloc0 tm load skip = Ok (plan, talloc1) →
     plan_empty plan = false →
     plan_moves_only (tm_tablets tm) plan) →
  match
    rebalance_tablets replace_replica new_tablet_map balance_tablets
      plan_empty talloc stm load skip
  with
  | Ok (talloc', stm') =>
      (∀ table, replica_counts <$> tm_tablets stm' !! table
                = replica_counts <$> tm_tablets stm !! table)
      ∧ get_tablet_count (tm_tablets stm') = get_tablet_count (tm_tablets stm)
  | Err e =>
      e = runtime_error convergence_not_reached
      ∨ ∃ talloc0 tm0, balance_tablets talloc0 tm0 load skip = Err e
  end.
Proof.
  intros Hlen Hplans. unfold rebalance_tablets.
  pose proof (rebalance_loop_counts replace_replica new_tablet_map
                balance_tablets plan_empty load skip Hlen Hplans
                (N.to_nat (max_iterations stm)) talloc stm) as Hloop.
  destruct (rebalance_loop _ _ _ _ _ load skip talloc stm) as [[talloc' stm']|e];
    [|done].
  split.
  - intros table. by rewrite <-!lookup_fmap, Hloop.
  - unfold get_tablet_count. rewrite !get_tablet_count_over_sum.
    f_equal. by apply total_replicas_counts.
Qed.

(** ** The simulation on the small cluster *)

Lemma sample_plan_distinct : resize_plan_distinct (resize_plan sample_plan).
Proof. split; cbn; apply NoDup_singleton. Defined.

Lemma sample_plan_covered :
  resize_plan_covered sample_tablets (resize_plan sample_plan).
Proof.
  split; cbn; intros table ->%list_elem_of_singleton; by eexists.
Defined.

Lemma apply_resize_plan_spec_witness :
  resize_plan_distinct (resize_plan sample_plan)
  ∧ resize_plan_covered sample_tablets (resize_plan sample_plan)
  ∧ ∃ tm',
      apply_resize_plan sample_new_tablet_map sample_tablets sample_plan
      = Ok tm'
      ∧ tm' !! 2%N = doubled sample_new_tablet_map <$> sample_tablets !! 2%N.
Proof.
  split; [exact sample_plan_distinct|]. split; [exact sample_plan_covered|].
  destruct (apply_resize_plan_spec sample_new_tablet_map sample_tablets
              sample_plan sample_plan_distinct sample_plan_covered)
    as (tm' & Hrun & Hfinal & _).
  exists tm'. split; [exact Hrun|]. apply Hfinal. cbn. apply list_elem_of_here.
Defined.

Lemma sample_replace_replica_length rs old_replica new_replica :
  length (sample_replace_replica rs old_replica new_replica) = length rs.
Proof. apply length_fmap. Defined.

Lemma sample_migration_valid (tm : tablet_metadata) tmap info infos :
  tm !! 1%N = Some tmap → tablets tmap = info :: infos →
  migration_valid tm sample_migration.
Proof.
  intros Htmap Hinfo. exists tmap. split; [exact Htmap|].
  rewrite Hinfo. cbn. lia.
Defined.

Lemma sample_moves_plan_moves_only :
  plan_moves_only sample_tablets sample_moves_plan.
Proof.
  split; [|split; [|reflexivity]].
  - apply Forall_singleton. by eapply sample_migration_valid.
  - cbn. intros table ->%list_elem_of_singleton. by eexists.
Defined.

Lemma apply_plan_keeps_replica_counts_witness :
  plan_moves_only sample_tablets sample_moves_plan
  ∧ ∃ tm',
      apply_plan sample_replace_replica sample_new_tablet_map sample_tablets
        sample_moves_plan = Ok tm'
      ∧ get_tablet_count tm' = get_tablet_count sample_tablets.
Proof.
  split; [exact sample_moves_plan_moves_only|].
  destruct (apply_plan_keeps_replica_counts sample_replace_replica
              sample_new_tablet_map sample_tablets sample_moves_plan
              sample_replace_replica_length sample_moves_plan_moves_only)
    as (tm' & Hrun & _ & Hcount).
  by exists tm'.
Defined.

Lemma rebalance_tablets_balanced_witness :
  sample_balance_tablets 0 sample_rebalanced_stm tt tt
  = Ok ({| migrations := [];
           resize_plan := {| resize := []; finalize_resize := [] |} |}, 1%nat)
  ∧ rebalance_tablets sample_replace_replica sample_new_tablet_map
      sample_balance_tablets sample_plan_empty 0%nat sample_rebalanced_stm
      tt tt
    = Ok (1%nat, sample_rebalanced_stm).
Proof.
  split; [reflexivity|].
  by eapply rebalance_tablets_balanced.
Defined.

Lemma sample_rebalance :
  rebalance_tablets sample_replace_replica sample_new_tablet_map
    sample_balance_tablets sample_plan_empty 0%nat sample_stm tt tt
  = Ok (2%nat, sample_rebalanced_stm).
Proof. reflexivity. Defined.

Lemma sample_balance_moves_only talloc0 tm plan talloc1 :
  sample_balance_tablets talloc0 tm tt tt = Ok (plan, talloc1) →
  sample_plan_empty plan = false →
  plan_moves_only (tm_tablets tm) plan.
Proof.
  unfold sample_balance_tablets. intros [= <- _] Hne.
  split; [|split; [|reflexivity]]; cbn.
  - destruct (tm_tablets tm !! 1%N) as [tmap|] eqn:Htmap;
      [|apply Forall_nil_2].
    destruct (tablets tmap) as [|info infos] eqn:Hinfo; [apply Forall_nil_2|].
    destruct (existsb _ _); [|apply Forall_nil_2].
    apply Forall_singleton. by eapply sample_migration_valid.
  - intros table Hin. by apply elem_of_nil in Hin.
Defined.

Lemma rebalance_tablets_keeps_replica_counts_witness :
  get_tablet_count (tm_tablets sample_rebalanced_stm)
  = get_tablet_count (tm_tablets sample_stm).
Proof.
  pose proof (rebalance_tablets_keeps_replica_counts sample_replace_replica
                sample_new_tablet_map sample_balance_tablets
                sample_plan_empty 0%nat sample_stm tt tt
                sample_replace_replica_length sample_balance_moves_only)
    as Hkeeps.
  rewrite sample_rebalance in Hkeeps. exact (proj2 Hkeeps).
Defined.

(** ** [run_simulations] *)

Section run_simulations_facts.

Variable div_ceil : Z → Z → Z.
Hypothesis div_ceil_rounds_up :
  ∀ a b, 0 ≤ a → 0 < b → div_ceil a b = rounded_up_quotient a b.

Lemma tablets_of_fits (shards_draw rf scale_draw nodes : Z) :
  0 ≤ shards_draw ≤ 6 → 1 ≤ rf ≤ 3 → 0 ≤ scale_draw ≤ 3 → 3 ≤ nodes ≤ 6 →
  let shards := int_wrap (Z.shiftl 1 shards_draw) in
  let scale := int_wrap (Z.shiftl 1 scale_draw) in
  tablet_count_fits (tablets_of div_ceil shards nodes rf scale) rf scale nodes
    shards.
Proof.
  intros Hshards Hrf Hscale Hnodes.
  assert (shards_draw = 0 ∨ shards_draw = 1 ∨ shards_draw = 2
          ∨ shards_draw = 3 ∨ shards_draw = 4 ∨ shards_draw = 5
          ∨ shards_draw = 6) as Hs by lia.
  assert (rf = 1 ∨ rf = 2 ∨ rf = 3) as Hr by lia.
  assert (scale_draw = 0 ∨ scale_draw = 1 ∨ scale_draw = 2 ∨ scale_draw = 3)
    as Hc by lia.
  assert (nodes = 3 ∨ nodes = 4 ∨ nodes = 5 ∨ nodes = 6) as Hn by lia.
  clear Hshards Hrf Hscale Hnodes.
  cbn zeta. unfold tablets_of.
  destruct Hs as [->|[->|[->|[->|[->|[->| ->]]]]]];
    destruct Hn as [->|[->|[->| ->]]];
    destruct Hr as [->|[->| ->]];
    (rewrite div_ceil_rounds_up by (by vm_compute));
    destruct Hc as [->|[->|[->| ->]]];
    by vm_compute.
Qed.

End run_simulations_facts.


Lemma sample_draws_in_range : draws_in_range 3 2 1 1 0 5.
Proof. unfold draws_in_range. lia. Defined.


(** ** [test_load_balancing_with_many_tables] *)

Lemma and_then_Ok {A B} (r : result A) (k : A → result B) (b : B) :
  and_then r k = Ok b ↔ ∃ a, r = Ok a ∧ k a = Ok b.
Proof.
  split.
  - destruct r as [a|e]; [|done]. intros Hk. by exists a.
  - by intros (a & -> & Hk).
Qed.

Lemma int_wrap_small (z : Z) : - 2 ^ 31 ≤ z < 2 ^ 31 → int_wrap z = z.
Proof. intros Hz. unfold int_wrap. rewrite Z.mod_small; lia. Qed.

Lemma find_host_first `{EqDecision host_id} (host : host_id)
    (l : list host_id) :
  find_host host (host :: l) = 0%nat.
Proof. unfold find_host. cbn. by rewrite decide_True. Qed.

Section many_tables_facts.

Context {host_id inet_address env : Type} `{EqDecision host_id}.
Variable make_random_uuid : nat → host_id.
Variable make_address : Z → result inet_address.
Variable make_stm : inet_address → host_id → env → result env.
Variable update_topology : host_id → inet_address → env → result env.
Variable being_decommissioned : host_id → env → result env.
Variable remove_endpoint : host_id → env → result env.
Variable rebalance : env → result env.
Variable allocate_tables : params.t → env → result env.
Variable set_use_table_aware_balancing : bool → env → result env.
Variable measure : list host_id → env → result cluster_balance.
Variable format_host : host_id → string.

Local Abbreviation window := (window make_random_uuid make_address).

Lemma window_lengths k n c :
  window k n c → length (hosts c) = n ∧ length (ips c) = n.
Proof.
  intros ((Hhosts & Hips) & _). split.
  - by rewrite Hhosts, length_fmap, length_seq.
  - by rewrite (Forall2_length _ _ _ Hips), length_seq.
Qed.

Lemma add_host_window k n c c' :
  window k n c → Z.of_nat (k + n) + 2 < 2 ^ 31 →
  add_host make_random_uuid make_address c = Ok c' →
  window k (S n) c'.
Proof.
  intros ((Hhosts & Hips) & Hdrawn & Hseq) Hbound.
  unfold add_host. intros (ip & Hip & [= <-])%and_then_Ok.
  split; [split|split]; cbn [hosts ips drawn host_seq].
  - by rewrite seq_S, fmap_app, Hhosts, Hdrawn.
  - rewrite seq_S. apply Forall2_app; [done|].
    constructor; [|constructor]. by rewrite <-Hseq.
  - lia.
  - rewrite Hseq, int_wrap_small; lia.
Qed.

Lemma add_hosts_window (l : list nat) : ∀ k n c c',
  window k n c → Z.of_nat (k + n + length l) + 1 < 2 ^ 31 →
  for_each (λ c _, add_host make_random_uuid make_address c) c l = Ok c' →
  window k (n + length l) c'.
Proof.
  induction l as [|i l IH]; intros k n c c' Hw Hbound Hrun.
  - injection Hrun as <-. by rewrite Nat.add_0_r.
  - cbn [for_each] in Hrun.
    destruct (add_host make_random_uuid make_address c) as [c1|e] eqn:Hadd;
      [|done].
    apply (add_host_window k n) in Hadd; [|done|cbn in Hbound; lia].
    replace (n + length (i :: l))%nat with (S n + length l)%nat
      by (cbn; lia).
    apply (IH k (S n) c1 c' Hadd); [cbn in Hbound; lia|done].
Qed.

Lemma decommission_first_window k n c tm c' tm' host :
  window k (S n) c → hosts c !! 0%nat = Some host →
  decommission being_decommissioned remove_endpoint rebalance format_host
    host (c, tm) = Ok (c', tm') →
  window (S k) n c'.
Proof.
  intros ((Hhosts & Hips) & Hdrawn & Hseq) Hhost. unfold decommission. cbn.
  rewrite Hhosts in *. cbn in Hhost. injection Hhost as <-.
  cbn [seq fmap list_fmap] in *. rewrite find_host_first.
  rewrite decide_False by done.
  intros (host_i & _ & (tm1 & _ & (tm2 & _ & (tm3 & _ & Hrest)%and_then_Ok)
                                   %and_then_Ok)%and_then_Ok)%and_then_Ok.
  apply and_then_Ok in Hrest as (hosts' & Hh & Hrest).
  apply and_then_Ok in Hrest as (ips' & Hi & [= <- _]).
  apply Forall2_cons_inv_r in Hips as (ip & ips0 & Hip & Hips & Heq).
  rewrite Heq in Hi. cbn in Hh, Hi.
  injection Hh as <-. injection Hi as <-.
  split; [split|split]; cbn; [done|done|lia|rewrite Hseq; lia].
Qed.

Lemma bootstrap_window k n c tm c' tm' :
  window k n c → Z.of_nat (k + n) + 2 < 2 ^ 31 →
  bootstrap make_random_uuid make_address update_topology (c, tm)
  = Ok (c', tm') →
  window k (S n) c'.
Proof.
  intros Hw Hbound. unfold bootstrap. cbn.
  intros (c1 & Hadd & (tm1 & _ & [= <- _])%and_then_Ok)%and_then_Ok.
  by eapply add_host_window.
Qed.

Lemma cycle_window k n c tm g i c' tm' g' :
  window k n c → Z.of_nat (k + n) + 2 < 2 ^ 31 →
  cycle make_random_uuid make_address update_topology being_decommissioned
    remove_endpoint rebalance measure format_host (c, tm, g) i
  = Ok (c', tm', g') →
  window (S k) n c'.
Proof.
  intros Hw Hbound. unfold cycle.
  intros ([c1 tm1] & Hboot & Hrest)%and_then_Ok.
  apply and_then_Ok in Hrest as (tm2 & _ & Hrest).
  apply and_then_Ok in Hrest as ([res1 g1] & _ & Hrest).
  apply and_then_Ok in Hrest as (host_0 & Hhost & Hrest).
  apply and_then_Ok in Hrest as ([c2 tm3] & Hdec & Hrest).
  apply and_then_Ok in Hrest as ([res2 g2] & _ & [= <- _ _]).
  apply (bootstrap_window k n) in Hboot; [|done..].
  unfold at_index in Hhost.
  destruct (hosts c1 !! 0%nat) as [h|] eqn:Hh; [|done]. injection Hhost as ->.
  by eapply decommission_first_window.
Qed.

Lemma cycles_window (l : list nat) : ∀ k n c tm g c' tm' g',
  window k n c → Z.of_nat (k + n + length l) + 1 < 2 ^ 31 →
  for_each
    (cycle make_random_uuid make_address update_topology being_decommissioned
       remove_endpoint rebalance measure format_host) (c, tm, g) l
  = Ok (c', tm', g') →
  window (k + length l) n c'.
Proof.
  induction l as [|i l IH]; intros k n c tm g c' tm' g' Hw Hbound Hrun.
  - injection Hrun as <- _ _. by rewrite Nat.add_0_r.
  - cbn [for_each] in Hrun.
    destruct (cycle _ _ _ _ _ _ _ _ (c, tm, g) i) as [[[c1 tm1] g1]|e]
      eqn:Hcycle; [|done].
    apply (cycle_window k n) in Hcycle; [|done|cbn in Hbound; lia].
    replace (k + length (i :: l))%nat with (S k + length l)%nat
      by (cbn; lia).
    apply (IH (S k) n c1 tm1 g1 c' tm' g' Hcycle); [cbn in Hbound; lia|done].
Qed.

Lemma simulation_window p tablet_aware global_res e c tm res :
  Z.of_nat (Z.to_nat (params.nodes p) + Z.to_nat (params.iterations p))
  < 2 ^ 31 - 1 →
  test_load_balancing_with_many_tables make_random_uuid make_address make_stm
    update_topology being_decommissioned remove_endpoint rebalance
    allocate_tables set_use_table_aware_balancing measure format_host
    p tablet_aware global_res e
  = Ok (c, tm, res) →
  window (Z.to_nat (params.iterations p)) (Z.to_nat (params.nodes p)) c
  ∧ 1 ≤ params.nodes p.
Proof.
  intros Hbound. unfold test_load_balancing_with_many_tables.
  intros (c0 & Hadd & Hrest)%and_then_Ok.
  apply and_then_Ok in Hrest as (ip_0 & _ & Hrest).
  apply and_then_Ok in Hrest as (host_0 & Hhost & Hrest).
  apply and_then_Ok in Hrest as (tm0 & _ & Hrest).
  apply and_then_Ok in Hrest as (tm1 & _ & Hrest).
  apply and_then_Ok in Hrest as (tm2 & _ & Hrest).
  apply and_then_Ok in Hrest as (tm3 & _ & Hrest).
  apply and_then_Ok in Hrest as ([res1 g1] & _ & Hrest).
  apply and_then_Ok in Hrest as (tm4 & _ & Hrest).
  apply and_then_Ok in Hrest as ([res2 g2] & _ & Hrest).
  apply (add_hosts_window _ 0 0) in Hadd.
  - rewrite length_seq in Hadd. cbn in Hadd.
    apply (cycles_window _ 0 (Z.to_nat (params.nodes p))) in Hrest;
      [|done|rewrite length_seq; lia].
    rewrite length_seq in Hrest. cbn in Hrest. split; [done|].
    destruct (window_lengths _ _ _ Hadd) as [Hlen _].
    unfold at_index in Hhost.
    destruct (hosts c0 !! 0%nat) as [h|] eqn:Hh; [|done].
    apply lookup_lt_Some in Hh. lia.
  - by split; [split|split].
  - rewrite length_seq. lia.
Qed.

(** ** The results and the contents of [global_res] at first *)

Lemma check_balance_last (c : @host_lists host_id inet_address) tm g res g' :
  check_balance measure c tm g = Ok (res, g') →
  measure (hosts c) tm = Ok res
  ∧ results.init g' = results.init g
  ∧ results.worst g' = worse (results.worst g) res
  ∧ results.last g' = results.last g.
Proof.
  unfold check_balance. by intros (res' & Hm & [= <- <-])%and_then_Ok.
Qed.

Lemma cycle_last_overwritten c tm g1 g2 i :
  results.init g1 = results.init g2 →
  results.worst g1 = results.worst g2 →
  cycle make_random_uuid make_address update_topology being_decommissioned
    remove_endpoint rebalance measure format_host (c, tm, g1) i
  = cycle make_random_uuid make_address update_topology being_decommissioned
      remove_endpoint rebalance measure format_host (c, tm, g2) i.
Proof.
  intros Hinit Hworst. unfold cycle.
  destruct (bootstrap _ _ _ (c, tm)) as [[c1 tm1]|e]; [|done]. cbn.
  destruct (rebalance tm1) as [tm2|e]; [|done]. cbn.
  unfold check_balance.
  destruct (measure (hosts c1) tm2) as [res1|e]; [|done]. cbn.
  destruct (at_index (hosts c1) 0) as [host_0|e]; [|done]. cbn.
  destruct (decommission _ _ _ _ host_0 (c1, tm2)) as [[c2 tm3]|e]; [|done].
  cbn. destruct (measure (hosts c2) tm3) as [res2|e]; [|done]. cbn.
  by rewrite Hinit, Hworst.
Qed.

(** The cycles set [last]: from the first cycle on, what [global_res] held
    at first is gone. *)
Lemma cycles_last_overwritten (l : list nat) : ∀ c tm g1 g2,
  results.init g1 = results.init g2 →
  results.worst g1 = results.worst g2 →
  l ≠ [] →
  for_each
    (cycle make_random_uuid make_address update_topology being_decommissioned
       remove_endpoint rebalance measure format_host) (c, tm, g1) l
  = for_each
      (cycle make_random_uuid make_address update_topology
         being_decommissioned remove_endpoint rebalance measure format_host)
      (c, tm, g2) l.
Proof.
  destruct l as [|i l]; [done|]. intros c tm g1 g2 Hinit Hworst _.
  cbn [for_each]. by rewrite (cycle_last_overwritten c tm g1 g2 i).
Qed.

(** ** The exceptions of the simulation *)

Variable addresses : Z.
Variable p : params.t.
Variable tablet_aware : bool.
Variable e : env.

Local Abbreviation thrown :=
  (thrown_by_collaborator make_address make_stm update_topology
     being_decommissioned remove_endpoint rebalance allocate_tables
     set_use_table_aware_balancing measure addresses p tablet_aware e).

Lemma add_host_thrown k n c ex :
  window k n c → Z.of_nat (k + n) + 1 ≤ addresses →
  add_host make_random_uuid make_address c = Err ex → thrown ex.
Proof.
  intros (_ & _ & Hseq) Hbound. unfold add_host.
  destruct (make_address (host_seq c)) as [ip|ex'] eqn:Hip; [done|].
  cbn. intros [= ->]. left. exists (host_seq c). split; [lia|done].
Qed.

Lemma add_hosts_thrown (l : list nat) : ∀ k n c ex,
  window k n c → Z.of_nat (k + n + length l) ≤ addresses →
  Z.of_nat (k + n + length l) + 1 < 2 ^ 31 →
  for_each (λ c _, add_host make_random_uuid make_address c) c l = Err ex →
  thrown ex.
Proof.
  induction l as [|i l IH]; intros k n c ex Hw Hbound Hint Hrun; [done|].
  cbn [for_each] in Hrun. cbn [length] in Hbound, Hint.
  destruct (add_host make_random_uuid make_address c) as [c1|ex'] eqn:Hadd.
  - apply (add_host_window k n) in Hadd; [|done|lia].
    apply (IH k (S n) c1 ex Hadd); [lia|lia|done].
  - injection Hrun as ->. apply (add_host_thrown k n c); [done|lia|done].
Qed.

Lemma add_host_to_topology_thrown k n c tm i ex :
  window k n c → (i < n)%nat →
  add_host_to_topology update_topology c tm i = Err ex → thrown ex.
Proof.
  intros Hw Hlt. destruct (window_lengths k n c Hw) as [Hh Hi].
  unfold add_host_to_topology, at_index.
  destruct (lookup_lt_is_Some_2 (hosts c) i) as [host ->]; [lia|].
  destruct (lookup_lt_is_Some_2 (ips c) i) as [ip ->]; [lia|]. cbn.
  intros Hup. right. right. left. by exists host, ip, tm.
Qed.

Lemma add_hosts_to_topology_thrown k n c (l : list nat) : ∀ tm ex,
  window k n c → Forall (λ i, i < n)%nat l →
  for_each (add_host_to_topology update_topology c) tm l = Err ex →
  thrown ex.
Proof.
  induction l as [|i l IH]; intros tm ex Hw Hl Hrun; [done|].
  apply Forall_cons in Hl as [Hi Hl]. cbn [for_each] in Hrun.
  destruct (add_host_to_topology update_topology c tm i) as [tm1|ex']
    eqn:Hadd.
  - by apply (IH tm1).
  - injection Hrun as ->. by eapply add_host_to_topology_thrown.
Qed.

Lemma check_balance_thrown (c : @host_lists host_id inet_address) tm g ex :
  check_balance measure c tm g = Err ex → thrown ex.
Proof.
  unfold check_balance.
  destruct (measure (hosts c) tm) as [res|ex'] eqn:Hm; [done|].
  cbn. intros [= ->]. do 8 right. by exists (hosts c), tm.
Qed.

Lemma rebalance_thrown tm ex : rebalance tm = Err ex → thrown ex.
Proof. intros Hr. do 5 right. left. by exists tm. Qed.

Lemma bootstrap_thrown k n c tm ex :
  window k n c → Z.of_nat (k + n) + 1 ≤ addresses →
  Z.of_nat (k + n) + 2 < 2 ^ 31 →
  bootstrap make_random_uuid make_address update_topology (c, tm) = Err ex →
  thrown ex.
Proof.
  intros Hw Hbound Hint. unfold bootstrap. cbn.
  destruct (add_host make_random_uuid make_address c) as [c1|ex'] eqn:Hadd.
  - apply (add_host_window k n) in Hadd; [|done..]. cbn.
    destruct (add_host_to_topology update_topology c1 tm
                (length (hosts c1) - 1)) as [tm1|ex'] eqn:Htop; [done|].
    cbn. intros [= ->].
    apply (add_host_to_topology_thrown k (S n) c1 tm
             (length (hosts c1) - 1) ex Hadd); [|done].
    destruct (window_lengths k (S n) c1 Hadd) as [-> _]. lia.
  - cbn. intros [= ->]. by apply (add_host_thrown k n c).
Qed.

Lemma decommission_first_thrown k n c tm host ex :
  window k (S n) c → hosts c !! 0%nat = Some host →
  decommission being_decommissioned remove_endpoint rebalance format_host
    host (c, tm) = Err ex →
  thrown ex.
Proof.
  intros Hw Hhost. destruct (window_lengths k (S n) c Hw) as [Hh Hi].
  unfold decommission. cbn.
  destruct (hosts c) as [|host_0 hosts'] eqn:Hhosts; [done|].
  destruct (ips c) as [|ip_0 ips'] eqn:Hips; [done|].
  injection Hhost as ->. rewrite find_host_first.
  rewrite decide_False by done. cbn.
  destruct (being_decommissioned host tm) as [tm1|ex'] eqn:H1; cbn.
  - destruct (rebalance tm1) as [tm2|ex'] eqn:H2; cbn.
    + destruct (remove_endpoint host tm2) as [tm3|ex'] eqn:H3; cbn; [done|].
      intros [= ->]. do 4 right. left. by exists host, tm2.
    + intros [= ->]. by apply (rebalance_thrown tm1).
  - intros [= ->]. do 3 right. left. by exists host, tm.
Qed.

Lemma cycle_thrown k n c tm g i ex :
  window k n c → Z.of_nat (k + n) + 1 ≤ addresses →
  Z.of_nat (k + n) + 2 < 2 ^ 31 →
  cycle make_random_uuid make_address update_topology being_decommissioned
    remove_endpoint rebalance measure format_host (c, tm, g) i
  = Err ex →
  thrown ex.
Proof.
  intros Hw Hbound Hint. unfold cycle.
  destruct (bootstrap make_random_uuid make_address update_topology (c, tm))
    as [[c1 tm1]|ex'] eqn:Hboot; cbn;
    [|intros [= ->]; by apply (bootstrap_thrown k n c tm)].
  apply (bootstrap_window k n) in Hboot; [|done..].
  destruct (rebalance tm1) as [tm2|ex'] eqn:Hreb; cbn;
    [|intros [= ->]; by apply (rebalance_thrown tm1)].
  destruct (check_balance measure c1 tm2 g) as [[res1 g1]|ex'] eqn:Hcheck1;
    cbn; [|intros [= ->]; by apply (check_balance_thrown c1 tm2 g)].
  destruct (window_lengths k (S n) c1 Hboot) as [Hh _].
  unfold at_index.
  destruct (lookup_lt_is_Some_2 (hosts c1) 0) as [host_0 Hhost]; [lia|].
  rewrite Hhost. cbn.
  destruct (decommission being_decommissioned remove_endpoint rebalance
              format_host host_0 (c1, tm2)) as [[c2 tm3]|ex'] eqn:Hdec; cbn;
    [|intros [= ->]; by apply (decommission_first_thrown k n c1 tm2 host_0)].
  destruct (check_balance measure c2 tm3 g1) as [[res2 g2]|ex'] eqn:Hcheck2;
    cbn; [done|].
  intros [= ->]. by apply (check_balance_thrown c2 tm3 g1).
Qed.

Lemma cycles_thrown (l : list nat) : ∀ k n c tm g ex,
  window k n c → Z.of_nat (k + n + length l) ≤ addresses →
  Z.of_nat (k + n + length l) + 1 < 2 ^ 31 →
  for_each
    (cycle make_random_uuid make_address update_topology being_decommissioned
       remove_endpoint rebalance measure format_host) (c, tm, g) l
  = Err ex →
  thrown ex.
Proof.
  induction l as [|i l IH]; intros k n c tm g ex Hw Hbound Hint Hrun; [done|].
  cbn [for_each] in Hrun. cbn [length] in Hbound, Hint.
  destruct (cycle _ _ _ _ _ _ _ _ (c, tm, g) i) as [[[c1 tm1] g1]|ex']
    eqn:Hcycle.
  - apply (cycle_window k n) in Hcycle; [|done|lia].
    apply (IH (S k) n c1 tm1 g1 ex Hcycle); [lia|lia|done].
  - injection Hrun as ->. apply (cycle_thrown k n c tm g i); [done|lia|lia|done].
Qed.

Lemma simulation_thrown global_res ex :
  1 ≤ params.nodes p →
  params.nodes p + Z.max 0 (params.iterations p) ≤ addresses →
  params.nodes p + Z.max 0 (params.iterations p) < 2 ^ 31 - 1 →
  test_load_balancing_with_many_tables make_random_uuid make_address make_stm
    update_topology being_decommissioned remove_endpoint rebalance
    allocate_tables set_use_table_aware_balancing measure format_host
    p tablet_aware global_res e
  = Err ex →
  thrown ex.
Proof.
  intros Hnodes Hbound Hint. unfold test_load_balancing_with_many_tables.
  set (n := Z.to_nat (params.nodes p)).
  set (cycles := Z.to_nat (params.iterations p)).
  assert (window 0 0 {| hosts := []; ips := []; host_seq := 1; drawn := 0 |})
    as Hstart by (by split; [split|split]).
  destruct (for_each (λ c _, add_host make_random_uuid make_address c)
              {| hosts := []; ips := []; host_seq := 1; drawn := 0 |}
              (seq 0 n)) as [c|ex'] eqn:Hadd; cbn.
  2:{ intros [= ->].
      apply (add_hosts_thrown (seq 0 n) 0 0 _ ex Hstart);
        [rewrite length_seq; lia..|done]. }
  apply (add_hosts_window _ 0 0) in Hadd;
    [|done|rewrite length_seq; lia].
  rewrite length_seq in Hadd. cbn in Hadd.
  destruct (window_lengths 0 n c Hadd) as [Hh Hi].
  unfold at_index.
  destruct (lookup_lt_is_Some_2 (ips c) 0) as [ip_0 ->]; [lia|].
  destruct (lookup_lt_is_Some_2 (hosts c) 0) as [host_0 ->]; [lia|]. cbn.
  destruct (make_stm ip_0 host_0 e) as [tm0|ex'] eqn:Hstm; cbn.
  2:{ intros [= ->]. right. left. by exists ip_0, host_0. }
  destruct (for_each (add_host_to_topology update_topology c) tm0 (seq 0 n))
    as [tm1|ex'] eqn:Htop; cbn.
  2:{ intros [= ->].
      apply (add_hosts_to_topology_thrown 0 n c (seq 0 n) tm0 ex Hadd);
        [|done].
      apply Forall_forall. intros i Hin%elem_of_seq. lia. }
  destruct (allocate_tables p tm1) as [tm2|ex'] eqn:Halloc; cbn.
  2:{ intros [= ->]. do 6 right. left. by exists tm1. }
  destruct (set_use_table_aware_balancing tablet_aware tm2) as [tm3|ex']
    eqn:Haware; cbn.
  2:{ intros [= ->]. do 7 right. left. by exists tm2. }
  destruct (check_balance measure c tm3 global_res) as [[res1 g1]|ex']
    eqn:Hcheck1; cbn.
  2:{ intros [= ->]. by apply (check_balance_thrown c tm3 global_res). }
  destruct (rebalance tm3) as [tm4|ex'] eqn:Hreb; cbn.
  2:{ intros [= ->]. by apply (rebalance_thrown tm3). }
  destruct (check_balance measure c tm4 g1) as [[res2 g2]|ex'] eqn:Hcheck2;
    cbn.
  2:{ intros [= ->]. by apply (check_balance_thrown c tm4 g1). }
  intros Hrun.
  eapply (cycles_thrown (seq 0 cycles) 0 n c tm4); [exact Hadd|..|exact Hrun];
    rewrite length_seq; lia.
Qed.

End many_tables_facts.

(** X17: when [test_load_balancing_with_many_tables] returns, and the
    counter [host_seq] stayed within [int], the cluster has as many hosts as
    at the start, at least one: after [iterations] cycles they are the hosts
    of the draws number [iterations] and following, in that order, each
    with the address of its own number, since every cycle adds one host at
    the end and decommissions the first. *)
Theorem many_tables_hosts {host_id inet_address env : Type}
    `{EqDecision host_id}
    (make_random_uuid : nat → host_id)
    (make_address : Z → result inet_address)
    (make_stm : inet_address → host_id → env → result env)
    (update_topology : host_id → inet_address → env → result env)
    (being_decommissioned remove_endpoint : host_id → env → result env)
    (rebalance : env → result env)
    (allocate_tables : params.t → env → result env)
    (set_use_table_aware_balancing : bool → env → result env)
    (measure : list host_id → env → result cluster_balance)
    (format_host : host_id → string)
    (p : params.t) (tablet_aware : bool) (global_res : results.t) (e : env)
    (c : host_lists) (tm : env) (res : results.t) :
  params.nodes p + Z.max 0 (params.iterations p) < 2 ^ 31 - 1 →
  test_load_balancing_with_many_tables make_random_uuid make_address make_stm
    update_topology being_decommissioned remove_endpoint rebalance
    allocate_tables set_use_table_aware_balancing measure format_host
    p tablet_aware global_res e
  = Ok (c, tm, res) →
  1 ≤ params.nodes p
  ∧ hosts c
    = make_random_uuid
        <$> seq (Z.to_nat (params.iterations p)) (Z.to_nat (params.nodes p))
  ∧ Forall2 (λ ip j, make_address (Z.of_nat j + 1) = Ok ip) (ips c)
      (seq (Z.to_nat (params.iterations p)) (Z.to_nat (params.nodes p))).
Proof.
  intros Hbound Hrun.
  destruct (decide (1 ≤ params.nodes p)) as [Hnodes|Hnodes].
  - apply simulation_window in Hrun as [[[Hhosts Hips] _] _]; [done|lia].
  - unfold test_load_balancing_with_many_tables in Hrun.
    replace (Z.to_nat (params.nodes p)) with 0%nat in Hrun by lia.
    by cbn in Hrun.
Qed.

(** X18: with at least one node, and the counter [host_seq] within [int],
    every exception of the simulation is an exception of one of its
    collaborators: of the construction of one of the addresses number 1 to
    [nodes + iterations], or of one of the other calls. The simulation has
    no exception of its own: "No such host" and an index past the end of
    the host lists come up only if a collaborator throws just that. *)
Theorem many_tables_throws {host_id inet_address env : Type}
    `{EqDecision host_id}
    (make_random_uuid : nat → host_id)
    (make_address : Z → result inet_address)
    (make_stm : inet_address → host_id → env → result env)
    (update_topology : host_id → inet_address → env → result env)
    (being_decommissioned remove_endpoint : host_id → env → result env)
    (rebalance : env → result env)
    (allocate_tables : params.t → env → result env)
    (set_use_table_aware_balancing : bool → env → result env)
    (measure : list host_id → env → result cluster_balance)
    (format_host : host_id → string)
    (p : params.t) (tablet_aware : bool) (global_res : results.t) (e : env)
    (ex : std_exn) :
  1 ≤ params.nodes p →
  params.nodes p + Z.max 0 (params.iterations p) < 2 ^ 31 - 1 →
  test_load_balancing_with_many_tables make_random_uuid make_address make_stm
    update_topology being_decommissioned remove_endpoint rebalance
    allocate_tables set_use_table_aware_balancing measure format_host
    p tablet_aware global_res e
  = Err ex →
  thrown_by_collaborator make_address make_stm update_topology
    being_decommissioned remove_endpoint rebalance allocate_tables
    set_use_table_aware_balancing measure
    (params.nodes p + Z.max 0 (params.iterations p)) p tablet_aware e ex.
Proof.
  intros Hnodes Hint Hrun.
  by eapply (simulation_thrown make_random_uuid make_address make_stm
               update_topology being_decommissioned remove_endpoint rebalance
               allocate_tables set_use_table_aware_balancing measure
               format_host _ p tablet_aware e global_res ex).
Qed.

(** X19: [global_res] is not initialized, and with at least one iteration
    that does not show: the outcome is the same whatever the variable held
    at first. Without an iteration, the [last] balance that is returned is
    what the variable held at first, and [worst] is [init]. *)
Theorem many_tables_results {host_id inet_address env : Type}
    `{EqDecision host_id}
    (make_random_uuid : nat → host_id)
    (make_address : Z → result inet_address)
    (make_stm : inet_address → host_id → env → result env)
    (update_topology : host_id → inet_address → env → result env)
    (being_decommissioned remove_endpoint : host_id → env → result env)
    (rebalance : env → result env)
    (allocate_tables : params.t → env → result env)
    (set_use_table_aware_balancing : bool → env → result env)
    (measure : list host_id → env → result cluster_balance)
    (format_host : host_id → string)
    (p : params.t) (tablet_aware : bool) (e : env) :
  let run :=
    test_load_balancing_with_many_tables make_random_uuid make_address
      make_stm update_topology being_decommissioned remove_endpoint rebalance
      allocate_tables set_use_table_aware_balancing measure format_host
      p tablet_aware in
  (1 ≤ params.iterations p →
   ∀ global_res global_res', run global_res e = run global_res' e)
  ∧ (params.iterations p ≤ 0 →
     ∀ global_res c tm res,
       run global_res e = Ok (c, tm, res) →
       results.last res = results.last global_res
       ∧ results.worst res = results.init res).
Proof.
  cbn zeta. unfold test_load_balancing_with_many_tables. split.
  - intros Hcycles g g'.
    destruct (for_each _ _ (seq 0 (Z.to_nat (params.nodes p)))) as [c|?];
      [|done]. cbn.
    destruct (at_index (ips c) 0) as [ip_0|?]; [|done]. cbn.
    destruct (at_index (hosts c) 0) as [host_0|?]; [|done]. cbn.
    destruct (make_stm ip_0 host_0 e) as [tm0|?]; [|done]. cbn.
    destruct (for_each _ tm0 _) as [tm1|?]; [|done]. cbn.
    destruct (allocate_tables p tm1) as [tm2|?]; [|done]. cbn.
    destruct (set_use_table_aware_balancing tablet_aware tm2) as [tm3|?];
      [|done]. cbn.
    unfold check_balance.
    destruct (measure (hosts c) tm3) as [res1|?]; [|done]. cbn.
    destruct (rebalance tm3) as [tm4|?]; [|done]. cbn.
    destruct (measure (hosts c) tm4) as [res2|?]; [|done]. cbn.
    apply cycles_last_overwritten; [done..|].
    destruct (Z.to_nat (params.iterations p)) eqn:Hn; [lia|done].
  - intros Hcycles g c tm res.
    replace (Z.to_nat (params.iterations p)) with 0%nat by lia.
    intros (c0 & _ & Hrest)%and_then_Ok.
    apply and_then_Ok in Hrest as (ip_0 & _ & Hrest).
    apply and_then_Ok in Hrest as (host_0 & _ & Hrest).
    apply and_then_Ok in Hrest as (tm0 & _ & Hrest).
    apply and_then_Ok in Hrest as (tm1 & _ & Hrest).
    apply and_then_Ok in Hrest as (tm2 & _ & Hrest).
    apply and_then_Ok in Hrest as (tm3 & _ & Hrest).
    apply and_then_Ok in Hrest as ([res1 g1] & Hcheck1 & Hrest).
    apply and_then_Ok in Hrest as (tm4 & _ & Hrest).
    apply and_then_Ok in Hrest as ([res2 g2] & Hcheck2 & [= _ _ <-]).
    apply check_balance_last in Hcheck1 as (_ & _ & _ & Hlast1).
    apply check_balance_last in Hcheck2 as (_ & _ & _ & Hlast2).
    cbn. split; [congruence|done].
Qed.

Lemma sample_simulation_runs :
  sample_simulation sample_params sample_global_res
  = Ok ({| hosts := [102; 103; 104]%nat; ips := [3; 4; 5]; host_seq := 6;
           drawn := 5 |}, 9%nat,
        {| results.init := sample_balance 1;
           results.worst := sample_balance 1.5;
           results.last := sample_balance 1 |}).
Proof. by vm_compute. Defined.

Lemma many_tables_hosts_witness :
  params.nodes sample_params + Z.max 0 (params.iterations sample_params)
  < 2 ^ 31 - 1
  ∧ Forall2 (λ ip j, Ok (Z.of_nat j + 1) = Ok ip) [3; 4; 5]
      (seq (Z.to_nat (params.iterations sample_params))
           (Z.to_nat (params.nodes sample_params))).
Proof.
  assert (params.nodes sample_params
          + Z.max 0 (params.iterations sample_params) < 2 ^ 31 - 1) as Hbound
    by (by vm_compute).
  split; [exact Hbound|].
  exact (proj2 (proj2 (many_tables_hosts _ _ _ _ _ _ _ _ _ _ _ sample_params
                         true sample_global_res 0%nat _ _ _ Hbound
                         sample_simulation_runs))).
Defined.

Lemma sample_short_simulation_fails :
  sample_short_simulation = Err (invalid_argument "inet_address").
Proof. by vm_compute. Defined.

Lemma many_tables_throws_witness :
  1 ≤ params.nodes sample_params
  ∧ params.nodes sample_params + Z.max 0 (params.iterations sample_params)
    < 2 ^ 31 - 1
  ∧ sample_short_simulation = Err (invalid_argument "inet_address")
  ∧ thrown_by_collaborator sample_address (λ (_ : Z) (_ : nat) (e : nat), Ok e)
      (λ (_ : nat) (_ : Z) tm, Ok (S tm)) (λ (_ : nat) tm, Ok (S tm))
      (λ (_ : nat) tm, Ok (S tm)) (λ tm : nat, Ok tm)
      (λ (_ : params.t) (tm : nat), Ok tm) (λ (_ : bool) (tm : nat), Ok tm)
      sample_measure 5 sample_params true 0%nat
      (invalid_argument "inet_address").
Proof.
  assert (1 ≤ params.nodes sample_params) as Hnodes by (by vm_compute).
  assert (params.nodes sample_params
          + Z.max 0 (params.iterations sample_params) < 2 ^ 31 - 1) as Hint
    by (by vm_compute).
  split; [exact Hnodes|]. split; [exact Hint|].
  split; [exact sample_short_simulation_fails|].
  exact (many_tables_throws (λ k, 100 + k)%nat sample_address _ _ _ _ _ _ _
           sample_measure (λ _, "host") sample_params true sample_global_res
           0%nat _ Hnodes Hint sample_short_simulation_fails).
Defined.

Lemma many_tables_results_witness :
  1 ≤ params.iterations sample_params
  ∧ sample_simulation sample_params sample_global_res
    = sample_simulation sample_params
        {| results.init := sample_balance 0;
           results.worst := sample_balance 0;
           results.last := sample_balance 0 |}.
Proof.
  assert (1 ≤ params.iterations sample_params) as Hcycles by (by vm_compute).
  split; [exact Hcycles|].
  exact (proj1 (many_tables_results (λ k, 100 + k)%nat (λ n, Ok n)
                  (λ _ _ e, Ok e) (λ _ _ tm, Ok (S tm)) (λ _ tm, Ok (S tm))
                  (λ _ tm, Ok (S tm)) (λ tm, Ok tm) (λ _ tm, Ok tm)
                  (λ _ tm, Ok tm) sample_measure (λ _, "host") sample_params
                  true 0%nat) Hcycles _ _).
Defined.
